(** * Distribution-change attribution (dowhy.gcm.distribution_change)

    A shallow embedding of [src/dowhy/gcm/distribution_change.py] and the
    properties of it that the specification states.

    Conventions of the embedding.
    - Python floats that the module itself computes with (p-values,
      significance levels, scores, running sums) are exact rationals [Q];
      infinities and NaN results of arithmetic are outside the model.
    - Cells of data frames and numpy arrays are [option Q], [None] being a
      missing value (NaN); the module never computes with them.
    - The module is stateful: it draws from numpy's global random source,
      allocates and mutates graph and mechanism objects, and raises.  Every
      function is therefore a computation [M A] over a [World] (random state,
      object store, log of the collaborator calls) returning [Ok] or [Raise].
    - Pluggable collaborators (the independence tests, the multiple-testing
      correction, the difference estimator, the samplers, the Shapley
      estimator, the graph factory) are parameters, as in the source. *)

From Stdlib Require Import ZArith QArith Lia Lqa String DecimalString.
From stdpp Require Import base option list gmap strings sorting.

Close Scope Q_scope.
Open Scope string_scope.
Open Scope list_scope.
Open Scope nat_scope.

(** ** Values *)

Definition node : Type := string.
Definition cell : Type := option Q.
Definition graph_ref : Type := nat.
Definition mech_ref : Type := nat.

(** numpy arrays of dimension one or two.  A two-dimensional array keeps its
    number of columns, which an array without rows still has. *)
Inductive ndarray : Type :=
| Arr1 (xs : list cell)
| Arr2 (ncols : nat) (rows : list (list cell)).

(** [a.shape[0]] *)
Definition shape0 (a : ndarray) : nat :=
  match a with
  | Arr1 xs => length xs
  | Arr2 _ rows => length rows
  end.

(** A data frame: its column labels and its rows; a row maps a column to its
    cell, a column missing from a row being NaN. *)
Record DataFrame : Type := mkDataFrame {
  df_columns : list node;
  df_rows : list (gmap node Q)
}.

(** Exceptions.  [ExtError] carries an exception raised inside a collaborator;
    the others are raised by this module or by the numpy, pandas and graph
    primitives it calls. *)
Inductive exn (ExtExn : Type) : Type :=
| ValueError (msg : string)
| KeyError (key : string)
| IndexError
| TypeError
| ZeroDivisionError
| ExtError (e : ExtExn).
Arguments ValueError {ExtExn} msg.
Arguments KeyError {ExtExn} key.
Arguments IndexError {ExtExn}.
Arguments TypeError {ExtExn}.
Arguments ZeroDivisionError {ExtExn}.
Arguments ExtError {ExtExn} e.

Inductive Result (ExtExn A : Type) : Type :=
| Ok (a : A)
| Raise (e : exn ExtExn).
Arguments Ok {ExtExn A} a.
Arguments Raise {ExtExn A} e.

(** ** Objects *)

(** What a mechanism was fitted on: [fit(X=..., Y=...)], [Y] absent for a
    root node. *)
Record TrainingSet : Type := mkTrainingSet {
  ts_X : ndarray;
  ts_Y : option ndarray
}.

(** A causal mechanism object.  [fit] replaces the fitted parameters, so the
    state of the object is its model family and the data of its last fit. *)
Record Mechanism (Family : Type) : Type := mkMechanism {
  mech_family : Family;
  mech_fitted_on : option TrainingSet
}.
Arguments mkMechanism {Family} _ _.
Arguments mech_family {Family} _.
Arguments mech_fitted_on {Family} _.

(** The attribute dictionary of a graph node: the [CAUSAL_MECHANISM] and
    [PARENTS_DURING_FIT] entries. *)
Record NodeAttrs : Type := mkNodeAttrs {
  attr_causal_mechanism : option mech_ref;
  attr_parents_during_fit : option (list node)
}.

(** A directed graph object: nodes and edges in insertion order, and the
    attribute dictionaries of the nodes. *)
Record Graph : Type := mkGraph {
  g_nodes : list node;
  g_edges : list (node * node);
  g_attrs : gmap node NodeAttrs
}.

(** A reference to a graph: the graph object itself, or a live sub-graph view
    of it restricted to the nodes [keep].  A view shares the attribute
    dictionaries of the graph it views. *)
Record GraphHandle : Type := mkHandle {
  h_ref : graph_ref;
  h_keep : option (list node)
}.

(** Calls of collaborators, in the order they happen. *)
Inductive Event : Type :=
| EvChoice (population size : nat)
| EvIndependenceTest (X : ndarray) (labels : list string)
| EvConditionalIndependenceTest (X : ndarray) (labels : list string) (Z : ndarray)
| EvMultipletests (pvals : list Q) (alpha : Q) (method : string)
| EvDifference (a b : ndarray)
| EvGraphFactory (source fresh_graph : graph_ref)
| EvDrawSamples (model : GraphHandle) (n : nat)
| EvFit (m : mech_ref) (training : TrainingSet)
| EvClone (m fresh_mech : mech_ref)
| EvMechanismDraw (m : mech_ref) (parents : ndarray)
| EvShapley (players : nat).

Record World (Rng Family : Type) : Type := mkWorld {
  w_rng : Rng;
  w_graphs : gmap graph_ref Graph;
  w_mechs : gmap mech_ref (Mechanism Family);
  w_log : list Event
}.
Arguments mkWorld {Rng Family} _ _ _ _.
Arguments w_rng {Rng Family} _.
Arguments w_graphs {Rng Family} _.
Arguments w_mechs {Rng Family} _.
Arguments w_log {Rng Family} _.

(** ** The computation monad *)

Section Monad.
Context {Rng Family ExtExn : Type}.

Definition M (A : Type) : Type :=
  World Rng Family -> Result ExtExn A * World Rng Family.

Definition ret {A} (a : A) : M A := fun w => (Ok a, w).

Definition raise {A} (e : exn ExtExn) : M A := fun w => (Raise e, w).

Definition bind {A B} (c : M A) (k : A -> M B) : M B :=
  fun w =>
    match c w with
    | (Ok a, w') => k a w'
    | (Raise e, w') => (Raise e, w')
    end.

Definition log_event (e : Event) : M unit :=
  fun w => (Ok tt, mkWorld (w_rng w) (w_graphs w) (w_mechs w) (w_log w ++ [e])).

(** A collaborator that draws from the global random source. *)
Definition with_rng {A} (f : Rng -> A * Rng) : M A :=
  fun w =>
    let (a, r) := f (w_rng w) in
    (Ok a, mkWorld r (w_graphs w) (w_mechs w) (w_log w)).

(** A collaborator that draws from the global random source and may raise. *)
Definition with_rng_result {A} (f : Rng -> Result ExtExn A * Rng) : M A :=
  fun w =>
    let (a, r) := f (w_rng w) in
    (a, mkWorld r (w_graphs w) (w_mechs w) (w_log w)).

Definition of_result {A} (r : Result ExtExn A) : M A := fun w => (r, w).

Definition of_option {A} (o : option A) (e : exn ExtExn) : M A :=
  match o with
  | Some a => ret a
  | None => raise e
  end.

(** [for x in xs: body(x)] collecting the values of the body. *)
Fixpoint for_each {A B} (body : A -> M B) (xs : list A) : M (list B) :=
  match xs with
  | [] => ret []
  | x :: rest =>
      bind (body x) (fun b => bind (for_each body rest) (fun bs => ret (b :: bs)))
  end.

(** [for x in xs: acc = body(acc, x)] *)
Fixpoint for_fold {A S} (body : S -> A -> M S) (acc : S) (xs : list A) : M S :=
  match xs with
  | [] => ret acc
  | x :: rest => bind (body acc x) (fun acc' => for_fold body acc' rest)
  end.
End Monad.

Notation "'let*' x ':=' c 'in' k" := (bind c (fun x => k))
  (at level 10, x name, c at level 200, k at level 200,
   format "'[v' 'let*'  x  ':='  c  'in' '/' k ']'").
Notation "c ;; k" := (bind c (fun _ => k))
  (at level 100, k at level 200, right associativity).

(** ** numpy and pandas primitives *)

Section Primitives.
Context {Rng Family ExtExn : Type}.
Local Abbreviation M := (@M Rng Family ExtExn).

(** [a[indices]] with an array of row indices: the rows in the order of the
    indices; an index past the end raises. *)
Definition take_rows (a : ndarray) (indices : list nat) : M ndarray :=
  match a with
  | Arr1 xs =>
      of_option (Arr1 <$> mapM (fun i => xs !! i) indices) IndexError
  | Arr2 c rows =>
      of_option (Arr2 c <$> mapM (fun i => rows !! i) indices) IndexError
  end.

(** [np.vstack([a, b])]: one-dimensional arrays count as single rows; the
    numbers of columns must agree. *)
Definition atleast_2d (a : ndarray) : nat * list (list cell) :=
  match a with
  | Arr1 xs => (length xs, [xs])
  | Arr2 c rows => (c, rows)
  end.

Definition np_vstack (a b : ndarray) : M ndarray :=
  let (ca, ra) := atleast_2d a in
  let (cb, rb) := atleast_2d b in
  if Nat.eqb ca cb then ret (Arr2 ca (ra ++ rb))
  else raise (ValueError "all the input array dimensions except for the concatenation axis must match exactly").

(** [repmat(row, n, 1)] of a one-dimensional row. *)
Definition repmat (row : list cell) (n : nat) : ndarray :=
  Arr2 (length row) (replicate n row).

(** [df[column].to_numpy()] *)
Definition df_column (df : DataFrame) (column : node) : M ndarray :=
  if bool_decide (column ∈ df_columns df)
  then ret (Arr1 ((fun row => (row : gmap node Q) !! column) <$> df_rows df))
  else raise (KeyError column).

(** [df[columns].to_numpy()] with a list of columns. *)
Definition df_columns_matrix (df : DataFrame) (columns : list node) : M ndarray :=
  match filter (fun c => c ∉ df_columns df) columns with
  | [] =>
      ret (Arr2 (length columns)
             ((fun row => (fun c => (row : gmap node Q) !! c) <$> columns) <$> df_rows df))
  | c :: _ => raise (KeyError c)
  end.

(** [df[columns]] with a list of columns, as a data frame. *)
Definition df_select (df : DataFrame) (columns : list node) : M DataFrame :=
  match filter (fun c => c ∉ df_columns df) columns with
  | [] =>
      ret (mkDataFrame columns
             ((fun row => filter (fun kv => kv.1 ∈ columns) (row : gmap node Q)) <$> df_rows df))
  | c :: _ => raise (KeyError c)
  end.

(** String order of Python's [sorted]: by code point, which [String.leb] is
    on the characters of [string]. *)
Definition string_le (a b : string) : Prop := String.leb a b = true.
#[export] Instance string_le_dec a b : Decision (string_le a b).
Proof. unfold string_le. apply _. Defined.

Definition sorted (xs : list node) : list node := merge_sort string_le xs.

(** [pd.concat([a, b], ignore_index=True, sort=True)]: the rows of [a]
    followed by the rows of [b], renumbered; the columns are the union of
    both, sorted unless the two frames already have the same columns. *)
Definition pd_concat (a b : DataFrame) : DataFrame :=
  mkDataFrame
    (if bool_decide (df_columns a = df_columns b) then df_columns a
     else sorted (remove_dups (df_columns a ++ df_columns b)))
    (df_rows a ++ df_rows b).
End Primitives.

(** Modelled from the spec: [shape_into_2d] of [dowhy.gcm.util.general], which
    is not among the sources: a one-dimensional array of n values becomes an
    n-by-1 column, a two-dimensional array is returned as it is. *)
Definition shape_into_2d (a : ndarray) : ndarray :=
  match a with
  | Arr1 xs => Arr2 1 ((fun x => [x]) <$> xs)
  | Arr2 c rows => Arr2 c rows
  end.

(** [np.ones(n)] is an array of the float 1.0; the label array of the
    mechanism-change test only ever holds 1.0 and -1.0, so integers stand for
    these floats. *)
Definition np_ones (n : nat) : list Z := replicate n 1%Z.

(** [a[start:] = v] *)
Definition assign_from (a : list Z) (start : nat) (v : Z) : list Z :=
  take start a ++ replicate (length a - start) v.

(** [a.astype(str)] on a float array: an integral float below 1e16 prints as
    its digits followed by [.0]. *)
Definition is_Some_b {A} (o : option A) : bool :=
  match o with Some _ => true | None => false end.

Definition float_astype_str (x : Z) : string :=
  NilZero.string_of_int (Z.to_int x) ++ ".0".

(** Modelled from the spec: the generic Shapley-value estimator
    [estimate_shapley_values] of [dowhy.gcm.shapley], which is not among the
    sources: "sampling-based; exact algorithm is external".  All the module
    relies on is that the estimator evaluates the set function on coalitions
    of its choice, may draw from the global random source in between, and
    ends with a vector of contributions or an exception.  A plan spells out
    such a run; the next step may depend on every value seen so far. *)
Inductive ShapleyPlan (Rng ExtExn : Type) : Type :=
| ShapleyReturn (attributions : list Q)
| ShapleyRaise (e : ExtExn)
| ShapleyEvaluate (subset : list Z) (continue : Q -> ShapleyPlan Rng ExtExn)
| ShapleyDraw (advance : Rng -> Rng) (continue : Rng -> ShapleyPlan Rng ExtExn).
Arguments ShapleyReturn {Rng ExtExn} _.
Arguments ShapleyRaise {Rng ExtExn} _.
Arguments ShapleyEvaluate {Rng ExtExn} _ _.
Arguments ShapleyDraw {Rng ExtExn} _ _.

(** [dict(zip(keys, values))]: pairs up to the shorter of the two; a later
    pair replaces an earlier one with the same key. *)
Definition dict_zip {V} (keys : list node) (values : list V) : gmap node V :=
  foldl (fun d kv => <[kv.1 := kv.2]> d) ∅ (zip keys values).

(** ** The module *)

Section DistributionChange.
Context {Rng Family ExtExn : Type}.
Local Abbreviation M := (@M Rng Family ExtExn).

(** [np.random.choice(population, size, replace=False)] on the global
    random source.  The module only calls it with [size <= population]. *)
Variable np_random_choice : nat -> nat -> Rng -> list nat * Rng.

(** The pluggable tests: they return a p-value or raise, and may draw from
    the global random source. *)
Variable independence_test :
  ndarray -> list string -> Rng -> (ExtExn + Q) * Rng.
Variable conditional_independence_test :
  ndarray -> list string -> ndarray -> Rng -> (ExtExn + Q) * Rng.

Definition of_collaborator {A} (f : Rng -> (ExtExn + A) * Rng) : M A :=
  with_rng_result (fun r =>
    match f r with
    | (inl e, r') => (Raise (ExtError e), r')
    | (inr a, r') => (Ok a, r')
    end).

Definition random_choice (population size : nat) : M (list nat) :=
  log_event (EvChoice population size) ;;
  with_rng (np_random_choice population size).

Definition call_independence_test (X : ndarray) (labels : list string) : M Q :=
  log_event (EvIndependenceTest X labels) ;;
  of_collaborator (independence_test X labels).

Definition call_conditional_independence_test
    (X : ndarray) (labels : list string) (Z : ndarray) : M Q :=
  log_event (EvConditionalIndependenceTest X labels Z) ;;
  of_collaborator (conditional_independence_test X labels Z).

(** *** [mechanism_change_test] *)

Definition original_parents_without_new : string :=
  "Original parents data were given, but no new parents data!".
Definition new_parents_without_original : string :=
  "New parents data were given, but no original parents data!".

Definition mechanism_change_test
    (target_original_data target_new_data : ndarray)
    (parents_original_data parents_new_data : option ndarray) : M Q :=
  if is_Some_b parents_original_data && negb (is_Some_b parents_new_data)
  then raise (ValueError original_parents_without_new)
  else if negb (is_Some_b parents_original_data) && is_Some_b parents_new_data
  then raise (ValueError new_parents_without_original)
  else
    let num_samples_for_testing :=
      Nat.min (shape0 target_original_data) (shape0 target_new_data) in
    let data_set_indices := np_ones (num_samples_for_testing * 2) in
    let data_set_indices := assign_from data_set_indices num_samples_for_testing (-1)%Z in
    let data_set_indices := float_astype_str <$> data_set_indices in
    let* original_indices :=
      random_choice (shape0 target_original_data) num_samples_for_testing in
    let* new_indices :=
      random_choice (shape0 target_new_data) num_samples_for_testing in
    let* selected_original := take_rows target_original_data original_indices in
    let* selected_new := take_rows target_new_data new_indices in
    let* joint_target_samples :=
      np_vstack (shape_into_2d selected_original) (shape_into_2d selected_new) in
    match parents_original_data with
    | None => call_independence_test joint_target_samples data_set_indices
    | Some parents_original_data =>
        let* parents_new_data := of_option parents_new_data TypeError in
        let* selected_original_parents := take_rows parents_original_data original_indices in
        let* selected_new_parents := take_rows parents_new_data new_indices in
        let* joint_parent_data :=
          np_vstack (shape_into_2d selected_original_parents)
                    (shape_into_2d selected_new_parents) in
        call_conditional_independence_test
          joint_target_samples data_set_indices joint_parent_data
    end.

(** *** Graphs and causal models

    Modelled from the spec: the graph abstraction (node iteration,
    predecessor query, node-connected sub-graph view) and the causal-model
    abstraction (get and set of a per-node mechanism) of [dowhy.graph] and
    [dowhy.gcm.cms], which are not among the sources.  A
    [ProbabilisticCausalModel] only wraps its graph, so a causal model is
    the handle of its graph. *)

Definition restrict (keep : list node) (g : Graph) : Graph :=
  mkGraph (filter (fun n => n ∈ keep) (g_nodes g))
          (filter (fun e => e.1 ∈ keep ∧ e.2 ∈ keep) (g_edges g))
          (filter (fun kv => kv.1 ∈ keep) (g_attrs g)).

(** The graph as seen through a handle.  A reference always designates a
    live object in Python; [TypeError] stands for the impossible case. *)
Definition read_graph (h : GraphHandle) : M Graph :=
  fun w =>
    match w_graphs w !! h_ref h with
    | Some g => (Ok (from_option (fun keep => restrict keep g) g (h_keep h)), w)
    | None => (Raise TypeError, w)
    end.

(** [graph.nodes] *)
Definition graph_nodes (h : GraphHandle) : M (list node) :=
  let* g := read_graph h in ret (g_nodes g).

Definition predecessors (g : Graph) (n : node) : list node :=
  (filter (fun e => e.2 = n) (g_edges g)).*1.

(** [get_ordered_predecessors(graph, node)] *)
Definition get_ordered_predecessors (h : GraphHandle) (n : node) : M (list node) :=
  let* g := read_graph h in
  if bool_decide (n ∈ g_nodes g) then ret (predecessors g n)
  else raise (KeyError n).

(** [is_root_node(graph, node)] *)
Definition is_root_node (h : GraphHandle) (n : node) : M bool :=
  let* parents := get_ordered_predecessors h n in
  ret (bool_decide (parents = [])).

(** [graph.nodes[node]], the attribute dictionary of a node. *)
Definition node_attrs (h : GraphHandle) (n : node) : M NodeAttrs :=
  let* g := read_graph h in
  if bool_decide (n ∈ g_nodes g)
  then ret (default (mkNodeAttrs None None) (g_attrs g !! n))
  else raise (KeyError n).

(** [graph.nodes[node][key] = value]: the dictionary written is the one of
    the graph object, also through a view. *)
Definition update_node_attrs (h : GraphHandle) (n : node)
    (f : NodeAttrs -> NodeAttrs) : M unit :=
  let* attrs := node_attrs h n in
  fun w =>
    match w_graphs w !! h_ref h with
    | Some g =>
        (Ok tt,
         mkWorld (w_rng w)
           (<[h_ref h := mkGraph (g_nodes g) (g_edges g) (<[n := f attrs]> (g_attrs g))]>
              (w_graphs w))
           (w_mechs w) (w_log w))
    | None => (Raise TypeError, w)
    end.

(** [causal_model.causal_mechanism(node)] *)
Definition causal_mechanism (model : GraphHandle) (n : node) : M mech_ref :=
  let* attrs := node_attrs model n in
  of_option (attr_causal_mechanism attrs) (KeyError "causal_mechanism").

(** [causal_model.set_causal_mechanism(node, mechanism)] *)
Definition set_causal_mechanism (model : GraphHandle) (n : node) (m : mech_ref) : M unit :=
  update_node_attrs model n
    (fun a => mkNodeAttrs (Some m) (attr_parents_during_fit a)).

(** [graph.nodes[node][PARENTS_DURING_FIT] = parents] *)
Definition set_parents_during_fit (h : GraphHandle) (n : node)
    (parents : list node) : M unit :=
  update_node_attrs h n
    (fun a => mkNodeAttrs (attr_causal_mechanism a) (Some parents)).

(** The ancestors of a node: the predecessor closure, which is complete
    after as many rounds as the graph has nodes. *)
Fixpoint ancestors_upto (fuel : nat) (g : Graph) (frontier : list node) : list node :=
  match fuel with
  | O => []
  | S fuel' =>
      let parents := remove_dups (frontier ≫= predecessors g) in
      parents ++ ancestors_upto fuel' g parents
  end.

Definition ancestors (g : Graph) (n : node) : list node :=
  remove_dups (ancestors_upto (length (g_nodes g)) g [n]).

(** [node_connected_subgraph_view(graph, node)]: the view of the graph
    restricted to the ancestors of the node and the node itself.  For a
    node that is not in the graph the graph library raises an error of its
    own; [KeyError] stands for it here, and no statement below depends on
    its kind. *)
Definition node_connected_subgraph_view (h : GraphHandle) (n : node) : M GraphHandle :=
  let* g := read_graph h in
  if bool_decide (n ∈ g_nodes g)
  then ret (mkHandle (h_ref h) (Some (n :: ancestors g n)))
  else raise (KeyError n).

(** [validate_causal_dag(graph)]: reads the graph and raises when it is not
    a valid causal DAG. *)
Variable validate_dag : Graph -> option ExtExn.

Definition validate_causal_dag (h : GraphHandle) : M unit :=
  let* g := read_graph h in
  match validate_dag g with
  | None => ret tt
  | Some e => raise (ExtError e)
  end.

(** [graph_factory(graph)]: it "must copy nodes and edges" into a new graph
    object; what it does with the attributes is its own choice. *)
Variable graph_factory : Graph -> Graph.

Definition call_graph_factory (source : GraphHandle) : M GraphHandle :=
  let* g := read_graph source in
  fun w =>
    let r := fresh (dom (w_graphs w)) in
    (Ok (mkHandle r None),
     mkWorld (w_rng w) (<[r := graph_factory g]> (w_graphs w)) (w_mechs w)
       (w_log w ++ [EvGraphFactory (h_ref source) r])).

(** *** Mechanisms

    Modelled from the spec: the mechanism capability "fit / draw samples /
    clone" of [dowhy.gcm.causal_mechanisms], the forward sampler
    [draw_samples] and [fit_causal_model_of_target] of
    [dowhy.gcm.fitting_sampling], which are not among the sources. *)

Definition read_mechanism (m : mech_ref) : M (Mechanism Family) :=
  fun w =>
    match w_mechs w !! m with
    | Some mech => (Ok mech, w)
    | None => (Raise TypeError, w)
    end.

(** [mechanism.fit(X=..., Y=...)] mutates the mechanism object. *)
Definition mechanism_fit (m : mech_ref) (training : TrainingSet) : M unit :=
  let* mech := read_mechanism m in
  log_event (EvFit m training) ;;
  fun w =>
    (Ok tt,
     mkWorld (w_rng w) (w_graphs w)
       (<[m := mkMechanism (mech_family mech) (Some training)]> (w_mechs w))
       (w_log w)).

(** [mechanism.clone()] is a new mechanism object. *)
Definition mechanism_clone (m : mech_ref) : M mech_ref :=
  let* mech := read_mechanism m in
  fun w =>
    let r := fresh (dom (w_mechs w)) in
    (Ok r,
     mkWorld (w_rng w) (w_graphs w) (<[r := mech]> (w_mechs w))
       (w_log w ++ [EvClone m r])).

(** [mechanism.draw_samples(parent_samples)] *)
Variable mechanism_sampler : Mechanism Family -> ndarray -> Rng -> ndarray * Rng.

Definition mechanism_draw_samples (m : mech_ref) (parent_samples : ndarray) : M ndarray :=
  let* mech := read_mechanism m in
  log_event (EvMechanismDraw m parent_samples) ;;
  with_rng (mechanism_sampler mech parent_samples).

(** [draw_samples(causal_model, num_samples)]: reads the graph and the
    mechanisms of the model, draws from the global random source and
    returns a newly allocated table; it raises when the model is invalid. *)
Variable forward_sampler :
  Graph -> gmap mech_ref (Mechanism Family) -> nat -> Rng -> (ExtExn + DataFrame) * Rng.

Definition draw_samples (model : GraphHandle) (num_samples : nat) : M DataFrame :=
  let* g := read_graph model in
  log_event (EvDrawSamples model num_samples) ;;
  fun w => of_collaborator (forward_sampler g (w_mechs w) num_samples) w.

(** [fit_causal_model_of_target(causal_model, target_node, training_data)]:
    fits the mechanism of the node on its columns of the training data.
    Only the fit of the mechanism is modelled: what the library may record
    on the node besides it, such as the parents seen during the fit, is
    left out. *)
Definition training_set (model : GraphHandle) (target : node)
    (training_data : DataFrame) : M TrainingSet :=
  let* parents := get_ordered_predecessors model target in
  if bool_decide (parents = [])
  then
    let* X := df_column training_data target in
    ret (mkTrainingSet X None)
  else
    let* X := df_columns_matrix training_data parents in
    let* Y := df_column training_data target in
    ret (mkTrainingSet X (Some Y)).

Definition fit_causal_model_of_target (model : GraphHandle) (target : node)
    (training_data : DataFrame) : M unit :=
  let* m := causal_mechanism model target in
  let* training := training_set model target training_data in
  mechanism_fit m training.

(** *** [_check_significant_mechanism_change] *)

(** [multipletests(pvals, alpha, method=...)[0]] of statsmodels. *)
Variable multipletests : list Q -> Q -> string -> ExtExn + list bool.

Definition call_multipletests (pvals : list Q) (alpha : Q) (method : string)
    : M (list bool) :=
  log_event (EvMultipletests pvals alpha method) ;;
  match multipletests pvals alpha method with
  | inl e => raise (ExtError e)
  | inr rejects => ret rejects
  end.

(** The body of the loop over the nodes: the p-value of one node. *)
Definition node_p_value (graph : GraphHandle) (old_data new_data : DataFrame)
    (n : node) : M Q :=
  let* root := is_root_node graph n in
  let* parents_data :=
    if root then ret (None, None)
    else
      let* parents := get_ordered_predecessors graph n in
      let* parents_org_data := df_columns_matrix old_data parents in
      let* parents := get_ordered_predecessors graph n in
      let* parents_new_data := df_columns_matrix new_data parents in
      ret (Some parents_org_data, Some parents_new_data) in
  let* target_old := df_column old_data n in
  let* target_new := df_column new_data n in
  mechanism_change_test target_old target_new parents_data.1 parents_data.2.

Definition _check_significant_mechanism_change
    (graph : GraphHandle) (old_data new_data : DataFrame)
    (significance_level : Q) (fdr_control_method : option string)
    : M (gmap node bool) :=
  let* nodes := graph_nodes graph in
  let* all_p_values := for_each (node_p_value graph old_data new_data) nodes in
  let* successes :=
    match fdr_control_method with
    | None => ret ((fun p => Qle_bool p significance_level) <$> all_p_values)
    | Some method => call_multipletests all_p_values significance_level method
    end in
  let* nodes := graph_nodes graph in
  ret (dict_zip nodes successes).

(** *** [_fit_accounting_for_mechanism_change] *)

Definition refit_node (causal_model_old causal_model_new : GraphHandle)
    (old_data new_data joint_data : DataFrame)
    (mechanism_changed_for_node : gmap node bool) (n : node) : M unit :=
  let* changed := of_option (mechanism_changed_for_node !! n) (KeyError n) in
  if (changed : bool) then
    fit_causal_model_of_target causal_model_old n old_data ;;
    fit_causal_model_of_target causal_model_new n new_data
  else
    fit_causal_model_of_target causal_model_old n joint_data ;;
    fit_causal_model_of_target causal_model_new n joint_data.

Definition _fit_accounting_for_mechanism_change
    (causal_model_old causal_model_new : GraphHandle)
    (old_data new_data : DataFrame)
    (significance_level : Q) (fdr_control_method : option string)
    : M (gmap node bool) :=
  let* mechanism_changed_for_node :=
    _check_significant_mechanism_change causal_model_old old_data new_data
      significance_level fdr_control_method in
  let joint_data := pd_concat old_data new_data in
  let* nodes := graph_nodes causal_model_new in
  for_each
    (refit_node causal_model_old causal_model_new old_data new_data joint_data
       mechanism_changed_for_node) nodes ;;
  ret mechanism_changed_for_node.

(** *** [_estimate_marginal_distribution_change] *)

Variable difference_estimation_func : ndarray -> ndarray -> Q.

Definition call_difference (a b : ndarray) : M Q :=
  log_event (EvDifference a b) ;;
  ret (difference_estimation_func a b).

Context {ShapleyConfig : Type}.
Variable shapley_estimator : nat -> option ShapleyConfig -> ShapleyPlan Rng ExtExn.

Fixpoint run_shapley (plan : ShapleyPlan Rng ExtExn)
    (set_function : list Z -> M Q) : M (list Q) :=
  match plan with
  | ShapleyReturn attributions => ret attributions
  | ShapleyRaise e => raise (ExtError e)
  | ShapleyEvaluate subset continue =>
      let* value := set_function subset in
      run_shapley (continue value) set_function
  | ShapleyDraw advance continue =>
      fun w =>
        run_shapley (continue (w_rng w)) set_function
          (mkWorld (advance (w_rng w)) (w_graphs w) (w_mechs w) (w_log w))
  end.

Definition estimate_shapley_values (set_function : list Z -> M Q)
    (num_players : nat) (config : option ShapleyConfig) : M (list Q) :=
  log_event (EvShapley num_players) ;;
  run_shapley (shapley_estimator num_players config) set_function.

(** [np.all(subset == 0)] *)
Definition all_zero (subset : list Z) : bool := forallb (Z.eqb 0) subset.

(** The first loop of the set function: node [i] of the copy receives its
    new mechanism when bit [i] of the coalition is 1, its old one
    otherwise. *)
Definition assign_mechanism (causal_model : GraphHandle) (nodes : list node)
    (old_causal_models new_causal_models : list mech_ref) (subset : list Z)
    (i : nat) : M unit :=
  let* bit := of_option (subset !! i) IndexError in
  let* n := of_option (nodes !! i) IndexError in
  if Z.eqb bit 1 then
    let* m := of_option (new_causal_models !! i) IndexError in
    set_causal_mechanism causal_model n m
  else
    let* m := of_option (old_causal_models !! i) IndexError in
    set_causal_mechanism causal_model n m.

Definition record_parents (causal_model : GraphHandle) (n : node) : M unit :=
  let* parents := get_ordered_predecessors causal_model n in
  set_parents_during_fit causal_model n parents.

Definition attribution_set_function
    (causal_model_old : GraphHandle) (target_node : node) (num_samples : nat)
    (old_causal_models new_causal_models : list mech_ref)
    (target_samples_old : ndarray) (subset : list Z) : M Q :=
  if all_zero subset then ret 0%Q
  else
    let* causal_model := call_graph_factory causal_model_old in
    let* nodes := graph_nodes causal_model in
    let nodes := sorted nodes in
    for_each
      (assign_mechanism causal_model nodes old_causal_models new_causal_models subset)
      (seq 0 (length old_causal_models)) ;;
    let* all_nodes := graph_nodes causal_model in
    for_each (record_parents causal_model) all_nodes ;;
    let* samples := draw_samples causal_model num_samples in
    let* target_samples_new := df_column samples target_node in
    call_difference target_samples_old target_samples_new.

(** [{x: attributions[i] for i, x in enumerate(nodes)}] *)
Definition attributions_dict (nodes : list node) (attributions : list Q)
    : M (gmap node Q) :=
  for_fold
    (fun d ix =>
       let* a := of_option (attributions !! ix.1) IndexError in
       ret (<[ix.2 := a]> (d : gmap node Q)))
    ∅ (imap pair nodes).

Definition _estimate_marginal_distribution_change
    (causal_model_old causal_model_new : GraphHandle) (target_node : node)
    (num_samples : nat) (shapley_config : option ShapleyConfig)
    : M (gmap node Q) :=
  let* nodes_old := graph_nodes causal_model_old in
  let* old_causal_models :=
    for_each (causal_mechanism causal_model_old) (sorted nodes_old) in
  let* nodes_new := graph_nodes causal_model_new in
  let* new_causal_models :=
    for_each (causal_mechanism causal_model_new) (sorted nodes_new) in
  let* samples := draw_samples causal_model_old num_samples in
  let* target_samples_old := df_column samples target_node in
  let* attributions :=
    estimate_shapley_values
      (attribution_set_function causal_model_old target_node num_samples
         old_causal_models new_causal_models target_samples_old)
      (length old_causal_models) shapley_config in
  let* nodes := graph_nodes causal_model_old in
  attributions_dict (sorted nodes) attributions.

(** *** [distribution_change_of_graphs] *)

Definition distribution_change_of_graphs
    (causal_model_old causal_model_new : GraphHandle) (target_node : node)
    (num_samples : nat) (shapley_config : option ShapleyConfig)
    : M (gmap node Q) :=
  validate_causal_dag causal_model_old ;;
  validate_causal_dag causal_model_new ;;
  let* view_old := node_connected_subgraph_view causal_model_old target_node in
  let* view_new := node_connected_subgraph_view causal_model_new target_node in
  _estimate_marginal_distribution_change view_old view_new target_node
    num_samples shapley_config.

(** *** [_estimate_distribution_change_score] *)

(** The contribution of one evaluation row: draws from the original and
    from the refitted mechanism given the replicated row, and their
    difference. *)
Definition row_difference (causal_model_original causal_model_new : mech_ref)
    (num_joint_samples : nat) (joint_parent_sample : list cell) : M Q :=
  let samples := repmat joint_parent_sample num_joint_samples in
  let* drawn_original := mechanism_draw_samples causal_model_original samples in
  let* drawn_new := mechanism_draw_samples causal_model_new samples in
  call_difference drawn_original drawn_new.

(** [for joint_parent_sample in joint_parent_samples: ...] with its
    [break]; the state of the loop is the running sum [result] and the
    number [run] of rows processed. *)
Fixpoint score_loop (causal_model_original causal_model_new : mech_ref)
    (num_joint_samples : nat) (early_stopping_percentage : Q)
    (joint_parent_samples : list (list cell)) (result : Q) (run : nat)
    : M (Q * nat) :=
  match joint_parent_samples with
  | [] => ret (result, run)
  | joint_parent_sample :: rest =>
      let old_result := result in
      let* difference :=
        row_difference causal_model_original causal_model_new num_joint_samples
          joint_parent_sample in
      let result := (result + difference)%Q in
      let run := run + 1 in
      if negb (Qeq_bool old_result 0)
         && Qle_bool (1 - result / old_result) early_stopping_percentage
      then ret (result, run)
      else score_loop causal_model_original causal_model_new num_joint_samples
             early_stopping_percentage rest result run
  end.

(** [result / run] *)
Definition divide_by_runs (result : Q) (run : nat) : M Q :=
  if Nat.eqb run 0 then raise ZeroDivisionError
  else ret (result / inject_Z (Z.of_nat run))%Q.

Definition rows_of (a : ndarray) : list (list cell) := (atleast_2d a).2.

Definition _estimate_distribution_change_score
    (parent_original_data parent_new_data target_new_data : ndarray)
    (causal_model_original : mech_ref)
    (max_num_evaluation_samples num_joint_samples : nat)
    (early_stopping_percentage : Q) : M Q :=
  let parent_original_data := shape_into_2d parent_original_data in
  let parent_new_data := shape_into_2d parent_new_data in
  let target_new_data := shape_into_2d target_new_data in
  let* causal_model_new := mechanism_clone causal_model_original in
  mechanism_fit causal_model_new (mkTrainingSet parent_new_data (Some target_new_data)) ;;
  let* joint_parent_samples := np_vstack parent_original_data parent_new_data in
  let* indices :=
    random_choice (shape0 joint_parent_samples)
      (Nat.min (shape0 joint_parent_samples) max_num_evaluation_samples) in
  let* joint_parent_samples := take_rows joint_parent_samples indices in
  let* state :=
    score_loop causal_model_original causal_model_new num_joint_samples
      early_stopping_percentage (rows_of joint_parent_samples) 0%Q 0 in
  divide_by_runs state.1 state.2.

(** *** [estimate_distribution_change_scores] *)

(** The body of the loop over the nodes: the score of one node. *)
Definition score_node (causal_model : GraphHandle)
    (original_data new_data : DataFrame)
    (max_num_evaluation_samples num_joint_samples : nat)
    (early_stopping_percentage : Q)
    (mechanism_changed_for_node : gmap node bool) (n : node) : M Q :=
  let* changed := of_option (mechanism_changed_for_node !! n) (KeyError n) in
  if (changed : bool) then
    let* root := is_root_node causal_model n in
    if (root : bool) then
      let* target_original := df_column original_data n in
      let* target_new := df_column new_data n in
      call_difference target_original target_new
    else
      let* parent_nodes := get_ordered_predecessors causal_model n in
      let* parent_original_data := df_columns_matrix original_data parent_nodes in
      let* parent_new_data := df_columns_matrix new_data parent_nodes in
      let* target_new_data := df_column new_data n in
      let* mechanism := causal_mechanism causal_model n in
      _estimate_distribution_change_score parent_original_data parent_new_data
        target_new_data mechanism max_num_evaluation_samples num_joint_samples
        early_stopping_percentage
  else ret 0%Q.

Definition estimate_distribution_change_scores (causal_model : GraphHandle)
    (original_data new_data : DataFrame)
    (max_num_evaluation_samples num_joint_samples : nat)
    (early_stopping_percentage : Q)
    (mechanism_change_test_significance_level : Q)
    (mechanism_change_test_fdr_control_method : option string)
    : M (gmap node Q) :=
  validate_causal_dag causal_model ;;
  let* mechanism_changed_for_node :=
    _check_significant_mechanism_change causal_model original_data new_data
      mechanism_change_test_significance_level
      mechanism_change_test_fdr_control_method in
  let* nodes := graph_nodes causal_model in
  for_fold
    (fun results n =>
       let* score :=
         score_node causal_model original_data new_data
           max_num_evaluation_samples num_joint_samples early_stopping_percentage
           mechanism_changed_for_node n in
       ret (<[n := score]> (results : gmap node Q)))
    ∅ nodes.
End DistributionChange.

(** ** The loop of the local scorer on floats

    The functions above compute with the rationals that finite floats
    stand for, which is enough for what is proved of their calls, keys and
    worlds.  Whether the loop of the local scorer stops early depends on
    the values themselves: the running sum, the differences and the
    early-stop percentage are floats.  Besides the finite values a float can be
    [+inf], [-inf] or NaN, and an operation on finite values rounds its
    result.  [xfloat] has these values, a finite one being the rational it
    stands for; [round] stands for the rounding of an exact result to a
    float, which may overflow to an infinity.  The operations are those of
    the loop, with the results that IEEE 754 gives on the special
    values. *)
Inductive xfloat : Type :=
| Finite (q : Q)
| PInf
| NInf
| NaN.

Module IEEE.
Section Loop.
Context {Rng Family ExtExn : Type}.
Local Abbreviation M := (@M Rng Family ExtExn).
Variable round : Q -> xfloat.

(** [a + b] *)
Definition add (a b : xfloat) : xfloat :=
  match a, b with
  | NaN, _ | _, NaN => NaN
  | PInf, NInf | NInf, PInf => NaN
  | PInf, _ | _, PInf => PInf
  | NInf, _ | _, NInf => NInf
  | Finite x, Finite y => round (x + y)
  end.

(** [a - b] *)
Definition sub (a b : xfloat) : xfloat :=
  match a, b with
  | NaN, _ | _, NaN => NaN
  | PInf, PInf | NInf, NInf => NaN
  | PInf, _ | _, NInf => PInf
  | NInf, _ | _, PInf => NInf
  | Finite x, Finite y => round (x - y)
  end.

(** [a / b].  The loop divides by [old_result] only after it has found it
    different from zero, so that the result for a zero divisor is of no
    consequence; it is NaN here. *)
Definition div (a b : xfloat) : xfloat :=
  match a, b with
  | NaN, _ | _, NaN => NaN
  | (PInf | NInf), (PInf | NInf) => NaN
  | Finite _, (PInf | NInf) => Finite 0
  | PInf, Finite y => if Qle_bool 0 y then PInf else NInf
  | NInf, Finite y => if Qle_bool 0 y then NInf else PInf
  | Finite x, Finite y => if Qeq_bool y 0 then NaN else round (x / y)
  end.

(** [a <= b]: false as soon as one of the two is NaN. *)
Definition le (a b : xfloat) : bool :=
  match a, b with
  | NaN, _ | _, NaN => false
  | NInf, _ | _, PInf => true
  | PInf, _ | _, NInf => false
  | Finite x, Finite y => Qle_bool x y
  end.

(** [a != 0]: true of the infinities and of NaN. *)
Definition ne0 (a : xfloat) : bool :=
  match a with
  | Finite x => negb (Qeq_bool x 0)
  | _ => true
  end.

(** [old_result != 0 and (1 - result / old_result) <= early_stopping_percentage] *)
Definition early_stop (early_stopping_percentage old_result result : xfloat)
    : bool :=
  ne0 old_result
  && le (sub (Finite 1) (div result old_result)) early_stopping_percentage.

Variable mechanism_sampler : Mechanism Family -> ndarray -> Rng -> ndarray * Rng.
Variable difference_estimation_func : ndarray -> ndarray -> xfloat.

Definition call_difference (a b : ndarray) : M xfloat :=
  log_event (EvDifference a b) ;;
  ret (difference_estimation_func a b).

Definition row_difference (causal_model_original causal_model_new : mech_ref)
    (num_joint_samples : nat) (joint_parent_sample : list cell) : M xfloat :=
  let samples := repmat joint_parent_sample num_joint_samples in
  let* drawn_original :=
    mechanism_draw_samples mechanism_sampler causal_model_original samples in
  let* drawn_new :=
    mechanism_draw_samples mechanism_sampler causal_model_new samples in
  call_difference drawn_original drawn_new.

(** The loop of [_estimate_distribution_change_score], started with
    [result = 0] and [run = 0]. *)
Fixpoint score_loop (causal_model_original causal_model_new : mech_ref)
    (num_joint_samples : nat) (early_stopping_percentage : xfloat)
    (joint_parent_samples : list (list cell)) (result : xfloat) (run : nat)
    : M (xfloat * nat) :=
  match joint_parent_samples with
  | [] => ret (result, run)
  | joint_parent_sample :: rest =>
      let old_result := result in
      let* difference :=
        row_difference causal_model_original causal_model_new num_joint_samples
          joint_parent_sample in
      let result := add result difference in
      let run := run + 1 in
      if early_stop early_stopping_percentage old_result result
      then ret (result, run)
      else score_loop causal_model_original causal_model_new num_joint_samples
             early_stopping_percentage rest result run
  end.
End Loop.
End IEEE.

(** [q] is a float under the rounding [round]: rounding does not cross it.
    An exact result that is at least [q] rounds to a float that is at least
    [q], possibly to [+inf]; one that is at most [q] rounds to a float that
    is at most [q], possibly to [-inf].  Rounding to nearest is monotone and
    leaves a float as it is, so that every float is such a value. *)
Definition float_value (round : Q -> xfloat) (q : Q) : Prop :=
  (forall x, (q <= x)%Q ->
     match round x with
     | Finite y => (q <= y)%Q
     | PInf => True
     | _ => False
     end)
  /\ (forall x, (x <= q)%Q ->
        match round x with
        | Finite y => (y <= q)%Q
        | NInf => True
        | _ => False
        end).

(** A float that is not negative: a finite one that is at least zero, or
    [+inf]. *)
Definition nonnegative_float (round : Q -> xfloat) (v : xfloat) : Prop :=
  match v with
  | Finite q => (0 <= q)%Q /\ float_value round q
  | PInf => True
  | _ => False
  end.

(** The calls of the difference estimator that a log records. *)
Definition difference_calls (events : list Event) : list (ndarray * ndarray) :=
  omap (fun ev =>
          match ev with
          | EvDifference a b => Some (a, b)
          | _ => None
          end) events.

(** ** Vocabulary of the properties *)

(** Row [i] of an array once it is shaped into two dimensions. *)
Definition row_2d (a : ndarray) (i : nat) : option (list cell) :=
  match a with
  | Arr1 xs => (fun x => [x]) <$> xs !! i
  | Arr2 _ rows => rows !! i
  end.

(** The number of columns of an array once it is shaped into two
    dimensions. *)
Definition ncols_2d (a : ndarray) : nat :=
  match a with
  | Arr1 _ => 1
  | Arr2 c _ => c
  end.

(** [rows] has [2 n] rows: the rows of [a] at the indices [oi], followed
    from position [n] on by the rows of [b] at the indices [ni]. *)
Definition stacked (n : nat) (a b : ndarray) (oi ni : list nat)
    (rows : list (list cell)) : Prop :=
  length rows = 2 * n
  /\ (forall j i, oi !! j = Some i -> rows !! j = row_2d a i)
  /\ (forall j i, ni !! j = Some i -> rows !! (n + j) = row_2d b i).

(** The early-stopping condition of the local scorer after a row: the
    running sum before the row was not zero, and the relative change of the
    running sum is at most the early-stop percentage. *)
Definition early_stop (early_stopping_percentage old_result result : Q) : Prop :=
  ~ (old_result == 0)%Q
  /\ (1 - result / old_result <= early_stopping_percentage)%Q.

(** The values that the difference estimator returned in a stretch of the
    log, in the order of the calls. *)
Definition differences (difference_estimation_func : ndarray -> ndarray -> Q)
    (events : list Event) : list Q :=
  omap (fun ev =>
          match ev with
          | EvDifference a b => Some (difference_estimation_func a b)
          | _ => None
          end) events.

(** What a run has added to the log. *)
Definition log_since {Rng Family} (w w' : World Rng Family) : list Event :=
  drop (length (w_log w)) (w_log w').

(** What numpy promises of [np.random.choice(population, size,
    replace=False)] when [size <= population]: [size] distinct indices below
    [population]. *)
Definition choice_contract {Rng} (choice : nat -> nat -> Rng -> list nat * Rng) : Prop :=
  forall population size r,
    size <= population ->
    length (choice population size r).1 = size
    /\ NoDup (choice population size r).1
    /\ Forall (fun i => i < population) (choice population size r).1.

(** Judgements on computations and relations on worlds, used to state and
    prove the properties. *)

(** The mechanism that the set function gives to node [i] of the sorted
    nodes for a coalition: the new one when bit [i] is 1, the old one
    otherwise. *)
Definition hybrid_mechanism (old_causal_models new_causal_models : list mech_ref)
    (subset : list Z) (i : nat) : option mech_ref :=
  match subset !! i with
  | Some bit =>
      if Z.eqb bit 1 then new_causal_models !! i else old_causal_models !! i
  | None => None
  end.

(** The attributes of a node as [graph.nodes[node]] gives them. *)
Definition attrs_of (g : Graph) (n : node) : NodeAttrs :=
  default (mkNodeAttrs None None) (g_attrs g !! n).

(** An event of a run of the Shapley estimator against the baseline
    [baseline] with [num_samples] samples: the difference estimator is
    called with the baseline as its first argument, and samples are drawn
    [num_samples] at a time. *)
Definition against_baseline (baseline : ndarray) (num_samples : nat) (e : Event)
    : Prop :=
  match e with
  | EvDifference a _ => a = baseline
  | EvDrawSamples _ n => n = num_samples
  | _ => True
  end.

Section Vocabulary.
Context {Rng Family ExtExn : Type}.
Local Abbreviation M := (@M Rng Family ExtExn).
Local Abbreviation World := (World Rng Family).
Local Abbreviation causal_mechanism := (@causal_mechanism Rng Family ExtExn).
Local Abbreviation training_set := (@training_set Rng Family ExtExn).

(** [raises_only P c]: whatever [c] raises satisfies [P]. *)
Definition raises_only {A} (P : exn ExtExn -> Prop) (c : M A) : Prop :=
forall w e w', c w = (Raise e, w') -> P e.

(** [preserves R c]: every run of [c] takes a world to an [R]-related
  one.  [RngStable R]: [R] is a preorder that ignores the random state.
  [Stable R]: it also ignores additions to the log, so every computation
  that only reads the object store preserves it. *)
Definition preserves {A} (R : relation World) (c : M A) : Prop :=
forall w, R w (c w).2.

Class RngStable (R : relation World) : Prop := {
rng_stable_preorder :: PreOrder R;
rng_stable : forall w r,
  R w (mkWorld r (w_graphs w) (w_mechs w) (w_log w))
}.

Class Stable (R : relation World) : Prop := {
stable_rng_stable :: RngStable R;
stable_log : forall w e,
  R w (mkWorld (w_rng w) (w_graphs w) (w_mechs w) (w_log w ++ [e]))
}.

(** The log only grows. *)
Definition log_grows (w w' : World) : Prop :=
exists later, w_log w' = w_log w ++ later.

(** An exception of the parent-data validation of the tester. *)
Definition parents_validation_error (e : exn ExtExn) : Prop :=
e = ValueError original_parents_without_new
\/ e = ValueError new_parents_without_original.

(** The object store is left as it is. *)
Definition same_store (w w' : World) : Prop :=
w_graphs w' = w_graphs w /\ w_mechs w' = w_mechs w.

(** Only the graph object [r] may differ; the random state, the mechanisms
  and the log are the same. *)
Definition touches_graph (r : graph_ref) (w w' : World) : Prop :=
w_rng w' = w_rng w /\ w_mechs w' = w_mechs w /\ w_log w' = w_log w
/\ forall r', r' <> r -> w_graphs w' !! r' = w_graphs w !! r'.

(** Every graph object other than [r], and every mechanism, is the same. *)
Definition outside_graph (r : graph_ref) (w w' : World) : Prop :=
w_mechs w' = w_mechs w
/\ forall r', r' <> r -> w_graphs w' !! r' = w_graphs w !! r'.

(** Every graph object and every mechanism that exists is the same; new
  graph objects may have appeared. *)
Definition extends (w w' : World) : Prop :=
w_mechs w' = w_mechs w
/\ forall r g, w_graphs w !! r = Some g -> w_graphs w' !! r = Some g.

Definition early_stop_b (pct old_result result : Q) : bool :=
negb (Qeq_bool old_result 0) && Qle_bool (1 - result / old_result) pct.

(** The events added to the log all satisfy [P]. *)
Definition logs_only (P : Event -> Prop) (w w' : World) : Prop :=
exists later, w_log w' = w_log w ++ later /\ Forall P later.

Definition not_a_fit (e : Event) : Prop :=
match e with
| EvFit _ _ => False
| _ => True
end.

(** [graph_reader c]: the computation reads the graph store only and
  changes nothing. *)
Definition graph_reader {A} (c : M A) : Prop :=
forall w w' : World, w_graphs w' = w_graphs w -> c w' = ((c w).1, w').

(** In world [w] the mechanism of node [n] in [model] holds the fit on the
  columns that [n] has in [data]. *)
Definition fitted_on (model : GraphHandle) (n : node) (data : DataFrame)
  (w : World) : Prop :=
exists m training mech,
  (causal_mechanism model n w).1 = Ok m
  /\ (training_set model n data w).1 = Ok training
  /\ w_mechs w !! m = Some mech
  /\ mech_fitted_on mech = Some training.

(** Between [w] and [w'] the mechanism of node [n] in [model] was fitted on
  nothing but the columns that [n] has in [data]. *)
Definition only_fitted_on (model : GraphHandle) (n : node) (data : DataFrame)
  (w w' : World) : Prop :=
forall m training,
  (causal_mechanism model n w').1 = Ok m ->
  EvFit m training ∈ log_since w w' ->
  (training_set model n data w').1 = Ok training.

(** No mechanism object is shared: not by two nodes of a model, and not by
  the two models. *)
Definition unshared (old new : GraphHandle) (nodes : list node) (w : World) : Prop :=
(forall n1 n2 m, n1 ∈ nodes -> n2 ∈ nodes ->
    (causal_mechanism old n1 w).1 = Ok m ->
    (causal_mechanism old n2 w).1 = Ok m -> n1 = n2)
/\ (forall n1 n2 m, n1 ∈ nodes -> n2 ∈ nodes ->
    (causal_mechanism new n1 w).1 = Ok m ->
    (causal_mechanism new n2 w).1 = Ok m -> n1 = n2)
/\ (forall n1 n2 m, n1 ∈ nodes -> n2 ∈ nodes ->
    (causal_mechanism old n1 w).1 = Ok m ->
    (causal_mechanism new n2 w).1 = Ok m -> False).

(** The data a node is refitted on: its own regime's when its mechanism
  has changed, the pooled data otherwise. *)
Definition refit_data (old_data new_data : DataFrame) (changed : bool)
  (own : DataFrame) : DataFrame :=
if changed then own else pd_concat old_data new_data.

Definition node_fit (old new : GraphHandle) (old_data new_data : DataFrame)
  (flags : gmap node bool) (w0 : World) (n : node) (e : Event) : Prop :=
exists changed m training,
  flags !! n = Some changed /\ e = EvFit m training
  /\ (((causal_mechanism old n w0).1 = Ok m
       /\ (training_set old n (refit_data old_data new_data changed old_data) w0).1 = Ok training)
      \/ ((causal_mechanism new n w0).1 = Ok m
          /\ (training_set new n (refit_data old_data new_data changed new_data) w0).1
             = Ok training)).

Definition node_refitted (old new : GraphHandle) (old_data new_data : DataFrame)
  (flags : gmap node bool) (n : node) (w : World) : Prop :=
exists changed,
  flags !! n = Some changed
  /\ fitted_on old n (refit_data old_data new_data changed old_data) w
  /\ fitted_on new n (refit_data old_data new_data changed new_data) w.

(** The graph objects are left as they are. *)
Definition same_graphs (w w' : World) : Prop := w_graphs w' = w_graphs w.

(** Every graph object and every mechanism object that exists is the same;
    new objects may have appeared. *)
Definition keeps_objects (w w' : World) : Prop :=
  (forall r g, w_graphs w !! r = Some g -> w_graphs w' !! r = Some g)
  /\ (forall m mech, w_mechs w !! m = Some mech -> w_mechs w' !! m = Some mech).

(** Every graph object, and every mechanism object other than [r], is the
    same. *)
Definition outside_mechanism (r : mech_ref) (w w' : World) : Prop :=
  w_graphs w' = w_graphs w
  /\ forall m, m <> r -> w_mechs w' !! m = w_mechs w !! m.

(** A request for indices is within what numpy's sampling without
    replacement accepts: no more indices than the population has. *)
Definition choice_within_population (e : Event) : Prop :=
  match e with
  | EvChoice population size => size <= population
  | _ => True
  end.

(** The graphs are the same, and so are the mechanism objects up to what
    they are fitted on. *)
Definition refits_only (w w' : World) : Prop :=
  w_graphs w' = w_graphs w
  /\ forall m,
       mech_family <$> (w_mechs w' !! m) = mech_family <$> (w_mechs w !! m).

End Vocabulary.

(** ** Concrete collaborators

    A small deterministic instance of every collaborator, on which the
    definitions above can be run. *)

Module Demo.
(** The random state is a counter; a draw of [size] indices out of
  [population] returns the last ones in decreasing order. *)
Definition choice (population size : nat) (r : nat) : list nat * nat :=
(rev (seq (population - size) size), S r).

Definition indep (X : ndarray) (labels : list string) (r : nat)
  : (string + Q) * nat :=
(inr (1 # 100)%Q, S r).

Definition cond_indep (X : ndarray) (labels : list string) (Z : ndarray) (r : nat)
  : (string + Q) * nat :=
(inr (1 # 2)%Q, S r).

(** A test that raises. *)
Definition failing_indep (X : ndarray) (labels : list string) (r : nat)
  : (string + Q) * nat :=
(inl "singular kernel matrix", S r).

(** A correction that rejects what is at most the level. *)
Definition multipletests (pvals : list Q) (alpha : Q) (method : string)
  : string + list bool :=
inr ((fun p => Qle_bool p alpha) <$> pvals).

Definition validate_dag (g : Graph) : option string := None.

(** A graph factory that copies nodes, edges and attributes. *)
Definition graph_factory (g : Graph) : Graph := g.

Definition mechanism_sampler (mech : Mechanism unit) (parents : ndarray) (r : nat)
  : ndarray * nat :=
(Arr1 (replicate (shape0 parents) (Some (inject_Z (Z.of_nat r)))), S r).

Definition row (x y : Q) : gmap node Q := <["Y" := y]> (<["X" := x]> ∅).

Definition forward_sampler (g : Graph) (mechs : gmap mech_ref (Mechanism unit))
  (n : nat) (r : nat) : (string + DataFrame) * nat :=
(inr (mkDataFrame ["X"; "Y"] (replicate n (row 1 (inject_Z (Z.of_nat r))))), S r).

(** The difference estimator: the constant 1. *)
Definition difference (a b : ndarray) : Q := 1%Q.

(** A Shapley estimator for two players: it evaluates the empty and the full
  coalition and gives each player half of the difference. *)
Definition shapley_estimator (players : nat) (config : option unit)
  : ShapleyPlan nat string :=
ShapleyEvaluate [0; 0]%Z (fun v0 =>
  ShapleyEvaluate [1; 1]%Z (fun v1 =>
    ShapleyReturn [((v1 - v0) / 2)%Q; ((v1 - v0) / 2)%Q])).

Definition world : World nat unit := mkWorld 0 ∅ ∅ [].

Definition target_old : ndarray := Arr1 [Some 1%Q; Some 2%Q; Some 3%Q].
Definition target_new : ndarray := Arr1 [Some 5%Q; Some 7%Q].
Definition parents_old : ndarray :=
Arr2 2 [[Some 1%Q; Some 0%Q]; [Some 2%Q; Some 0%Q]; [Some 3%Q; Some 1%Q]].
Definition parents_new : ndarray :=
Arr2 2 [[Some 5%Q; Some 1%Q]; [Some 7%Q; Some 1%Q]].

(** The graph [X -> Y] twice, as the old and the new model, each node with a
  mechanism object of its own. *)
Definition graph_old : Graph :=
mkGraph ["X"; "Y"] [("X", "Y")]
  (<["Y" := mkNodeAttrs (Some 1) (Some ["X"])]>
     (<["X" := mkNodeAttrs (Some 0) (Some [])]> ∅)).
Definition graph_new : Graph :=
mkGraph ["X"; "Y"] [("X", "Y")]
  (<["Y" := mkNodeAttrs (Some 3) (Some ["X"])]>
     (<["X" := mkNodeAttrs (Some 2) (Some [])]> ∅)).
Definition unfitted : Mechanism unit := mkMechanism tt None.
Definition models : World nat unit :=
mkWorld 0 (<[1 := graph_new]> (<[0 := graph_old]> ∅))
  (<[3 := unfitted]> (<[2 := unfitted]> (<[1 := unfitted]> (<[0 := unfitted]> ∅))))
  [].
Definition model_old : GraphHandle := mkHandle 0 None.
Definition model_new : GraphHandle := mkHandle 1 None.

Definition old_data : DataFrame :=
mkDataFrame ["X"; "Y"] [row 1 2; row 2 4; row 3 6].
Definition new_data : DataFrame :=
mkDataFrame ["X"; "Y"] [row 1 3; row 2 5].

(** A graph without nodes, and a graph with the single node [X]. *)
Definition no_nodes : World nat unit :=
mkWorld 0 (<[0 := mkGraph [] [] ∅]> ∅) ∅ [].
Definition one_node : World nat unit :=
mkWorld 0
  (<[0 := mkGraph ["X"] [] (<["X" := mkNodeAttrs (Some 0) (Some [])]> ∅)]> ∅)
  (<[0 := unfitted]> ∅) [].

(** The functions of the module at these collaborators. *)
Definition nodes_of := @graph_nodes nat unit string.
Definition mechanism_of := @causal_mechanism nat unit string.
Definition fitted := @fitted_on nat unit string.
Definition tester := @mechanism_change_test nat unit string choice indep cond_indep.
Definition screener :=
@_check_significant_mechanism_change nat unit string choice indep cond_indep
  multipletests.
Definition failing_screener :=
@_check_significant_mechanism_change nat unit string choice failing_indep
  cond_indep multipletests.
Definition p_value := @node_p_value nat unit string choice indep cond_indep.
Definition failing_p_value :=
@node_p_value nat unit string choice failing_indep cond_indep.
Definition refit :=
@_fit_accounting_for_mechanism_change nat unit string choice indep cond_indep
  multipletests.
Definition set_function :=
@attribution_set_function nat unit string graph_factory forward_sampler difference.
Definition attribute :=
@distribution_change_of_graphs nat unit string validate_dag graph_factory
  forward_sampler difference unit shapley_estimator.
Definition local_score :=
@_estimate_distribution_change_score nat unit string choice mechanism_sampler
  difference.
Definition loop := @score_loop nat unit string mechanism_sampler difference.
Definition contribution := @row_difference nat unit string mechanism_sampler difference.
Definition scores :=
@estimate_distribution_change_scores nat unit string choice indep cond_indep
  validate_dag mechanism_sampler multipletests difference.

(** An estimator that sees no difference. *)
Definition no_difference (a b : ndarray) : Q := 0%Q.
Definition unchanged_score :=
@_estimate_distribution_change_score nat unit string choice mechanism_sampler
  no_difference.

(** The new model with a node [Z] that the old model does not have. *)
Definition graph_new_extra : Graph :=
mkGraph ["X"; "Z"; "Y"] [("X", "Y")]
  (<["Z" := mkNodeAttrs (Some 4) (Some [])]>
     (<["Y" := mkNodeAttrs (Some 3) (Some ["X"])]>
        (<["X" := mkNodeAttrs (Some 2) (Some [])]> ∅))).
Definition models_extra : World nat unit :=
mkWorld 0 (<[1 := graph_new_extra]> (<[0 := graph_old]> ∅))
  (<[4 := unfitted]>
     (<[3 := unfitted]> (<[2 := unfitted]> (<[1 := unfitted]> (<[0 := unfitted]> ∅)))))
  [].

Definition predecessors_of := @get_ordered_predecessors nat unit string.
Definition graph_of := @read_graph nat unit string.
Definition marginal :=
@_estimate_marginal_distribution_change nat unit string graph_factory
  forward_sampler difference unit shapley_estimator.
Definition refit_one := @refit_node nat unit string.

(** A validation that rejects a graph with an edge from a node to itself. *)
Definition acyclic_validate_dag (g : Graph) : option string :=
if existsb (fun e => String.eqb e.1 e.2) (g_edges g)
then Some "the graph has a cycle" else None.
Definition graph_loop : Graph :=
mkGraph ["X"] [("X", "X")] (<["X" := mkNodeAttrs (Some 0) (Some ["X"])]> ∅).
Definition looped : World nat unit :=
mkWorld 0 (<[0 := graph_loop]> ∅) (<[0 := unfitted]> ∅) [].
Definition strict_attribute :=
@distribution_change_of_graphs nat unit string acyclic_validate_dag graph_factory
  forward_sampler difference unit shapley_estimator.
Definition sample := @draw_samples nat unit string forward_sampler.

(** A correction that, like a division by the number of tests, fails on an
  empty vector of p-values. *)
Definition strict_multipletests (pvals : list Q) (alpha : Q) (method : string)
  : string + list bool :=
match pvals with
| [] => inl "float division by zero"
| _ => inr ((fun p => Qle_bool p alpha) <$> pvals)
end.
Definition strict_screener :=
@_check_significant_mechanism_change nat unit string choice indep cond_indep
  strict_multipletests.

(** Floats without rounding error, an estimator that returns the float 1,
  and one whose first answer is [+inf]: it is asked first about the draw
  made in random state 0. *)
Definition exact (q : Q) : xfloat := Finite q.
Definition float_difference (a b : ndarray) : xfloat := Finite 1.
Definition overflowing_difference (a b : ndarray) : xfloat :=
match a with
| Arr1 (Some x :: _) => if Qeq_bool x 0 then PInf else Finite 1
| _ => Finite 1
end.
Definition float_loop :=
@IEEE.score_loop nat unit string exact mechanism_sampler float_difference.
Definition float_contribution :=
@IEEE.row_difference nat unit string mechanism_sampler float_difference.
Definition overflowing_loop :=
@IEEE.score_loop nat unit string exact mechanism_sampler overflowing_difference.
Definition overflowing_contribution :=
@IEEE.row_difference nat unit string mechanism_sampler overflowing_difference.
End Demo.

(** ** Properties *)

Section Properties.
Context {Rng Family ExtExn ShapleyConfig : Type}.
Local Abbreviation M := (@M Rng Family ExtExn).
Local Abbreviation World := (World Rng Family).

Variable np_random_choice : nat -> nat -> Rng -> list nat * Rng.
Variable independence_test :
  ndarray -> list string -> Rng -> (ExtExn + Q) * Rng.
Variable conditional_independence_test :
  ndarray -> list string -> ndarray -> Rng -> (ExtExn + Q) * Rng.
Variable validate_dag : Graph -> option ExtExn.
Variable graph_factory : Graph -> Graph.
Variable mechanism_sampler : Mechanism Family -> ndarray -> Rng -> ndarray * Rng.
Variable forward_sampler :
  Graph -> gmap mech_ref (Mechanism Family) -> nat -> Rng -> (ExtExn + DataFrame) * Rng.
Variable multipletests : list Q -> Q -> string -> ExtExn + list bool.
Variable difference_estimation_func : ndarray -> ndarray -> Q.
Variable shapley_estimator : nat -> option ShapleyConfig -> ShapleyPlan Rng ExtExn.

(** The functions of the module at these collaborators. *)
Local Abbreviation raises_only P c := (@raises_only Rng Family ExtExn _ P c).
Local Abbreviation preserves R c := (@preserves Rng Family ExtExn _ R c).
Local Abbreviation graph_reader c := (@graph_reader Rng Family ExtExn _ c).
Local Abbreviation Stable := (@Stable Rng Family).
Local Abbreviation RngStable := (@RngStable Rng Family).
Local Abbreviation log_grows := (@log_grows Rng Family).
Local Abbreviation same_store := (@same_store Rng Family).
Local Abbreviation same_graphs := (@same_graphs Rng Family).
Local Abbreviation touches_graph := (@touches_graph Rng Family).
Local Abbreviation outside_graph := (@outside_graph Rng Family).
Local Abbreviation extends := (@extends Rng Family).
Local Abbreviation logs_only := (@logs_only Rng Family).
Local Abbreviation keeps_objects := (@keeps_objects Rng Family).
Local Abbreviation outside_mechanism := (@outside_mechanism Rng Family).
Local Abbreviation refits_only := (@refits_only Rng Family).
Local Abbreviation fitted_on := (@fitted_on Rng Family ExtExn).
Local Abbreviation only_fitted_on := (@only_fitted_on Rng Family ExtExn).
Local Abbreviation unshared := (@unshared Rng Family ExtExn).
Local Abbreviation node_fit := (@node_fit Rng Family ExtExn).
Local Abbreviation node_refitted := (@node_refitted Rng Family ExtExn).
Local Abbreviation parents_validation_error := (@parents_validation_error ExtExn).
Local Abbreviation read_graph := (@read_graph Rng Family ExtExn).
Local Abbreviation graph_nodes := (@graph_nodes Rng Family ExtExn).
Local Abbreviation get_ordered_predecessors := (@get_ordered_predecessors Rng Family ExtExn).
Local Abbreviation is_root_node := (@is_root_node Rng Family ExtExn).
Local Abbreviation node_attrs := (@node_attrs Rng Family ExtExn).
Local Abbreviation update_node_attrs := (@update_node_attrs Rng Family ExtExn).
Local Abbreviation causal_mechanism := (@causal_mechanism Rng Family ExtExn).
Local Abbreviation set_causal_mechanism := (@set_causal_mechanism Rng Family ExtExn).
Local Abbreviation set_parents_during_fit := (@set_parents_during_fit Rng Family ExtExn).
Local Abbreviation node_connected_subgraph_view := (@node_connected_subgraph_view Rng Family ExtExn).
Local Abbreviation read_mechanism := (@read_mechanism Rng Family ExtExn).
Local Abbreviation mechanism_fit := (@mechanism_fit Rng Family ExtExn).
Local Abbreviation mechanism_clone := (@mechanism_clone Rng Family ExtExn).
Local Abbreviation training_set := (@training_set Rng Family ExtExn).
Local Abbreviation fit_causal_model_of_target := (@fit_causal_model_of_target Rng Family ExtExn).
Local Abbreviation refit_node := (@refit_node Rng Family ExtExn).
Local Abbreviation run_shapley := (@run_shapley Rng Family ExtExn).
Local Abbreviation assign_mechanism := (@assign_mechanism Rng Family ExtExn).
Local Abbreviation record_parents := (@record_parents Rng Family ExtExn).
Local Abbreviation attributions_dict := (@attributions_dict Rng Family ExtExn).
Local Abbreviation divide_by_runs := (@divide_by_runs Rng Family ExtExn).
Local Abbreviation take_rows := (@take_rows Rng Family ExtExn).
Local Abbreviation np_vstack := (@np_vstack Rng Family ExtExn).
Local Abbreviation df_column := (@df_column Rng Family ExtExn).
Local Abbreviation df_columns_matrix := (@df_columns_matrix Rng Family ExtExn).
Local Abbreviation random_choice :=
  (@random_choice Rng Family ExtExn np_random_choice).
Local Abbreviation call_independence_test :=
  (@call_independence_test Rng Family ExtExn independence_test).
Local Abbreviation call_conditional_independence_test :=
  (@call_conditional_independence_test Rng Family ExtExn conditional_independence_test).
Local Abbreviation mechanism_change_test :=
  (@mechanism_change_test Rng Family ExtExn np_random_choice independence_test conditional_independence_test).
Local Abbreviation validate_causal_dag :=
  (@validate_causal_dag Rng Family ExtExn validate_dag).
Local Abbreviation call_graph_factory :=
  (@call_graph_factory Rng Family ExtExn graph_factory).
Local Abbreviation mechanism_draw_samples :=
  (@mechanism_draw_samples Rng Family ExtExn mechanism_sampler).
Local Abbreviation draw_samples :=
  (@draw_samples Rng Family ExtExn forward_sampler).
Local Abbreviation call_multipletests :=
  (@call_multipletests Rng Family ExtExn multipletests).
Local Abbreviation node_p_value :=
  (@node_p_value Rng Family ExtExn np_random_choice independence_test conditional_independence_test).
Local Abbreviation _check_significant_mechanism_change :=
  (@_check_significant_mechanism_change Rng Family ExtExn np_random_choice independence_test conditional_independence_test multipletests).
Local Abbreviation _fit_accounting_for_mechanism_change :=
  (@_fit_accounting_for_mechanism_change Rng Family ExtExn np_random_choice independence_test conditional_independence_test multipletests).
Local Abbreviation call_difference :=
  (@call_difference Rng Family ExtExn difference_estimation_func).
Local Abbreviation attribution_set_function :=
  (@attribution_set_function Rng Family ExtExn graph_factory forward_sampler difference_estimation_func).
Local Abbreviation score_loop :=
  (@score_loop Rng Family ExtExn mechanism_sampler difference_estimation_func).
Local Abbreviation _estimate_distribution_change_score :=
  (@_estimate_distribution_change_score Rng Family ExtExn np_random_choice mechanism_sampler difference_estimation_func).
Local Abbreviation score_node :=
  (@score_node Rng Family ExtExn np_random_choice mechanism_sampler difference_estimation_func).
Local Abbreviation estimate_distribution_change_scores :=
  (@estimate_distribution_change_scores Rng Family ExtExn np_random_choice
     independence_test conditional_independence_test validate_dag
     mechanism_sampler multipletests difference_estimation_func).
Local Abbreviation row_difference :=
  (@row_difference Rng Family ExtExn mechanism_sampler difference_estimation_func).
Local Abbreviation differences := (differences difference_estimation_func).
Local Abbreviation estimate_shapley_values :=
  (@estimate_shapley_values Rng Family ExtExn ShapleyConfig shapley_estimator).
Local Abbreviation _estimate_marginal_distribution_change :=
  (@_estimate_marginal_distribution_change Rng Family ExtExn graph_factory
     forward_sampler difference_estimation_func ShapleyConfig shapley_estimator).
Local Abbreviation distribution_change_of_graphs :=
  (@distribution_change_of_graphs Rng Family ExtExn validate_dag graph_factory
     forward_sampler difference_estimation_func ShapleyConfig shapley_estimator).

(** *** Generic facts about computations *)

Lemma bind_ok {A B} (c : M A) (k : A -> M B) w a w' :
  c w = (Ok a, w') -> bind c k w = k a w'.
Proof. intros H. unfold bind. now rewrite H. Qed.

Lemma bind_raise {A B} (c : M A) (k : A -> M B) w e w' :
  c w = (Raise e, w') -> bind c k w = (Raise e, w').
Proof. intros H. unfold bind. now rewrite H. Qed.

Lemma raises_only_ret {A} P (a : A) : raises_only P (ret a).
Proof. intros w e w' H. discriminate H. Qed.

Lemma raises_only_raise {A} (P : exn ExtExn -> Prop) e :
  P e -> raises_only P (raise e : M A).
Proof. intros He w e' w' H. unfold raise in H. congruence. Qed.

Lemma raises_only_bind {A B} P (c : M A) (k : A -> M B) :
  raises_only P c -> (forall a, raises_only P (k a)) ->
  raises_only P (bind c k).
Proof.
  intros Hc Hk w e w' H. unfold bind in H.
  destruct (c w) as [[a|e0] w0] eqn:E.
  - eapply Hk, H.
  - inversion H; subst. eapply Hc, E.
Qed.

Lemma raises_only_of_option {A} (P : exn ExtExn -> Prop) (o : option A) e :
  P e -> raises_only P (of_option o e).
Proof.
  intros He. destruct o; [apply raises_only_ret | now apply raises_only_raise].
Qed.

Lemma raises_only_log P ev : raises_only P (log_event ev).
Proof. intros w e w' H. discriminate H. Qed.

Lemma raises_only_with_rng {A} P (f : Rng -> A * Rng) :
  raises_only P (with_rng f).
Proof.
  intros w e w' H. unfold with_rng in H. destruct (f (w_rng w)). discriminate H.
Qed.

Lemma raises_only_of_collaborator {A} (P : exn ExtExn -> Prop)
    (f : Rng -> (ExtExn + A) * Rng) :
  (forall e, P (ExtError e)) -> raises_only P (of_collaborator f).
Proof.
  intros HP w e w' H. unfold of_collaborator, with_rng_result in H.
  destruct (f (w_rng w)) as [[x|a] r]; inversion H; subst. apply HP.
Qed.

Lemma raises_only_take_rows (P : exn ExtExn -> Prop) a idx :
  P IndexError -> raises_only P (take_rows a idx).
Proof.
  intros HP. destruct a; simpl; now apply raises_only_of_option.
Qed.

Lemma raises_only_np_vstack (P : exn ExtExn -> Prop) a b :
  (forall msg, msg <> original_parents_without_new ->
               msg <> new_parents_without_original -> P (ValueError msg)) ->
  raises_only P (np_vstack a b).
Proof.
  intros HP. unfold np_vstack.
  destruct (atleast_2d a), (atleast_2d b).
  destruct (Nat.eqb _ _); [apply raises_only_ret|].
  apply raises_only_raise, HP; discriminate.
Qed.

Section Preserves.
Context (R : relation World) `{!PreOrder R}.

Lemma preserves_ret {A} (a : A) : preserves R (ret a).
Proof. intros w. simpl. reflexivity. Qed.

Lemma preserves_raise {A} e : preserves R (raise e : M A).
Proof. intros w. simpl. reflexivity. Qed.

Lemma preserves_bind {A B} (c : M A) (k : A -> M B) :
  preserves R c -> (forall a, preserves R (k a)) -> preserves R (bind c k).
Proof.
  intros Hc Hk w. unfold bind. specialize (Hc w).
  destruct (c w) as [[a|e] w0]; simpl in *; [|exact Hc].
  etransitivity; [exact Hc | apply Hk].
Qed.

Lemma preserves_of_option {A} (o : option A) e : preserves R (of_option o e).
Proof. destruct o; [apply preserves_ret | apply preserves_raise]. Qed.

Lemma preserves_of_result {A} (r : Result ExtExn A) : preserves R (of_result r).
Proof. intros w. simpl. reflexivity. Qed.

Lemma preserves_for_each {A B} (body : A -> M B) xs :
  (forall x, preserves R (body x)) -> preserves R (for_each body xs).
Proof.
  intros Hb. induction xs as [|x xs IH]; simpl.
  - apply preserves_ret.
  - apply preserves_bind; [apply Hb|]. intros b.
    apply preserves_bind; [apply IH|]. intros bs. apply preserves_ret.
Qed.

Lemma preserves_for_fold {A S} (body : S -> A -> M S) xs acc :
  (forall s x, preserves R (body s x)) -> preserves R (for_fold body acc xs).
Proof.
  intros Hb. revert acc. induction xs as [|x xs IH]; intros acc; simpl.
  - apply preserves_ret.
  - apply preserves_bind; [apply Hb|]. intros s. apply IH.
Qed.

Lemma preserves_take_rows a idx : preserves R (take_rows a idx).
Proof. destruct a; apply preserves_of_option. Qed.

Lemma preserves_np_vstack a b : preserves R (np_vstack a b).
Proof.
  unfold np_vstack. destruct (atleast_2d a), (atleast_2d b).
  destruct (Nat.eqb _ _); [apply preserves_ret | apply preserves_raise].
Qed.

Lemma preserves_df_column df c : preserves R (df_column df c).
Proof.
  unfold df_column. destruct (bool_decide _);
    [apply preserves_ret | apply preserves_raise].
Qed.

Lemma preserves_df_columns_matrix df cs : preserves R (df_columns_matrix df cs).
Proof.
  unfold df_columns_matrix. destruct (filter _ cs);
    [apply preserves_ret | apply preserves_raise].
Qed.

Lemma preserves_read_graph h : preserves R (read_graph h).
Proof.
  intros w. unfold read_graph. destruct (w_graphs w !! h_ref h); simpl; reflexivity.
Qed.

Lemma preserves_read_mechanism m : preserves R (read_mechanism m).
Proof.
  intros w. unfold read_mechanism. destruct (w_mechs w !! m); simpl; reflexivity.
Qed.
End Preserves.

Section PreservesRngStable.
Context (R : relation World) `{!RngStable R}.

Lemma preserves_with_rng {A} (f : Rng -> A * Rng) : preserves R (with_rng f).
Proof. intros w. unfold with_rng. destruct (f (w_rng w)). apply rng_stable. Qed.

Lemma preserves_with_rng_result {A} (f : Rng -> Result ExtExn A * Rng) :
  preserves R (with_rng_result f).
Proof.
  intros w. unfold with_rng_result. destruct (f (w_rng w)). apply rng_stable.
Qed.

Lemma preserves_of_collaborator {A} (f : Rng -> (ExtExn + A) * Rng) :
  preserves R (of_collaborator f).
Proof. apply preserves_with_rng_result. Qed.
End PreservesRngStable.

Lemma preserves_log R `{!Stable R} ev : preserves R (log_event ev).
Proof. intros w. apply stable_log. Qed.

Create HintDb preserves.
Hint Extern 1 (Stable _) => typeclasses eauto : preserves.
Hint Extern 1 (RngStable _) => typeclasses eauto : preserves.
Hint Extern 1 (PreOrder _) => typeclasses eauto : preserves.
Hint Resolve preserves_ret preserves_raise preserves_of_option
  preserves_of_result preserves_log preserves_with_rng
  preserves_with_rng_result preserves_of_collaborator preserves_take_rows
  preserves_np_vstack preserves_df_column preserves_df_columns_matrix
  preserves_read_graph preserves_read_mechanism : preserves.

(** Goes through a computation built from binds, conditionals and the
    primitives above. *)
Ltac preserves_step :=
  lazymatch goal with
  | |- preserves ?R (bind _ _) =>
      refine (preserves_bind R _ _ _ _); [|intros ?; cbv beta]
  | |- preserves ?R (for_each _ _) =>
      refine (preserves_for_each R _ _ _); intros ?; cbv beta
  | |- preserves ?R (for_fold _ _ _) =>
      refine (preserves_for_fold R _ _ _ _); intros ? ?; cbv beta
  | |- preserves _ (if ?b then _ else _) => destruct b
  | |- preserves _ (match ?x with _ => _ end) => destruct x
  | |- preserves _ _ => solve [eauto with preserves]
  end.
Ltac preserves_tac := repeat preserves_step.

Section PreservesReaders.
Context (R : relation World) `{!PreOrder R}.

Lemma preserves_graph_nodes h : preserves R (graph_nodes h).
Proof. unfold graph_nodes. preserves_tac. Qed.

Lemma preserves_get_ordered_predecessors h n :
  preserves R (get_ordered_predecessors h n).
Proof. unfold get_ordered_predecessors. preserves_tac. Qed.
Hint Resolve preserves_graph_nodes preserves_get_ordered_predecessors : preserves.

Lemma preserves_is_root_node h n : preserves R (is_root_node h n).
Proof. unfold is_root_node. preserves_tac. Qed.

Lemma preserves_node_attrs h n : preserves R (node_attrs h n).
Proof. unfold node_attrs. preserves_tac. Qed.
Hint Resolve preserves_is_root_node preserves_node_attrs : preserves.

Lemma preserves_causal_mechanism h n : preserves R (causal_mechanism h n).
Proof. unfold causal_mechanism. preserves_tac. Qed.

Lemma preserves_node_connected_subgraph_view h n :
  preserves R (node_connected_subgraph_view h n).
Proof. unfold node_connected_subgraph_view. preserves_tac. Qed.

Lemma preserves_validate_causal_dag h :
  preserves R (validate_causal_dag h).
Proof. unfold validate_causal_dag. preserves_tac. Qed.
End PreservesReaders.

Section PreservesCollaborators.
Context (R : relation World) `{!Stable R}.

Lemma preserves_random_choice N k :
  preserves R (random_choice N k).
Proof. unfold random_choice. preserves_tac. Qed.

Lemma preserves_call_independence_test X labels :
  preserves R (call_independence_test X labels).
Proof. unfold call_independence_test. preserves_tac. Qed.

Lemma preserves_call_conditional_independence_test X labels Z :
  preserves R
    (call_conditional_independence_test X labels Z).
Proof. unfold call_conditional_independence_test. preserves_tac. Qed.
Hint Resolve preserves_random_choice preserves_call_independence_test
  preserves_call_conditional_independence_test : preserves.

Lemma preserves_mechanism_change_test t_old t_new po pn :
  preserves R (mechanism_change_test t_old t_new po pn).
Proof. unfold mechanism_change_test. preserves_tac. Qed.

Lemma preserves_call_difference a b : preserves R (call_difference a b).
Proof. unfold call_difference. preserves_tac. Qed.

Lemma preserves_mechanism_draw_samples m parents :
  preserves R (mechanism_draw_samples m parents).
Proof. unfold mechanism_draw_samples. preserves_tac. Qed.

Lemma preserves_draw_samples model n : preserves R (draw_samples model n).
Proof.
  unfold draw_samples. preserves_tac.
  intros w. apply preserves_of_collaborator. exact _.
Qed.
End PreservesCollaborators.

Hint Resolve preserves_graph_nodes preserves_get_ordered_predecessors
  preserves_is_root_node preserves_node_attrs preserves_causal_mechanism
  preserves_node_connected_subgraph_view preserves_validate_causal_dag
  preserves_random_choice preserves_call_independence_test
  preserves_call_conditional_independence_test
  preserves_mechanism_change_test preserves_call_difference
  preserves_mechanism_draw_samples preserves_draw_samples : preserves.

#[local] Instance log_grows_stable : Stable log_grows.
Proof.
  split; [split; [split|]|].
  - intros w. exists []. now rewrite app_nil_r.
  - intros w1 w2 w3 [l1 H1] [l2 H2]. exists (l1 ++ l2).
    rewrite H2, H1. now rewrite app_assoc.
  - intros w r. exists []. simpl. now rewrite app_nil_r.
  - intros w e. now exists [e].
Qed.

Lemma random_choice_run N k (w : World) :
  random_choice N k w
  = (Ok (np_random_choice N k (w_rng w)).1,
     mkWorld (np_random_choice N k (w_rng w)).2 (w_graphs w) (w_mechs w)
       (w_log w ++ [EvChoice N k])).
Proof.
  unfold random_choice, bind, log_event, with_rng. simpl.
  now destruct (np_random_choice N k (w_rng w)).
Qed.

Lemma raises_only_tester_body t_old t_new po pn :
  is_Some_b po = is_Some_b pn ->
  raises_only (fun e => ~ parents_validation_error e)
    (mechanism_change_test t_old t_new po pn).
Proof.
  intros Hsym.
  assert (Hne : forall e : exn ExtExn,
    (forall msg, e <> ValueError msg) -> ~ parents_validation_error e).
  { intros e He [H|H]; eapply He, H. }
  unfold mechanism_change_test. rewrite Hsym.
  rewrite andb_negb_r, andb_negb_l.
  repeat (apply raises_only_bind; [|intros ?]);
    try apply raises_only_log; try apply raises_only_with_rng;
    try (apply raises_only_take_rows, Hne; discriminate);
    try (apply raises_only_np_vstack; intros msg H1 H2 [H|H]; congruence).
  destruct po.
  - repeat (apply raises_only_bind; [|intros ?]);
      try apply raises_only_log;
      try (apply raises_only_of_option, Hne; discriminate);
      try (apply raises_only_take_rows, Hne; discriminate);
      try (apply raises_only_np_vstack; intros msg H1 H2 [H|H]; congruence).
    apply raises_only_of_collaborator. intros e; apply Hne; discriminate.
  - repeat (apply raises_only_bind; [|intros ?]); try apply raises_only_log.
    apply raises_only_of_collaborator. intros e; apply Hne; discriminate.
Qed.

(** C6.  The mechanism-change test raises its input-validation error when
    parent data is given for exactly one of the two regimes, and it does
    so before anything else happens: the world is left as it was, so no
    index was drawn and no test was called.  When parent data is given for
    both regimes or for neither, whatever the test raises is not that
    error, and the run goes on to draw the two index samples. *)
Theorem mechanism_change_test_parents_validation :
  forall t_old t_new (w : World),
    (forall p,
        mechanism_change_test t_old t_new (Some p) None w
        = (Raise (ValueError original_parents_without_new), w))
    /\ (forall p,
        mechanism_change_test t_old t_new None (Some p) w
        = (Raise (ValueError new_parents_without_original), w))
    /\ (forall po pn,
        is_Some_b po = is_Some_b pn ->
        let run := mechanism_change_test t_old t_new po pn w in
        let n := Nat.min (shape0 t_old) (shape0 t_new) in
        match run.1 with
        | Ok _ => True
        | Raise e => ~ parents_validation_error e
        end
        /\ exists later,
            w_log run.2
            = w_log w ++ EvChoice (shape0 t_old) n :: EvChoice (shape0 t_new) n :: later).
Proof.
  intros t_old t_new w. split; [|split].
  - intros p. reflexivity.
  - intros p. reflexivity.
  - intros po pn Hsym. split.
    + destruct (mechanism_change_test t_old t_new po pn w) as [[q|e] w'] eqn:E;
        simpl; [exact I|].
      eapply raises_only_tester_body; eauto.
    + unfold mechanism_change_test. rewrite Hsym.
      rewrite andb_negb_r, andb_negb_l. cbv zeta.
      set (n := Nat.min (shape0 t_old) (shape0 t_new)).
      rewrite (bind_ok _ _ _ _ _ (random_choice_run _ _ _)).
      rewrite (bind_ok _ _ _ _ _ (random_choice_run _ _ _)).
      match goal with
      | |- context [?c (mkWorld ?r ?g ?m ?l)] =>
          assert (Hc : preserves log_grows c) by preserves_tac;
          destruct (Hc (mkWorld r g m l)) as [later Hl]
      end.
      exists later. rewrite Hl. simpl. now rewrite <- !app_assoc.
Qed.

(** *** The balanced sample of the mechanism-change test *)

Lemma take_rows_2d a idx (w : World) :
  Forall (fun i => i < shape0 a) idx ->
  exists sel rows,
    take_rows a idx w = (Ok sel, w)
    /\ shape_into_2d sel = Arr2 (ncols_2d a) rows
    /\ Forall2 (fun i row => row_2d a i = Some row) idx rows.
Proof.
  intros Hidx. destruct a as [xs|c rows]; simpl in *.
  - assert (Hs : is_Some (mapM (fun i => xs !! i) idx)).
    { apply mapM_is_Some. eapply Forall_impl; [exact Hidx|].
      intros i Hi. now apply lookup_lt_is_Some_2. }
    destruct Hs as [ys Hys]. exists (Arr1 ys), ((fun x => [x]) <$> ys).
    rewrite Hys. simpl. split; [reflexivity|]. split; [reflexivity|].
    apply mapM_Some_1 in Hys. apply Forall2_fmap_r.
    eapply Forall2_impl; [exact Hys|]. intros i y Hy. simpl. now rewrite Hy.
  - assert (Hs : is_Some (mapM (fun i => rows !! i) idx)).
    { apply mapM_is_Some. eapply Forall_impl; [exact Hidx|].
      intros i Hi. now apply lookup_lt_is_Some_2. }
    destruct Hs as [ys Hys]. exists (Arr2 c ys), ys.
    rewrite Hys. simpl. split; [reflexivity|]. split; [reflexivity|].
    now apply mapM_Some_1 in Hys.
Qed.

Lemma tester_labels n :
  float_astype_str <$> assign_from (np_ones (n * 2)) n (-1)%Z
  = replicate n "1.0" ++ replicate n "-1.0".
Proof.
  unfold assign_from, np_ones. rewrite take_replicate, length_replicate.
  rewrite fmap_app, !fmap_replicate.
  replace (Nat.min n (n * 2)) with n by lia.
  replace (n * 2 - n) with n by lia. reflexivity.
Qed.

Lemma stacked_rows a b oi ni ro rn n :
  Forall2 (fun i row => row_2d a i = Some row) oi ro ->
  Forall2 (fun i row => row_2d b i = Some row) ni rn ->
  length oi = n -> length ni = n ->
  stacked n a b oi ni (ro ++ rn).
Proof.
  intros Fo Fn Lo Ln.
  pose proof (Forall2_length _ _ _ Fo) as Lo'.
  pose proof (Forall2_length _ _ _ Fn) as Ln'.
  split; [rewrite length_app; lia|]. split.
  - intros j i H.
    destruct (Forall2_lookup_l _ _ _ _ _ Fo H) as (row & Hr & Hrow).
    rewrite lookup_app_l by (apply lookup_lt_Some in Hr; lia).
    now rewrite Hrow.
  - intros j i H.
    destruct (Forall2_lookup_l _ _ _ _ _ Fn H) as (row & Hr & Hrow).
    rewrite lookup_app_r by lia.
    replace (n + j - length ro) with j by lia. now rewrite Hrow.
Qed.

Lemma forall_lt_le (l : list nat) a b :
  a <= b -> Forall (fun i => i < a) l -> Forall (fun i => i < b) l.
Proof. intros Hab H. eapply Forall_impl; [exact H|]. intros i Hi. simpl in Hi. lia. Qed.

(** C5, as the code has it.  With indices as numpy's sampling without
    replacement returns them, the mechanism-change test asks for
    [n = min(|old|, |new|)] indices out of each data set, and calls its
    test on a matrix of [2 n] rows and a label vector of [2 n] entries:
    row [j < n] is the old target row of the [j]-th old index and has the
    label ["1.0"], row [n + j] is the new target row of the [j]-th new
    index and has the label ["-1.0"].  The labels are the strings of the
    floats 1.0 and -1.0.  With parent data of both regimes the parent rows
    of the same indices are stacked in the same way and the conditional
    test is called. *)
Theorem mechanism_change_test_balanced_sample :
  choice_contract np_random_choice ->
  forall t_old t_new (w : World),
    ncols_2d t_old = ncols_2d t_new ->
    let n := Nat.min (shape0 t_old) (shape0 t_new) in
    let original_indices := np_random_choice (shape0 t_old) n (w_rng w) in
    let new_indices := np_random_choice (shape0 t_new) n original_indices.2 in
    let drawn :=
      mkWorld new_indices.2 (w_graphs w) (w_mechs w)
        (w_log w ++ [EvChoice (shape0 t_old) n; EvChoice (shape0 t_new) n]) in
    exists rows labels,
      labels = replicate n "1.0" ++ replicate n "-1.0"
      /\ (forall j, j < n ->
            labels !! j = Some "1.0" /\ labels !! (n + j) = Some "-1.0")
      /\ NoDup original_indices.1 /\ NoDup new_indices.1
      /\ length original_indices.1 = n /\ length new_indices.1 = n
      /\ stacked n t_old t_new original_indices.1 new_indices.1 rows
      /\ mechanism_change_test t_old t_new None None w
         = call_independence_test (Arr2 (ncols_2d t_old) rows) labels drawn
      /\ (forall p_old p_new,
            shape0 t_old <= shape0 p_old ->
            shape0 t_new <= shape0 p_new ->
            ncols_2d p_old = ncols_2d p_new ->
            exists parent_rows,
              stacked n p_old p_new original_indices.1 new_indices.1 parent_rows
              /\ mechanism_change_test t_old t_new (Some p_old) (Some p_new) w
                 = call_conditional_independence_test
                     (Arr2 (ncols_2d t_old) rows) labels
                     (Arr2 (ncols_2d p_old) parent_rows) drawn).
Proof.
  intros Hchoice t_old t_new w Hcols n oi ni w2.
  destruct (Hchoice (shape0 t_old) n (w_rng w)) as (Hlo & Hno & Hbo); [lia|].
  destruct (Hchoice (shape0 t_new) n oi.2) as (Hln & Hnn & Hbn); [lia|].
  fold oi in Hlo, Hno, Hbo. fold ni in Hln, Hnn, Hbn.
  destruct (take_rows_2d t_old oi.1 w2 Hbo) as (so & ro & Eo & So & Fo).
  destruct (take_rows_2d t_new ni.1 w2 Hbn) as (sn & rn & En & Sn & Fn).
  exists (ro ++ rn), (replicate n "1.0" ++ replicate n "-1.0").
  assert (Hprefix : forall (k : list nat -> list nat -> ndarray -> list string -> M Q),
    (let* original_indices := random_choice (shape0 t_old) n in
     let* new_indices := random_choice (shape0 t_new) n in
     let* selected_original := take_rows t_old original_indices in
     let* selected_new := take_rows t_new new_indices in
     let* joint := np_vstack (shape_into_2d selected_original)
                     (shape_into_2d selected_new) in
     k original_indices new_indices joint
       (float_astype_str <$> assign_from (np_ones (n * 2)) n (-1)%Z)) w
    = k oi.1 ni.1 (Arr2 (ncols_2d t_old) (ro ++ rn))
        (replicate n "1.0" ++ replicate n "-1.0") w2).
  { intros k.
    rewrite (bind_ok _ _ _ _ _ (random_choice_run _ _ _)). fold oi.
    rewrite (bind_ok _ _ _ _ _ (random_choice_run _ _ _)). simpl. fold ni.
    rewrite <- app_assoc. simpl. fold w2.
    rewrite (bind_ok _ _ _ _ _ Eo), (bind_ok _ _ _ _ _ En).
    rewrite So, Sn, tester_labels.
    unfold np_vstack at 1. simpl. rewrite Hcols, Nat.eqb_refl.
    reflexivity. }
  split; [reflexivity|]. split.
  { intros j Hj. split.
    - rewrite lookup_app_l by (rewrite length_replicate; lia).
      apply lookup_replicate_2. lia.
    - rewrite lookup_app_r by (rewrite length_replicate; lia).
      rewrite length_replicate. apply lookup_replicate_2. lia. }
  do 4 (split; [assumption|]).
  split; [now apply stacked_rows|]. split.
  { unfold mechanism_change_test. simpl. fold n.
    exact (Hprefix (fun _ _ X l => call_independence_test X l)). }
  intros p_old p_new Hro Hrn Hpc.
  destruct (take_rows_2d p_old oi.1 w2 (forall_lt_le _ _ _ Hro Hbo))
    as (spo & rpo & Epo & Spo & Fpo).
  destruct (take_rows_2d p_new ni.1 w2 (forall_lt_le _ _ _ Hrn Hbn))
    as (spn & rpn & Epn & Spn & Fpn).
  exists (rpo ++ rpn). split; [now apply stacked_rows|].
  unfold mechanism_change_test. cbn [is_Some_b negb andb]. cbv zeta. fold n.
  etransitivity; [exact (Hprefix (fun original_indices new_indices X l =>
    let* parents_new_data := of_option (Some p_new) TypeError in
    let* selected_original_parents := take_rows p_old original_indices in
    let* selected_new_parents := take_rows parents_new_data new_indices in
    let* joint_parent_data :=
      np_vstack (shape_into_2d selected_original_parents)
                (shape_into_2d selected_new_parents) in
    call_conditional_independence_test X l joint_parent_data))|].
  cbv beta. unfold of_option. unfold bind at 1. unfold ret at 1.
  rewrite (bind_ok _ _ _ _ _ Epo), (bind_ok _ _ _ _ _ Epn).
  rewrite Spo, Spn. unfold np_vstack at 1. simpl. rewrite Hpc, Nat.eqb_refl.
  reflexivity.
Qed.

(** *** The multi-node change screener *)

#[local] Instance same_store_stable : Stable same_store.
Proof.
  split; [split; [split|]|].
  - intros w. now split.
  - intros w1 w2 w3 [G1 M1] [G2 M2]. split; congruence.
  - intros w r. now split.
  - intros w e. now split.
Qed.

Lemma preserves_call_multipletests R `{!Stable R} ps alpha method :
  preserves R (call_multipletests ps alpha method).
Proof. unfold call_multipletests. preserves_tac. Qed.

Lemma preserves_node_p_value R `{!Stable R} graph old_data new_data n :
  preserves R (node_p_value graph old_data new_data n).
Proof. unfold node_p_value. preserves_tac. Qed.
Hint Resolve preserves_call_multipletests preserves_node_p_value : preserves.

Lemma preserves_check_significant_mechanism_change R `{!Stable R}
    graph old_data new_data alpha fdr :
  preserves R (_check_significant_mechanism_change graph old_data new_data alpha fdr).
Proof. unfold _check_significant_mechanism_change. preserves_tac. Qed.
Hint Resolve preserves_check_significant_mechanism_change : preserves.

(** Reading the nodes of a graph depends on the graph store only. *)
Lemma graph_nodes_store h (w w' : World) :
  w_graphs w' = w_graphs w ->
  graph_nodes h w' = ((graph_nodes h w).1, w').
Proof.
  intros H. unfold graph_nodes, bind, read_graph. rewrite H.
  destruct (w_graphs w !! h_ref h); reflexivity.
Qed.

Lemma graph_nodes_world h (w : World) : (graph_nodes h w).2 = w.
Proof.
  unfold graph_nodes, bind, read_graph.
  destruct (w_graphs w !! h_ref h); reflexivity.
Qed.

Lemma for_each_length {A B} (body : A -> M B) xs (w : World) bs w' :
  for_each body xs w = (Ok bs, w') -> length bs = length xs.
Proof.
  revert w bs. induction xs as [|x xs IH]; intros w bs H; simpl in H.
  - inversion H. reflexivity.
  - unfold bind in H. destruct (body x w) as [[b|e] w1]; [|discriminate].
    destruct (for_each body xs w1) as [[bs'|e] w2] eqn:E; [|discriminate].
    inversion H; subst. simpl. f_equal. eapply IH, E.
Qed.

Lemma for_each_raises {A B} (body : A -> M B) prefix x rest (w : World)
    bs w1 e w2 :
  for_each body prefix w = (Ok bs, w1) ->
  body x w1 = (Raise e, w2) ->
  for_each body (prefix ++ x :: rest) w = (Raise e, w2).
Proof.
  revert w bs. induction prefix as [|y prefix IH]; intros w bs Hp Hx; simpl in *.
  - inversion Hp; subst. unfold bind. now rewrite Hx.
  - unfold bind in *. destruct (body y w) as [[b|e'] w'] ; [|discriminate].
    destruct (for_each body prefix w') as [[bs'|e'] w''] eqn:E; [|discriminate].
    inversion Hp; subst. now rewrite (IH _ _ E Hx).
Qed.

Lemma dict_zip_fold_notin {V} (ks : list node) (vs : list V) (d : gmap node V) k :
  k ∉ ks ->
  foldl (fun d kv => <[kv.1 := kv.2]> d) d (zip ks vs) !! k = d !! k.
Proof.
  revert vs d. induction ks as [|k0 ks IH]; intros vs d Hk; [reflexivity|].
  destruct vs as [|v0 vs]; [reflexivity|]. simpl.
  apply not_elem_of_cons in Hk as [Hne Hk].
  rewrite IH by assumption. now apply lookup_insert_ne.
Qed.

Lemma dict_zip_fold_lookup {V} (ks : list node) (vs : list V) (d : gmap node V) i k :
  NoDup ks -> ks !! i = Some k ->
  foldl (fun d kv => <[kv.1 := kv.2]> d) d (zip ks vs) !! k
  = match vs !! i with Some v => Some v | None => d !! k end.
Proof.
  revert vs d i. induction ks as [|k0 ks IH]; intros vs d i Hnd Hi; [discriminate|].
  apply NoDup_cons in Hnd as [Hk0 Hnd].
  destruct vs as [|v0 vs].
  - now destruct i.
  - simpl. destruct i as [|i]; simpl in *.
    + inversion Hi; subst. rewrite dict_zip_fold_notin by assumption.
      apply lookup_insert_eq.
    + rewrite (IH vs _ i Hnd Hi). destruct (vs !! i); [reflexivity|].
      apply lookup_insert_ne. intros ->. apply Hk0.
      eapply list_elem_of_lookup_2, Hi.
Qed.

Lemma dict_zip_lookup {V} (ks : list node) (vs : list V) i k :
  NoDup ks -> ks !! i = Some k -> dict_zip ks vs !! k = vs !! i.
Proof.
  intros Hnd Hi. unfold dict_zip.
  rewrite (dict_zip_fold_lookup ks vs ∅ i k Hnd Hi).
  destruct (vs !! i); [reflexivity | apply lookup_empty].
Qed.

(** The screener once the p-values are known. *)
Lemma screener_after_p_values graph old_data new_data alpha fdr
    (w : World) nodes ps w1 :
  graph_nodes graph w = (Ok nodes, w) ->
  for_each (node_p_value graph old_data new_data) nodes w = (Ok ps, w1) ->
  _check_significant_mechanism_change graph old_data new_data alpha fdr w
  = match fdr with
    | None =>
        (Ok (dict_zip nodes ((fun p => Qle_bool p alpha) <$> ps)), w1)
    | Some method =>
        match multipletests ps alpha method with
        | inr rejects =>
            (Ok (dict_zip nodes rejects),
             mkWorld (w_rng w1) (w_graphs w1) (w_mechs w1)
               (w_log w1 ++ [EvMultipletests ps alpha method]))
        | inl e =>
            (Raise (ExtError e),
             mkWorld (w_rng w1) (w_graphs w1) (w_mechs w1)
               (w_log w1 ++ [EvMultipletests ps alpha method]))
        end
    end.
Proof.
  intros Hn Hp. unfold _check_significant_mechanism_change.
  rewrite (bind_ok _ _ _ _ _ Hn), (bind_ok _ _ _ _ _ Hp).
  assert (Hs : w_graphs w1 = w_graphs w).
  { pose proof (preserves_for_each same_store
                  (node_p_value graph old_data new_data) nodes) as H.
    specialize (H ltac:(intros; apply preserves_node_p_value; apply _) w).
    rewrite Hp in H. apply H. }
  destruct fdr as [method|].
  - unfold call_multipletests, bind at 1 2, log_event.
    destruct (multipletests ps alpha method) as [e|rejects]; simpl; [reflexivity|].
    unfold bind. rewrite (graph_nodes_store graph w) by exact Hs.
    now rewrite Hn.
  - unfold bind at 1, ret at 1. unfold bind.
    rewrite (graph_nodes_store graph w) by exact Hs. now rewrite Hn.
Qed.

(** C3.  Let the graph have the distinct nodes [nodes], and let the
    mechanism-change tests of the nodes, run in this order, return the
    p-values [ps].  Without FDR control the screener returns the flags in
    which every node is flagged exactly when its own p-value is at most the
    significance level.  With an FDR-control method the flag of the [i]-th
    node is the [i]-th reject decision of the multiple-testing correction
    applied to the whole vector [ps] at the significance level. *)
Theorem screener_decisions :
  forall graph old_data new_data alpha (w : World) nodes ps w1,
    graph_nodes graph w = (Ok nodes, w) ->
    NoDup nodes ->
    for_each (node_p_value graph old_data new_data) nodes w = (Ok ps, w1) ->
    (exists flags,
        _check_significant_mechanism_change graph old_data new_data alpha None w
        = (Ok flags, w1)
        /\ forall i n, nodes !! i = Some n ->
             exists p, ps !! i = Some p
               /\ flags !! n = Some (Qle_bool p alpha)
               /\ (flags !! n = Some true <-> (p <= alpha)%Q))
    /\ (forall method rejects,
          multipletests ps alpha method = inr rejects ->
          exists flags w2,
            _check_significant_mechanism_change graph old_data new_data alpha
              (Some method) w = (Ok flags, w2)
            /\ forall i n, nodes !! i = Some n -> flags !! n = rejects !! i).
Proof.
  intros graph old_data new_data alpha w nodes ps w1 Hn Hnd Hp. split.
  - eexists. split.
    + exact (screener_after_p_values graph old_data new_data alpha None
               w nodes ps w1 Hn Hp).
    + intros i n Hi.
      pose proof (for_each_length _ _ _ _ _ Hp) as Hlen.
      destruct (lookup_lt_is_Some_2 ps i) as [p Hpi].
      { rewrite Hlen. eapply lookup_lt_Some, Hi. }
      exists p. split; [exact Hpi|].
      rewrite (dict_zip_lookup _ _ i n Hnd Hi), list_lookup_fmap, Hpi. simpl.
      split; [reflexivity|]. rewrite <- Qle_bool_iff.
      split; [now intros [= ->] | now intros ->].
  - intros method rejects Hm.
    pose proof (screener_after_p_values graph old_data new_data alpha
                  (Some method) w nodes ps w1 Hn Hp) as H.
    cbv beta iota in H. rewrite Hm in H. eexists _, _. split; [exact H|].
    intros i n Hi. now apply dict_zip_lookup.
Qed.

(** C9.  On a graph without nodes the screener returns the empty mapping
    when there is no FDR control.  With an FDR-control method there is no
    guard for the empty graph: the screener calls the correction on the
    empty vector of p-values, and returns the empty mapping when the
    correction returns, and raises the error of the correction when it
    raises.  An exception that the test of a node raises is the exception of
    the screener, raised at once: the world is the one the test left, so
    nothing was retried and nothing ran after it; this holds in particular
    for the exceptions of the pluggable tests. *)
Theorem screener_empty_graph_and_errors :
  forall graph old_data new_data alpha (w : World),
    (graph_nodes graph w = (Ok [], w) ->
       _check_significant_mechanism_change graph old_data new_data alpha None w
       = (Ok ∅, w)
       /\ forall method,
           let called :=
             mkWorld (w_rng w) (w_graphs w) (w_mechs w)
               (w_log w ++ [EvMultipletests [] alpha method]) in
           _check_significant_mechanism_change graph old_data new_data alpha
             (Some method) w
           = match multipletests [] alpha method with
             | inr _ => (Ok ∅, called)
             | inl e => (Raise (ExtError e), called)
             end)
    /\ (forall fdr nodes before n after ps w1 e w2,
          graph_nodes graph w = (Ok nodes, w) ->
          nodes = before ++ n :: after ->
          for_each (node_p_value graph old_data new_data) before w = (Ok ps, w1) ->
          node_p_value graph old_data new_data n w1 = (Raise e, w2) ->
          _check_significant_mechanism_change graph old_data new_data alpha fdr w
          = (Raise e, w2))
    /\ (forall X labels e r,
          independence_test X labels (w_rng w) = (inl e, r) ->
          (call_independence_test X labels w).1 = Raise (ExtError e))
    /\ (forall X labels Z e r,
          conditional_independence_test X labels Z (w_rng w) = (inl e, r) ->
          (call_conditional_independence_test X labels Z w).1 = Raise (ExtError e)).
Proof.
  intros graph old_data new_data alpha w. split; [|split; [|split]].
  - intros Hn.
    assert (Hp : for_each (node_p_value graph old_data new_data) [] w = (Ok [], w))
      by reflexivity.
    split.
    + exact (screener_after_p_values graph old_data new_data alpha None
               w [] [] w Hn Hp).
    + intros method called.
      pose proof (screener_after_p_values graph old_data new_data alpha
                    (Some method) w [] [] w Hn Hp) as H.
      cbv beta iota in H. rewrite H.
      now destruct (multipletests [] alpha method).
  - intros fdr nodes before n after ps w1 e w2 Hn -> Hp He.
    unfold _check_significant_mechanism_change.
    rewrite (bind_ok _ _ _ _ _ Hn).
    apply bind_raise. eapply for_each_raises; eassumption.
  - intros X labels e r H. unfold call_independence_test, bind, log_event,
      of_collaborator, with_rng_result. simpl. now rewrite H.
  - intros X labels Z e r H. unfold call_conditional_independence_test, bind,
      log_event, of_collaborator, with_rng_result. simpl. now rewrite H.
Qed.

(** *** The set function of the Shapley attribution *)

Lemma bind_inv_ok {A B} (c : M A) (k : A -> M B) (w : World) b w' :
  bind c k w = (Ok b, w') ->
  exists a w1, c w = (Ok a, w1) /\ k a w1 = (Ok b, w').
Proof.
  unfold bind. destruct (c w) as [[a|e] w1]; [|discriminate].
  intros H. now exists a, w1.
Qed.

Tactic Notation "inv_bind" hyp(H) "as" ident(a) ident(w) ident(H1) :=
  apply bind_inv_ok in H as (a & w & H1 & H).

#[local] Instance touches_graph_preorder r : PreOrder (touches_graph r).
Proof.
  split.
  - intros w. repeat split.
  - intros w1 w2 w3 (R1 & M1 & L1 & G1) (R2 & M2 & L2 & G2).
    repeat split; try congruence.
    intros r' Hr'. rewrite G2, G1 by assumption. reflexivity.
Qed.

#[local] Instance outside_graph_stable r : Stable (outside_graph r).
Proof.
  split; [split; [split|]|].
  - intros w. now split.
  - intros w1 w2 w3 (M1 & G1) (M2 & G2). split; [congruence|].
    intros r' Hr'. rewrite G2, G1 by assumption. reflexivity.
  - intros w x. now split.
  - intros w e. now split.
Qed.

#[local] Instance extends_stable : Stable extends.
Proof.
  split; [split; [split|]|].
  - intros w. now split.
  - intros w1 w2 w3 (M1 & G1) (M2 & G2). split; [congruence|].
    intros r g Hr. apply G2, G1, Hr.
  - intros w x. now split.
  - intros w e. now split.
Qed.

Lemma update_node_attrs_touches h n f :
  preserves (touches_graph (h_ref h)) (update_node_attrs h n f).
Proof.
  unfold update_node_attrs. preserves_tac.
  intros w. destruct (w_graphs w !! h_ref h); simpl; [|reflexivity].
  repeat split. intros r' Hr'. simpl. now apply lookup_insert_ne.
Qed.

Lemma assign_mechanism_touches copy nodes olds news subset i :
  preserves (touches_graph (h_ref copy))
    (assign_mechanism copy nodes olds news subset i).
Proof.
  unfold assign_mechanism, set_causal_mechanism.
  preserves_tac; apply update_node_attrs_touches.
Qed.

Lemma record_parents_touches copy n :
  preserves (touches_graph (h_ref copy)) (record_parents copy n).
Proof.
  unfold record_parents, set_parents_during_fit.
  preserves_tac; apply update_node_attrs_touches.
Qed.

Lemma call_graph_factory_run source (w : World) copy w1 :
  call_graph_factory source w = (Ok copy, w1) ->
  let r := fresh (dom (w_graphs w)) in
  copy = mkHandle r None
  /\ w_graphs w !! r = None
  /\ w_rng w1 = w_rng w /\ w_mechs w1 = w_mechs w
  /\ w_log w1 = w_log w ++ [EvGraphFactory (h_ref source) r]
  /\ forall r', r' <> r -> w_graphs w1 !! r' = w_graphs w !! r'.
Proof.
  unfold call_graph_factory. intros H. inv_bind H as g w0 Hrun.
  assert (w0 = w) as ->.
  { pose proof (preserves_read_graph eq source w) as Hw.
    rewrite Hrun in Hw. simpl in Hw. now symmetry. }
  inversion H; subst; clear H. simpl.
  repeat split.
  - apply not_elem_of_dom, is_fresh.
  - intros r' Hr'. now apply lookup_insert_ne.
Qed.

Lemma call_graph_factory_raise source (w : World) e w1 :
  call_graph_factory source w = (Raise e, w1) -> w1 = w.
Proof.
  unfold call_graph_factory, bind.
  pose proof (preserves_read_graph eq source w) as Hw.
  destruct (read_graph source w) as [[g|e'] w0]; simpl in Hw; [discriminate|].
  intros H. inversion H. now subst.
Qed.

Lemma draw_samples_log model n (w : World) samples w' :
  draw_samples model n w = (Ok samples, w') ->
  w_log w' = w_log w ++ [EvDrawSamples model n].
Proof.
  unfold draw_samples. intros H. inv_bind H as g w0 Hrun.
  assert (w0 = w) as ->.
  { pose proof (preserves_read_graph eq model w) as Hw.
    rewrite Hrun in Hw. simpl in Hw. now symmetry. }
  inv_bind H as u w1 Hrun0. unfold log_event in Hrun0. inversion Hrun0; subst; clear Hrun0.
  unfold of_collaborator, with_rng_result in H. simpl in H.
  destruct (forward_sampler _ _ _ _) as [[x|d] r]; inversion H; subst.
  reflexivity.
Qed.

Lemma df_column_world df c (w : World) : (df_column df c w).2 = w.
Proof. unfold df_column. now destruct (bool_decide _). Qed.

(** C1.  The set function of the Shapley attribution returns exactly 0 on
    the all-zero coalition and leaves the world as it was: no graph copy
    was made, nothing was drawn from the random source and no collaborator
    was called.  On every other coalition a value it returns is the
    difference between the old target samples and the target column of
    samples drawn from a newly made hybrid model: the calls it makes are
    the graph factory, the forward sampler on the new graph, and the
    difference estimator, in this order. *)
Theorem attribution_set_function_all_zero :
  forall causal_model_old target_node num_samples old_causal_models
         new_causal_models target_samples_old subset (w : World),
    let value :=
      attribution_set_function causal_model_old target_node num_samples
        old_causal_models new_causal_models target_samples_old subset in
    (all_zero subset = true -> value w = (Ok 0%Q, w))
    /\ (all_zero subset = false ->
        forall v w', value w = (Ok v, w') ->
          let copy := mkHandle (fresh (dom (w_graphs w))) None in
          exists samples target_samples_new w1 w2,
            w_graphs w !! h_ref copy = None
            /\ draw_samples copy num_samples w1 = (Ok samples, w2)
            /\ df_column samples target_node w2 = (Ok target_samples_new, w2)
            /\ v = difference_estimation_func target_samples_old target_samples_new
            /\ w_log w'
               = w_log w ++ [EvGraphFactory (h_ref causal_model_old) (h_ref copy);
                             EvDrawSamples copy num_samples;
                             EvDifference target_samples_old target_samples_new]).
Proof.
  intros model target n olds news t_old subset w value. subst value. split.
  - intros Hz. unfold attribution_set_function. now rewrite Hz.
  - intros Hz v w' H copy. unfold attribution_set_function in H. rewrite Hz in H.
    inv_bind H as c w0 Hfac.
    destruct (call_graph_factory_run _ _ _ _ Hfac)
      as (-> & Hfresh & _ & _ & Hlog0 & _). fold copy in H.
    inv_bind H as nodes w1 Hnodes.
    pose proof (preserves_graph_nodes (touches_graph (h_ref copy)) copy w0) as T1.
    rewrite Hnodes in T1.
    inv_bind H as u1 w2 Hassign.
    pose proof (preserves_for_each (touches_graph (h_ref copy)) _
                  (seq 0 (length olds))
                  (assign_mechanism_touches copy (sorted nodes) olds news subset) w1)
      as T2.
    rewrite Hassign in T2.
    inv_bind H as all_nodes w3 Hall.
    pose proof (preserves_graph_nodes (touches_graph (h_ref copy)) copy w2) as T3.
    rewrite Hall in T3.
    inv_bind H as u2 w4 Hrecord.
    pose proof (preserves_for_each (touches_graph (h_ref copy)) _ all_nodes
                  (record_parents_touches copy) w3) as T4.
    rewrite Hrecord in T4.
    inv_bind H as samples w5 Hdraw.
    pose proof (draw_samples_log _ _ _ _ _ Hdraw) as Hlog1.
    inv_bind H as t_new w6 Hcol.
    pose proof (df_column_world samples target w5) as Hw. rewrite Hcol in Hw.
    simpl in Hw. subst w6.
    unfold call_difference, bind, log_event, ret in H. inversion H; subst; clear H.
    exists samples, t_new, w4, w5. repeat split; try assumption.
    simpl. rewrite Hlog1.
    assert (Hl : w_log w4 = w_log w0).
    { destruct T1 as (_ & _ & L1 & _), T2 as (_ & _ & L2 & _),
        T3 as (_ & _ & L3 & _), T4 as (_ & _ & L4 & _). simpl in *. congruence. }
    rewrite Hl, Hlog0. now rewrite <- !app_assoc.
Qed.

(** *** The passed-in models are left as they are *)

Lemma preserves_weaken {A} (R R' : relation World) (c : M A) :
  (forall w w', R w w' -> R' w w') -> preserves R c -> preserves R' c.
Proof. intros HR Hc w. apply HR, Hc. Qed.

Lemma touches_outside r (w w' : World) :
  touches_graph r w w' -> outside_graph r w w'.
Proof. intros (_ & Hm & _ & Hg). now split. Qed.

(** The set function changes no graph object but the copy it makes. *)
Lemma attribution_set_function_outside model target n olds news t_old subset
    (w : World) :
  outside_graph (fresh (dom (w_graphs w))) w
    (attribution_set_function model target n olds news t_old subset w).2.
Proof.
  unfold attribution_set_function. destruct (all_zero subset); [reflexivity|].
  unfold bind at 1.
  destruct (call_graph_factory model w) as [[copy|e] w0] eqn:E.
  - destruct (call_graph_factory_run _ _ _ _ E) as (-> & _ & _ & Hm & _ & Hg).
    set (r := fresh (dom (w_graphs w))) in *.
    transitivity w0; [now split|].
    match goal with
    | |- outside_graph r w0 (?c w0).2 =>
        assert (Hc : preserves (outside_graph r) c); [|exact (Hc w0)]
    end.
    preserves_tac.
    + eapply preserves_weaken; [apply touches_outside|].
      apply (assign_mechanism_touches (mkHandle r None)).
    + eapply preserves_weaken; [apply touches_outside|].
      apply (record_parents_touches (mkHandle r None)).
  - apply call_graph_factory_raise in E. subst. reflexivity.
Qed.

Lemma preserves_attribution_set_function model target n olds news t_old subset :
  preserves extends
    (attribution_set_function model target n olds news t_old subset).
Proof.
  intros w.
  destruct (attribution_set_function_outside model target n olds news t_old
              subset w) as (Hm & Hg).
  split; [exact Hm|]. intros r g Hr. rewrite Hg; [exact Hr|].
  intros ->. pose proof (is_fresh (dom (w_graphs w))) as Hf.
  apply not_elem_of_dom in Hf. congruence.
Qed.

Lemma preserves_run_shapley R `{!Stable R} plan (set_function : list Z -> M Q) :
  (forall subset, preserves R (set_function subset)) ->
  preserves R (run_shapley plan set_function).
Proof.
  intros Hf. induction plan as [a|e|subset continue IH|advance continue IH];
    simpl.
  - apply preserves_ret. exact _.
  - apply preserves_raise. exact _.
  - apply preserves_bind; [exact _ | apply Hf | intros v; apply IH].
  - intros w. etransitivity; [apply (rng_stable w (advance (w_rng w)))|].
    apply (IH (w_rng w)).
Qed.

Lemma preserves_estimate_shapley_values R `{!Stable R}
    (set_function : list Z -> M Q) players config :
  (forall subset, preserves R (set_function subset)) ->
  preserves R (estimate_shapley_values set_function players config).
Proof.
  intros Hf. unfold estimate_shapley_values.
  apply preserves_bind; [exact _ | apply preserves_log; exact _ |].
  intros _. now apply preserves_run_shapley.
Qed.

Lemma preserves_attributions_dict R `{!PreOrder R} nodes attributions :
  preserves R (attributions_dict nodes attributions).
Proof. unfold attributions_dict. preserves_tac. Qed.

Lemma preserves_estimate_marginal_distribution_change old new target n config :
  preserves extends
    (_estimate_marginal_distribution_change old new target n config).
Proof.
  unfold _estimate_marginal_distribution_change.
  repeat lazymatch goal with
    | |- preserves _ (bind _ _) =>
        refine (preserves_bind extends _ _ _ _); [|intros ?; cbv beta]
    | |- preserves _ (estimate_shapley_values _ _ _) =>
        apply preserves_estimate_shapley_values;
        [exact _ | intros ?; apply preserves_attribution_set_function]
    | |- preserves _ (attributions_dict _ _) =>
        apply preserves_attributions_dict; exact _
    | |- preserves _ _ => solve [preserves_tac]
    end.
Qed.

Lemma preserves_distribution_change_of_graphs old new target n config :
  preserves extends (distribution_change_of_graphs old new target n config).
Proof.
  unfold distribution_change_of_graphs.
  repeat lazymatch goal with
    | |- preserves _ (bind _ _) =>
        refine (preserves_bind extends _ _ _ _); [|intros ?; cbv beta]
    | |- preserves _ (_estimate_marginal_distribution_change _ _ _ _ _) =>
        apply preserves_estimate_marginal_distribution_change
    | |- preserves _ _ => solve [preserves_tac]
    end.
Qed.

Lemma read_graph_extends h (w w' : World) g :
  extends w w' -> (read_graph h w).1 = Ok g -> (read_graph h w').1 = Ok g.
Proof.
  intros (_ & Hg). unfold read_graph.
  destruct (w_graphs w !! h_ref h) as [g0|] eqn:E; [|discriminate].
  now rewrite (Hg _ _ E).
Qed.

(** C8.  [distribution_change_of_graphs] leaves the passed-in causal models
    as they are.  Whatever the call returns or raises, every graph object
    that existed before the call has the same nodes, edges and node
    attributes after it, every mechanism object is the same, and so each
    model reads as before.  During the evaluation of a coalition the only
    graph object written is the copy that the graph factory has just made,
    which did not exist before. *)
Theorem distribution_change_of_graphs_frame :
  forall causal_model_old causal_model_new target_node num_samples
         shapley_config (w : World),
    let w' :=
      (distribution_change_of_graphs causal_model_old causal_model_new
         target_node num_samples shapley_config w).2 in
    w_mechs w' = w_mechs w
    /\ (forall r g, w_graphs w !! r = Some g -> w_graphs w' !! r = Some g)
    /\ (forall model g,
          (read_graph model w).1 = Ok g -> (read_graph model w').1 = Ok g)
    /\ (forall model old_causal_models new_causal_models target_samples_old
               subset (w0 : World),
          let copy := fresh (dom (w_graphs w0)) in
          let w1 :=
            (attribution_set_function model target_node num_samples
               old_causal_models new_causal_models target_samples_old subset
               w0).2 in
          w_graphs w0 !! copy = None
          /\ w_mechs w1 = w_mechs w0
          /\ forall r, r <> copy -> w_graphs w1 !! r = w_graphs w0 !! r).
Proof.
  intros old new target n config w w'.
  pose proof (preserves_distribution_change_of_graphs old new target n config w)
    as Hext.
  fold w' in Hext. split; [apply Hext|]. split; [apply Hext|]. split.
  - intros model g. now apply read_graph_extends.
  - intros model olds news t_old subset w0 copy w1. split.
    + apply not_elem_of_dom, is_fresh.
    + apply attribution_set_function_outside.
Qed.

(** *** The local distribution-change scorer *)

Lemma early_stop_reflect pct old_result result :
  early_stop_b pct old_result result = true <-> early_stop pct old_result result.
Proof.
  unfold early_stop_b, early_stop.
  rewrite andb_true_iff, negb_true_iff, Qle_bool_iff.
  split; intros [H1 H2]; (split; [|exact H2]).
  - now apply Qeq_bool_neq.
  - destruct (Qeq_bool old_result 0) eqn:E; [|reflexivity].
    exfalso. now apply H1, Qeq_bool_eq.
Qed.

Lemma early_stop_first_row pct result : ~ early_stop pct 0 result.
Proof. intros [H _]. now apply H. Qed.

Lemma score_loop_step orig new num pct row rest result run (w : World) d w1 :
  row_difference orig new num row w = (Ok d, w1) ->
  score_loop orig new num pct (row :: rest) result run w
  = if early_stop_b pct result (result + d)
    then (Ok ((result + d)%Q, run + 1), w1)
    else score_loop orig new num pct rest (result + d) (run + 1) w1.
Proof.
  intros H. simpl. rewrite (bind_ok _ _ _ _ _ H). unfold early_stop_b.
  now destruct (negb (Qeq_bool result 0) && Qle_bool (1 - (result + d) / result) pct).
Qed.

Lemma mechanism_draw_samples_log m parents (w : World) a w' :
  mechanism_draw_samples m parents w = (Ok a, w') ->
  w_log w' = w_log w ++ [EvMechanismDraw m parents].
Proof.
  unfold mechanism_draw_samples. intros H. inv_bind H as mech w0 Hread.
  assert (w0 = w) as ->.
  { pose proof (preserves_read_mechanism eq m w) as Hw.
    rewrite Hread in Hw. simpl in Hw. now symmetry. }
  inv_bind H as u w1 Hlog. inversion Hlog; subst; clear Hlog.
  unfold with_rng in H. simpl in H.
  destruct (mechanism_sampler mech parents (w_rng w)). now inversion H.
Qed.

(** A row that is processed calls the difference estimator once. *)
Lemma row_difference_log orig new num row (w : World) d w1 :
  row_difference orig new num row w = (Ok d, w1) ->
  exists later,
    w_log w1 = w_log w ++ later /\ differences later = [d].
Proof.
  unfold row_difference. intros H.
  inv_bind H as a w2 Ha. apply mechanism_draw_samples_log in Ha.
  inv_bind H as b w3 Hb. apply mechanism_draw_samples_log in Hb.
  unfold call_difference, bind, log_event, ret in H. inversion H; subst; clear H.
  eexists. simpl. rewrite Hb, Ha, <- !app_assoc. split; reflexivity.
Qed.

Lemma differences_app l1 l2 :
  differences (l1 ++ l2) = differences l1 ++ differences l2.
Proof. apply omap_app. Qed.

Lemma log_since_app (w w' : World) later :
  w_log w' = w_log w ++ later -> log_since w w' = later.
Proof. intros H. unfold log_since. rewrite H. apply drop_app_length. Qed.

(** The loop, from any running sum: the rows it processes are a prefix of
    the pool, one difference per row; it goes on exactly while the
    early-stopping condition fails. *)
Lemma score_loop_spec orig new num pct rows :
  forall result run (w : World) result' run' w',
    score_loop orig new num pct rows result run w = (Ok (result', run'), w') ->
    exists ds later,
      w_log w' = w_log w ++ later
      /\ differences later = ds
      /\ run' = run + length ds
      /\ result' = foldl Qplus result ds
      /\ length ds <= length rows
      /\ (rows <> [] -> 0 < length ds)
      /\ (forall k, k + 1 < length ds ->
            ~ early_stop pct (foldl Qplus result (take k ds))
                             (foldl Qplus result (take (k + 1) ds)))
      /\ (length ds < length rows ->
            early_stop pct (foldl Qplus result (take (length ds - 1) ds)) result').
Proof.
  induction rows as [|row rest IH]; intros result run w result' run' w' H.
  - inversion H; subst. exists [], []. rewrite app_nil_r. simpl.
    repeat split; try lia; try congruence.
  - pose proof H as H0. simpl in H0. inv_bind H0 as d w1 Hd. clear H0.
    rewrite (score_loop_step _ _ _ _ _ _ _ _ _ _ _ Hd) in H.
    destruct (row_difference_log _ _ _ _ _ _ _ Hd) as (l1 & Hl1 & Hd1).
    destruct (early_stop_b pct result (result + d)) eqn:E.
    + inversion H; subst; clear H. exists [d], l1. simpl.
      apply early_stop_reflect in E as [E1 E2].
      repeat split; try assumption; try lia.
    + destruct (IH _ _ _ _ _ _ H)
        as (ds & l2 & Hl2 & Hd2 & Hrun & Hres & Hlen & Hne & Hgo & Hstop).
      exists (d :: ds), (l1 ++ l2).
      rewrite differences_app, Hd1, Hd2, Hl2, Hl1, app_assoc. simpl.
      split; [reflexivity|]. split; [reflexivity|]. split; [lia|].
      split; [exact Hres|]. split; [lia|]. split; [intros _; lia|]. split.
      * intros [|k] Hk; simpl.
        -- intros Hes. apply early_stop_reflect in Hes. congruence.
        -- apply Hgo. simpl in Hk. lia.
      * intros Hlt. assert (0 < length ds) as Hpos.
        { apply Hne. destruct rest; [simpl in *; lia | discriminate]. }
        replace (length ds - 0) with (S (length ds - 1)) by lia. simpl.
        apply Hstop. lia.
Qed.

Lemma mechanism_clone_log m (w : World) r w' :
  mechanism_clone m w = (Ok r, w') -> w_log w' = w_log w ++ [EvClone m r].
Proof.
  unfold mechanism_clone. intros H. inv_bind H as mech w0 Hread.
  assert (w0 = w) as ->.
  { pose proof (preserves_read_mechanism eq m w) as Hw.
    rewrite Hread in Hw. simpl in Hw. now symmetry. }
  now inversion H.
Qed.

Lemma mechanism_fit_log m training (w : World) u w' :
  mechanism_fit m training w = (Ok u, w') ->
  w_log w' = w_log w ++ [EvFit m training].
Proof.
  unfold mechanism_fit. intros H. inv_bind H as mech w0 Hread.
  assert (w0 = w) as ->.
  { pose proof (preserves_read_mechanism eq m w) as Hw.
    rewrite Hread in Hw. simpl in Hw. now symmetry. }
  inv_bind H as v w1 Hlog. inversion Hlog; subst; clear Hlog.
  now inversion H.
Qed.

Lemma same_world {A} (c : M A) (w : World) a w' :
  preserves eq c -> c w = (Ok a, w') -> w' = w.
Proof. intros Hc H. specialize (Hc w). rewrite H in Hc. now symmetry. Qed.



(** *** The conditional refit *)

#[local] Instance logs_only_rng_stable P : RngStable (logs_only P).
Proof.
  split; [split|].
  - intros w. exists []. now rewrite app_nil_r.
  - intros w1 w2 w3 (l1 & H1 & F1) (l2 & H2 & F2). exists (l1 ++ l2).
    rewrite H2, H1, app_assoc. split; [reflexivity | now apply Forall_app].
  - intros w r. exists []. simpl. now rewrite app_nil_r.
Qed.

Lemma preserves_log_only (P : Event -> Prop) e :
  P e -> preserves (logs_only P) (log_event e).
Proof. intros He w. exists [e]. split; [reflexivity | now constructor]. Qed.

Hint Extern 1 (preserves (logs_only not_a_fit) (log_event _)) =>
  apply preserves_log_only; exact I : preserves.

Lemma check_significant_mechanism_change_logs graph old_data new_data alpha fdr :
  preserves (logs_only not_a_fit)
    (_check_significant_mechanism_change graph old_data new_data alpha fdr).
Proof.
  unfold _check_significant_mechanism_change, call_multipletests, node_p_value,
    mechanism_change_test, random_choice, call_independence_test,
    call_conditional_independence_test.
  preserves_tac.
Qed.

Lemma graph_reader_ret {A} (a : A) : graph_reader (ret a).
Proof. intros w w' _. reflexivity. Qed.

Lemma graph_reader_raise {A} e : graph_reader (raise e : M A).
Proof. intros w w' _. reflexivity. Qed.

Lemma graph_reader_of_option {A} (o : option A) e : graph_reader (of_option o e).
Proof. destruct o; [apply graph_reader_ret | apply graph_reader_raise]. Qed.

Lemma graph_reader_bind {A B} (c : M A) (k : A -> M B) :
  graph_reader c -> (forall a, graph_reader (k a)) -> graph_reader (bind c k).
Proof.
  intros Hc Hk w w' H. unfold bind.
  rewrite (Hc w w' H). rewrite (Hc w w eq_refl) at 2.
  destruct (c w).1 as [a|e]; simpl; [|reflexivity].
  now apply Hk.
Qed.

Lemma graph_reader_read_graph h : graph_reader (read_graph h).
Proof.
  intros w w' H. unfold read_graph. rewrite H.
  now destruct (w_graphs w !! h_ref h).
Qed.

Lemma graph_reader_df_column df c : graph_reader (df_column df c).
Proof.
  unfold df_column. destruct (bool_decide _);
    [apply graph_reader_ret | apply graph_reader_raise].
Qed.

Lemma graph_reader_df_columns_matrix df cs : graph_reader (df_columns_matrix df cs).
Proof.
  unfold df_columns_matrix. destruct (filter _ cs);
    [apply graph_reader_ret | apply graph_reader_raise].
Qed.

Ltac graph_reader_tac :=
  repeat lazymatch goal with
    | |- graph_reader (bind _ _) =>
        apply graph_reader_bind; [|intros ?; cbv beta]
    | |- graph_reader (if ?b then _ else _) => destruct b
    | |- graph_reader (ret _) => apply graph_reader_ret
    | |- graph_reader (raise _) => apply graph_reader_raise
    | |- graph_reader (of_option _ _) => apply graph_reader_of_option
    | |- graph_reader (read_graph _) => apply graph_reader_read_graph
    | |- graph_reader (df_column _ _) => apply graph_reader_df_column
    | |- graph_reader (df_columns_matrix _ _) =>
        apply graph_reader_df_columns_matrix
    end.

Lemma graph_reader_graph_nodes h : graph_reader (graph_nodes h).
Proof. unfold graph_nodes. graph_reader_tac. Qed.

Lemma graph_reader_get_ordered_predecessors h n :
  graph_reader (get_ordered_predecessors h n).
Proof. unfold get_ordered_predecessors. graph_reader_tac. Qed.

Lemma graph_reader_is_root_node h n : graph_reader (is_root_node h n).
Proof.
  unfold is_root_node. apply graph_reader_bind;
    [apply graph_reader_get_ordered_predecessors | intros ?; apply graph_reader_ret].
Qed.

Lemma graph_reader_causal_mechanism h n : graph_reader (causal_mechanism h n).
Proof. unfold causal_mechanism, node_attrs. graph_reader_tac. Qed.

Lemma graph_reader_training_set h n df : graph_reader (training_set h n df).
Proof.
  unfold training_set. apply graph_reader_bind;
    [apply graph_reader_get_ordered_predecessors | intros ?].
  graph_reader_tac.
Qed.

Lemma graph_reader_run {A} (c : M A) (w : World) r w' :
  graph_reader c -> c w = (r, w') -> w' = w /\ (c w).1 = r.
Proof.
  intros Hc H. rewrite (Hc w w eq_refl) in H. inversion H. now split.
Qed.

Lemma graph_reader_at {A} (c : M A) (w w' : World) :
  graph_reader c -> w_graphs w' = w_graphs w -> (c w').1 = (c w).1.
Proof. intros Hc H. now rewrite (Hc w w' H). Qed.

(** What a successful [fit_causal_model_of_target] does: the mechanism of
    the node is replaced by its fit on the node's columns of the data. *)
Lemma fit_causal_model_of_target_run model n data (w : World) u w' :
  fit_causal_model_of_target model n data w = (Ok u, w') ->
  exists m training mech,
    (causal_mechanism model n w).1 = Ok m
    /\ (training_set model n data w).1 = Ok training
    /\ w_mechs w !! m = Some mech
    /\ w' = mkWorld (w_rng w) (w_graphs w)
              (<[m := mkMechanism (mech_family mech) (Some training)]> (w_mechs w))
              (w_log w ++ [EvFit m training]).
Proof.
  unfold fit_causal_model_of_target. intros H.
  inv_bind H as m w1 Hm.
  destruct (graph_reader_run _ _ _ _ (graph_reader_causal_mechanism model n) Hm)
    as [-> Hm'].
  inv_bind H as training w2 Ht.
  destruct (graph_reader_run _ _ _ _ (graph_reader_training_set model n data) Ht)
    as [-> Ht'].
  unfold mechanism_fit in H. inv_bind H as mech w3 Hread.
  unfold read_mechanism in Hread.
  destruct (w_mechs w !! m) as [mech0|] eqn:Emech; [|discriminate].
  inversion Hread; subst mech0 w3; clear Hread.
  unfold bind, log_event in H. simpl in H. inversion H; subst; clear H.
  now exists m, training, mech.
Qed.

Lemma for_each_reader {A B} (body : A -> M B) xs (w : World) bs w' :
  (forall x, graph_reader (body x)) ->
  for_each body xs w = (Ok bs, w') ->
  w' = w /\ Forall2 (fun x b => (body x w).1 = Ok b) xs bs.
Proof.
  intros Hb. revert bs w'. induction xs as [|x xs IH]; intros bs w' H; simpl in H.
  - inversion H. split; [reflexivity | constructor].
  - inv_bind H as b w1 Hx.
    destruct (graph_reader_run _ _ _ _ (Hb x) Hx) as [-> Hx'].
    inv_bind H as bs' w2 Hxs. destruct (IH _ _ Hxs) as [-> F].
    inversion H; subst. split; [reflexivity | now constructor].
Qed.

Lemma unshared_of_lists old new nodes (w : World) mechs_old mechs_new :
  NoDup nodes ->
  for_each (causal_mechanism old) nodes w = (Ok mechs_old, w) ->
  for_each (causal_mechanism new) nodes w = (Ok mechs_new, w) ->
  NoDup (mechs_old ++ mechs_new) ->
  unshared old new nodes w.
Proof.
  intros Hnd Ho Hn Hm.
  apply for_each_reader in Ho as [_ Fo]; [|intros; apply graph_reader_causal_mechanism].
  apply for_each_reader in Hn as [_ Fn]; [|intros; apply graph_reader_causal_mechanism].
  apply NoDup_app in Hm as (Hmo & Hdisj & Hmn).
  assert (Hinj : forall (model : GraphHandle) (ms : list mech_ref),
    Forall2 (fun x b => (causal_mechanism model x w).1 = Ok b) nodes ms ->
    NoDup ms ->
    forall n1 n2 m, n1 ∈ nodes -> n2 ∈ nodes ->
      (causal_mechanism model n1 w).1 = Ok m ->
      (causal_mechanism model n2 w).1 = Ok m -> n1 = n2).
  { intros model ms F Hms n1 n2 m H1 H2 E1 E2.
    apply list_elem_of_lookup in H1 as [i Hi], H2 as [j Hj].
    destruct (Forall2_lookup_l _ _ _ _ _ F Hi) as (m1 & Hm1 & E1').
    destruct (Forall2_lookup_l _ _ _ _ _ F Hj) as (m2 & Hm2 & E2').
    assert (m1 = m) by congruence. assert (m2 = m) by congruence. subst m1 m2.
    assert (i = j) by (eapply NoDup_lookup; eassumption). subst j. congruence. }
  split; [now apply (Hinj old mechs_old)|].
  split; [now apply (Hinj new mechs_new)|].
  intros n1 n2 m H1 H2 E1 E2.
  apply list_elem_of_lookup in H1 as [i Hi], H2 as [j Hj].
  destruct (Forall2_lookup_l _ _ _ _ _ Fo Hi) as (m1 & Hm1 & E1').
  destruct (Forall2_lookup_l _ _ _ _ _ Fn Hj) as (m2 & Hm2 & E2').
  assert (m1 = m) by congruence. assert (m2 = m) by congruence. subst m1 m2.
  eapply Hdisj; eapply list_elem_of_lookup_2; eassumption.
Qed.

Section RefitLoop.
Variables (old new : GraphHandle) (old_data new_data : DataFrame).
Variable flags : gmap node bool.
Variables (w0 : World) (nodes : list node).
Hypothesis Hunshared : unshared old new nodes w0.
Local Abbreviation refit_data := (refit_data old_data new_data).
Local Abbreviation node_fit := (node_fit old new old_data new_data flags w0).
Local Abbreviation node_refitted :=
  (node_refitted old new old_data new_data flags).

Lemma refit_node_run n (wa wa' : World) u :
  w_graphs wa = w_graphs w0 ->
  refit_node old new old_data new_data (pd_concat old_data new_data) flags n wa
  = (Ok u, wa') ->
  exists changed mo tso mecho mn tsn mechn,
    flags !! n = Some changed
    /\ (causal_mechanism old n w0).1 = Ok mo
    /\ (training_set old n (refit_data changed old_data) w0).1 = Ok tso
    /\ (causal_mechanism new n w0).1 = Ok mn
    /\ (training_set new n (refit_data changed new_data) w0).1 = Ok tsn
    /\ w_mechs wa !! mo = Some mecho
    /\ (<[mo := mkMechanism (mech_family mecho) (Some tso)]> (w_mechs wa)) !! mn
       = Some mechn
    /\ wa' = mkWorld (w_rng wa) (w_graphs wa)
               (<[mn := mkMechanism (mech_family mechn) (Some tsn)]>
                  (<[mo := mkMechanism (mech_family mecho) (Some tso)]> (w_mechs wa)))
               (w_log wa ++ [EvFit mo tso; EvFit mn tsn]).
Proof.
  intros Hg H. unfold refit_node in H. inv_bind H as changed w1 Hflag.
  destruct (flags !! n) as [b|] eqn:Ef; [|discriminate].
  inversion Hflag; subst b w1; clear Hflag.
  assert (H' : (fit_causal_model_of_target old n (refit_data changed old_data) ;;
                fit_causal_model_of_target new n (refit_data changed new_data)) wa
               = (Ok u, wa')) by (destruct changed; exact H).
  clear H. inv_bind H' as u1 wa1 Hfo.
  apply fit_causal_model_of_target_run in Hfo
    as (mo & tso & mecho & Emo & Etso & Hmo & ->).
  apply fit_causal_model_of_target_run in H'
    as (mn & tsn & mechn & Emn & Etsn & Hmn & ->).
  simpl in Hmn.
  rewrite (graph_reader_at _ w0 wa (graph_reader_causal_mechanism old n) Hg) in Emo.
  rewrite (graph_reader_at _ w0 wa (graph_reader_training_set old n _) Hg) in Etso.
  match type of Emn with
  | (_ ?wx).1 = _ =>
      rewrite (graph_reader_at _ w0 wx (graph_reader_causal_mechanism new n) Hg)
        in Emn;
      rewrite (graph_reader_at _ w0 wx (graph_reader_training_set new n _) Hg)
        in Etsn
  end.
  exists changed, mo, tso, mecho, mn, tsn, mechn.
  simpl. rewrite <- app_assoc. simpl. repeat split; assumption.
Qed.

Lemma refit_loop ns :
  forall (wa wb : World) us,
    (forall n, n ∈ ns -> n ∈ nodes) -> NoDup ns ->
    w_graphs wa = w_graphs w0 ->
    for_each (refit_node old new old_data new_data
                (pd_concat old_data new_data) flags) ns wa = (Ok us, wb) ->
    w_graphs wb = w_graphs w0
    /\ (exists later,
          w_log wb = w_log wa ++ later
          /\ Forall (fun e => exists n, n ∈ ns /\ node_fit n e) later)
    /\ (forall m,
          (forall n, n ∈ ns ->
             (causal_mechanism old n w0).1 <> Ok m
             /\ (causal_mechanism new n w0).1 <> Ok m) ->
          w_mechs wb !! m = w_mechs wa !! m)
    /\ (forall n, n ∈ ns -> node_refitted n wb).
Proof.
  induction ns as [|n rest IH]; intros wa wb us Hsub Hnd Hg H; simpl in H.
  - inversion H; subst. split; [exact Hg|]. split.
    { exists []. rewrite app_nil_r. split; [reflexivity | constructor]. }
    split; [reflexivity|]. intros n Hn. now apply elem_of_nil in Hn.
  - inv_bind H as u wa' Hnode. inv_bind H as us' wb' Hrest.
    inversion H; subst us wb'; clear H.
    apply NoDup_cons in Hnd as [Hn_rest Hnd].
    destruct (refit_node_run _ _ _ _ Hg Hnode)
      as (changed & mo & tso & mecho & mn & tsn & mechn
          & Ef & Emo & Etso & Emn & Etsn & Hmo & Hmn & ->).
    destruct Hunshared as (Hoo & Hnn & Hon).
    assert (Hn : n ∈ nodes) by (apply Hsub; left).
    assert (Hmomn : mo <> mn).
    { intros ->. exact (Hon n n mn Hn Hn Emo Emn). }
    assert (Hother : forall n', n' ∈ rest ->
              ((causal_mechanism old n' w0).1 <> Ok mo
               /\ (causal_mechanism new n' w0).1 <> Ok mo)
              /\ ((causal_mechanism old n' w0).1 <> Ok mn
                  /\ (causal_mechanism new n' w0).1 <> Ok mn)).
    { intros n' Hn'. assert (Hn'' : n' ∈ nodes) by (apply Hsub; now right).
      assert (n' <> n) by (intros ->; contradiction).
      repeat split; intros E.
      - apply H. exact (Hoo n' n mo Hn'' Hn E Emo).
      - exact (Hon n n' mo Hn Hn'' Emo E).
      - exact (Hon n' n mn Hn'' Hn E Emn).
      - apply H. exact (Hnn n' n mn Hn'' Hn E Emn). }
    pose proof (fun Hsub' Hg' => IH _ _ _ Hsub' Hnd Hg' Hrest) as IH'.
    destruct (IH' (fun n' Hn' => Hsub n' (list_elem_of_further _ _ _ Hn')) Hg)
      as (Gb & (later & Hl & Fl) & Hframe & Hpost).
    clear IH'.
    simpl in Hl, Hframe.
    split; [exact Gb|]. split; [|split].
    + exists ([EvFit mo tso; EvFit mn tsn] ++ later).
      rewrite Hl, <- app_assoc. split; [reflexivity|].
      apply Forall_app. split.
      * repeat constructor.
        -- exists n. split; [left|]. exists changed, mo, tso. auto.
        -- exists n. split; [left|]. exists changed, mn, tsn. auto.
      * eapply Forall_impl; [exact Fl|]. intros e (n' & Hn' & He).
        exists n'. split; [now right | exact He].
    + intros m Hm. rewrite Hframe.
      * destruct (Hm n ltac:(left)) as [Hm1 Hm2].
        rewrite !lookup_insert_ne by congruence. reflexivity.
      * intros n' Hn'. apply Hm. now right.
    + intros n' Hn'. apply elem_of_cons in Hn' as [-> | Hn']; [|now apply Hpost].
      exists changed. split; [exact Ef|]. split.
      * exists mo, tso, (mkMechanism (mech_family mecho) (Some tso)).
        rewrite (graph_reader_at _ w0 wb (graph_reader_causal_mechanism old n) Gb).
        rewrite (graph_reader_at _ w0 wb (graph_reader_training_set old n _) Gb).
        repeat split; try assumption.
        rewrite Hframe by (intros n' Hn'; apply (Hother n' Hn')).
        rewrite lookup_insert_ne by congruence. apply lookup_insert_eq.
      * exists mn, tsn, (mkMechanism (mech_family mechn) (Some tsn)).
        rewrite (graph_reader_at _ w0 wb (graph_reader_causal_mechanism new n) Gb).
        rewrite (graph_reader_at _ w0 wb (graph_reader_training_set new n _) Gb).
        repeat split; try assumption.
        rewrite Hframe by (intros n' Hn'; apply (Hother n' Hn')).
        apply lookup_insert_eq.
Qed.
End RefitLoop.

Lemma only_fitted_on_of_loop old new old_data new_data flags (w w1 w' : World)
    nodes screened later model n changed own :
  unshared old new nodes w ->
  w_graphs w' = w_graphs w ->
  w_log w1 = w_log w ++ screened -> Forall not_a_fit screened ->
  w_log w' = w_log w1 ++ later ->
  Forall (fun e => exists n', n' ∈ nodes
                     /\ node_fit old new old_data new_data flags w n' e) later ->
  n ∈ nodes -> flags !! n = Some changed ->
  (model = old /\ own = old_data) \/ (model = new /\ own = new_data) ->
  only_fitted_on model n (refit_data old_data new_data changed own) w w'.
Proof.
  intros (Hoo & Hnn & Hon) Hg Hl1 Fs Hl2 Fl Hn Ef Hmodel m training Hm Hin.
  rewrite (graph_reader_at _ w w' (graph_reader_causal_mechanism model n) Hg) in Hm.
  rewrite (graph_reader_at _ w w' (graph_reader_training_set model n _) Hg).
  rewrite Hl1, <- app_assoc in Hl2. rewrite (log_since_app _ _ _ Hl2) in Hin.
  apply elem_of_app in Hin as [Hin|Hin].
  - rewrite Forall_forall in Fs. destruct (Fs _ Hin).
  - rewrite Forall_forall in Fl.
    destruct (Fl _ Hin) as (n' & Hn' & changed' & m' & tr' & Ef' & [= <- <-] & Hcase).
    destruct Hmodel as [[-> ->] | [-> ->]], Hcase as [[Em Et] | [Em Et]].
    + assert (n' = n) by exact (Hoo n' n m Hn' Hn Em Hm). subst n'.
      assert (changed' = changed) by congruence. now subst.
    + destruct (Hon n n' m Hn Hn' Hm Em).
    + destruct (Hon n' n m Hn' Hn Em Hm).
    + assert (n' = n) by exact (Hnn n' n m Hn' Hn Em Hm). subst n'.
      assert (changed' = changed) by congruence. now subst.
Qed.

(** C2.  Let both models have the same distinct nodes and let no mechanism
    object be shared between nodes or between the two models.  After a
    conditional refit that returns, for every node flagged as changed the
    mechanism in the old model holds the fit on the old data and the one in
    the new model the fit on the new data, and during the refit each was
    fitted on nothing else; for every node flagged as unchanged both
    mechanisms hold the fit on the pooled data and were fitted on nothing
    else.  Every node has a flag.  The rows of the pooled data are the old
    rows followed by the new rows. *)
Theorem refit_accounts_for_mechanism_change :
  forall old new old_data new_data alpha fdr (w : World)
         nodes mechs_old mechs_new flags w',
    graph_nodes old w = (Ok nodes, w) ->
    graph_nodes new w = (Ok nodes, w) ->
    NoDup nodes ->
    for_each (causal_mechanism old) nodes w = (Ok mechs_old, w) ->
    for_each (causal_mechanism new) nodes w = (Ok mechs_new, w) ->
    NoDup (mechs_old ++ mechs_new) ->
    _fit_accounting_for_mechanism_change old new old_data new_data alpha fdr w
    = (Ok flags, w') ->
    let joint_data := pd_concat old_data new_data in
    df_rows joint_data = df_rows old_data ++ df_rows new_data
    /\ forall n, n ∈ nodes ->
         is_Some (flags !! n)
         /\ (flags !! n = Some true ->
               fitted_on old n old_data w' /\ fitted_on new n new_data w'
               /\ only_fitted_on old n old_data w w'
               /\ only_fitted_on new n new_data w w')
         /\ (flags !! n = Some false ->
               fitted_on old n joint_data w' /\ fitted_on new n joint_data w'
               /\ only_fitted_on old n joint_data w w'
               /\ only_fitted_on new n joint_data w w').
Proof.
  intros old new old_data new_data alpha fdr w nodes mechs_old mechs_new flags w'
    Hno Hnn Hnd Hmo Hmn Hms H joint_data.
  split; [reflexivity|].
  unfold _fit_accounting_for_mechanism_change in H.
  inv_bind H as flags0 w1 Hscreen. cbv zeta in H.
  inv_bind H as nodes' w2 Hnodes. inv_bind H as us w3 Hloop.
  inversion H; subst flags0 w3; clear H.
  pose proof (preserves_check_significant_mechanism_change same_store
                old old_data new_data alpha fdr w) as [Hg1 _].
  pose proof (check_significant_mechanism_change_logs
                old old_data new_data alpha fdr w) as (screened & Hl1 & Fs).
  rewrite Hscreen in Hg1, Hl1. simpl in Hg1, Hl1.
  destruct (graph_reader_run _ _ _ _ (graph_reader_graph_nodes new) Hnodes)
    as [-> Hnodes'].
  rewrite (graph_reader_at _ w w1 (graph_reader_graph_nodes new) Hg1), Hnn
    in Hnodes'.
  simpl in Hnodes'. inversion Hnodes'; subst nodes'; clear Hnodes'.
  pose proof (unshared_of_lists old new nodes w _ _ Hnd Hmo Hmn Hms) as Hun.
  destruct (refit_loop old new old_data new_data flags w nodes Hun nodes
              w1 w' us (fun n Hn => Hn) Hnd Hg1 Hloop)
    as (Gb & (later & Hl2 & Fl) & _ & Hpost).
  intros n Hn. destruct (Hpost n Hn) as (changed & Ef & Fo & Fn).
  split; [now exists changed|].
  assert (Honly : forall model own,
    (model = old /\ own = old_data) \/ (model = new /\ own = new_data) ->
    only_fitted_on model n (refit_data old_data new_data changed own) w w').
  { intros model own Hmodel.
    eapply only_fitted_on_of_loop; eassumption. }
  split; intros Ef'; rewrite Ef in Ef'; inversion Ef'; subst changed.
  - split; [exact Fo|]. split; [exact Fn|]. split.
    + apply (Honly old old_data). now left.
    + apply (Honly new new_data). now right.
  - split; [exact Fo|]. split; [exact Fn|]. split.
    + apply (Honly old old_data). now left.
    + apply (Honly new new_data). now right.
Qed.

(** *** The scores of the nodes *)

#[local] Instance same_graphs_stable : Stable same_graphs.
Proof.
  split; [split; [split|]|].
  - intros w. reflexivity.
  - intros w1 w2 w3 G1 G2. unfold same_graphs in *. congruence.
  - intros w r. reflexivity.
  - intros w e. reflexivity.
Qed.

Lemma preserves_mechanism_clone_graphs m :
  preserves same_graphs (mechanism_clone m).
Proof.
  unfold mechanism_clone. refine (preserves_bind same_graphs _ _ _ _);
    [preserves_tac | intros mech w; reflexivity].
Qed.

Lemma preserves_mechanism_fit_graphs m training :
  preserves same_graphs (mechanism_fit m training).
Proof.
  unfold mechanism_fit. refine (preserves_bind same_graphs _ _ _ _);
    [preserves_tac | intros mech].
  refine (preserves_bind same_graphs _ _ _ _);
    [preserves_tac | intros u w; reflexivity].
Qed.

Lemma preserves_row_difference R `{!Stable R} orig new num row :
  preserves R (row_difference orig new num row).
Proof. unfold row_difference. preserves_tac. Qed.

Lemma preserves_score_loop R `{!Stable R} orig new num pct rows result run :
  preserves R (score_loop orig new num pct rows result run).
Proof.
  revert result run. induction rows as [|row rest IH]; intros result run; simpl.
  - apply preserves_ret. exact _.
  - refine (preserves_bind R _ _ _ _); [now apply preserves_row_difference|].
    intros d. cbv beta.
    destruct (negb (Qeq_bool result 0) && _); [apply preserves_ret; exact _ | apply IH].
Qed.

Lemma preserves_estimate_distribution_change_score po pn tn m max num pct :
  preserves same_graphs
    (_estimate_distribution_change_score po pn tn m max num pct).
Proof.
  unfold _estimate_distribution_change_score, divide_by_runs.
  repeat lazymatch goal with
    | |- preserves _ (bind _ _) =>
        refine (preserves_bind same_graphs _ _ _ _); [|intros ?; cbv beta]
    | |- preserves _ (mechanism_clone _) => apply preserves_mechanism_clone_graphs
    | |- preserves _ (mechanism_fit _ _) => apply preserves_mechanism_fit_graphs
    | |- preserves _ (score_loop _ _ _ _ _ _ _) =>
        apply preserves_score_loop; exact _
    | |- preserves _ _ => solve [preserves_tac]
    end.
Qed.

Lemma preserves_score_node model od nd max num pct flags n :
  preserves same_graphs (score_node model od nd max num pct flags n).
Proof.
  unfold score_node.
  repeat lazymatch goal with
    | |- preserves _ (bind _ _) =>
        refine (preserves_bind same_graphs _ _ _ _); [|intros ?; cbv beta]
    | |- preserves _ (_estimate_distribution_change_score _ _ _ _ _ _ _) =>
        apply preserves_estimate_distribution_change_score
    | |- preserves _ (if ?b then _ else _) => destruct b
    | |- preserves _ _ => solve [preserves_tac]
    end.
Qed.

Lemma graph_reader_validate_causal_dag h : graph_reader (validate_causal_dag h).
Proof.
  unfold validate_causal_dag. apply graph_reader_bind;
    [apply graph_reader_read_graph | intros g].
  destruct (validate_dag g); [apply graph_reader_raise | apply graph_reader_ret].
Qed.

(** What the body of the loop does with one node. *)
Lemma score_node_cases model od nd max num pct flags n (wn : World) v wn' :
  score_node model od nd max num pct flags n wn = (Ok v, wn') ->
  exists changed,
    flags !! n = Some changed
    /\ if (changed : bool) then
         exists root,
           (is_root_node model n wn).1 = Ok root
           /\ if (root : bool) then
                exists a b,
                  (df_column od n wn).1 = Ok a /\ (df_column nd n wn).1 = Ok b
                  /\ v = difference_estimation_func a b
              else
                exists parents po pn tn m,
                  (get_ordered_predecessors model n wn).1 = Ok parents
                  /\ (df_columns_matrix od parents wn).1 = Ok po
                  /\ (df_columns_matrix nd parents wn).1 = Ok pn
                  /\ (df_column nd n wn).1 = Ok tn
                  /\ (causal_mechanism model n wn).1 = Ok m
                  /\ _estimate_distribution_change_score po pn tn m max num pct wn
                     = (Ok v, wn')
       else v = 0%Q /\ wn' = wn.
Proof.
  unfold score_node. intros H. inv_bind H as changed w1 Hflag.
  destruct (flags !! n) as [b|] eqn:Ef; [|discriminate].
  inversion Hflag; subst b w1; clear Hflag.
  exists changed. split; [reflexivity|]. destruct changed.
  2:{ inversion H. now split. }
  inv_bind H as root w1 Hroot.
  destruct (graph_reader_run _ _ _ _ (graph_reader_is_root_node model n) Hroot)
    as [-> Hroot'].
  exists root. split; [exact Hroot'|]. destruct root.
  - inv_bind H as a w1 Ha.
    destruct (graph_reader_run _ _ _ _ (graph_reader_df_column od n) Ha) as [-> Ha'].
    inv_bind H as b w1 Hb.
    destruct (graph_reader_run _ _ _ _ (graph_reader_df_column nd n) Hb) as [-> Hb'].
    unfold call_difference, bind, log_event, ret in H. inversion H.
    now exists a, b.
  - inv_bind H as parents w1 Hp.
    destruct (graph_reader_run _ _ _ _
                (graph_reader_get_ordered_predecessors model n) Hp) as [-> Hp'].
    inv_bind H as po w1 Hpo.
    destruct (graph_reader_run _ _ _ _
                (graph_reader_df_columns_matrix od parents) Hpo) as [-> Hpo'].
    inv_bind H as pn w1 Hpn.
    destruct (graph_reader_run _ _ _ _
                (graph_reader_df_columns_matrix nd parents) Hpn) as [-> Hpn'].
    inv_bind H as tn w1 Htn.
    destruct (graph_reader_run _ _ _ _ (graph_reader_df_column nd n) Htn)
      as [-> Htn'].
    inv_bind H as m w1 Hm.
    destruct (graph_reader_run _ _ _ _ (graph_reader_causal_mechanism model n) Hm)
      as [-> Hm'].
    now exists parents, po, pn, tn, m.
Qed.

(** The loop over the nodes: every node receives the score that the body
    of the loop returned for it. *)
Lemma scores_loop model od nd max num pct flags (w : World) ns :
  forall results0 (wa : World) results wb,
    NoDup ns -> w_graphs wa = w_graphs w ->
    for_fold
      (fun results n =>
         let* score := score_node model od nd max num pct flags n in
         ret (<[n := score]> (results : gmap node Q)))
      results0 ns wa = (Ok results, wb) ->
    forall n, n ∈ ns ->
      exists v (wn wn' : World),
        w_graphs wn = w_graphs w
        /\ score_node model od nd max num pct flags n wn = (Ok v, wn')
        /\ results !! n = Some v.
Proof.
  induction ns as [|n0 rest IH]; intros results0 wa results wb Hnd Hg H n Hn.
  - now apply elem_of_nil in Hn.
  - simpl in H. inv_bind H as results1 w1 Hbody.
    inv_bind Hbody as v0 w1' Hscore. inversion Hbody; subst results1 w1'; clear Hbody.
    apply NoDup_cons in Hnd as [Hn0 Hnd].
    assert (Hg1 : w_graphs w1 = w_graphs w).
    { pose proof (preserves_score_node model od nd max num pct flags n0 wa) as Hs.
      rewrite Hscore in Hs. unfold same_graphs in Hs. simpl in Hs. congruence. }
    apply elem_of_cons in Hn as [-> | Hn].
    + exists v0, wa, w1. split; [exact Hg|]. split; [exact Hscore|].
      assert (Hkeep : forall (ms : list node) (r0 : gmap node Q) (wx : World) r wy,
        n0 ∉ ms ->
        for_fold
          (fun results n =>
             let* score := score_node model od nd max num pct flags n in
             ret (<[n := score]> (results : gmap node Q)))
          r0 ms wx = (Ok r, wy) -> r !! n0 = r0 !! n0).
      { induction ms as [|n1 ms IHms]; intros r0 wx r wy Hnot Hf; simpl in Hf.
        - now inversion Hf.
        - inv_bind Hf as r1 wz Hb. inv_bind Hb as v1 wz' Hs1.
          inversion Hb; subst r1 wz'; clear Hb.
          apply not_elem_of_cons in Hnot as [Hne Hnot].
          rewrite (IHms _ _ _ _ Hnot Hf). now apply lookup_insert_ne. }
      rewrite (Hkeep _ _ _ _ _ Hn0 H). apply lookup_insert_eq.
    + exact (IH _ _ _ _ Hnd Hg1 H n Hn).
Qed.

(** C7.  In [estimate_distribution_change_scores] the body of the loop
    returns 0 for a node that is not flagged and leaves the world as it
    was: neither the difference estimator nor the conditional scorer is
    called.  In the scores that the function returns, a node that is not
    flagged has the score 0, a flagged root node the value of the
    difference estimator on its old and new columns, and a flagged node
    with parents the value that the conditional scorer returned for it. *)
Theorem scores_by_change_flag :
  forall model od nd max num pct alpha fdr,
    (forall flags n (w : World),
        flags !! n = Some false ->
        score_node model od nd max num pct flags n w = (Ok 0%Q, w))
    /\ (forall (w : World) nodes results w',
          graph_nodes model w = (Ok nodes, w) ->
          NoDup nodes ->
          estimate_distribution_change_scores model od nd max num pct alpha fdr w
          = (Ok results, w') ->
          exists flags w1,
            _check_significant_mechanism_change model od nd alpha fdr w
            = (Ok flags, w1)
            /\ forall n, n ∈ nodes ->
                 is_Some (flags !! n)
                 /\ (flags !! n = Some false -> results !! n = Some 0%Q)
                 /\ (flags !! n = Some true ->
                     (is_root_node model n w).1 = Ok true ->
                     exists a b,
                       (df_column od n w).1 = Ok a /\ (df_column nd n w).1 = Ok b
                       /\ results !! n = Some (difference_estimation_func a b))
                 /\ (flags !! n = Some true ->
                     (is_root_node model n w).1 = Ok false ->
                     exists parents po pn tn m (wn : World) v wn',
                       (get_ordered_predecessors model n w).1 = Ok parents
                       /\ (df_columns_matrix od parents w).1 = Ok po
                       /\ (df_columns_matrix nd parents w).1 = Ok pn
                       /\ (df_column nd n w).1 = Ok tn
                       /\ (causal_mechanism model n w).1 = Ok m
                       /\ _estimate_distribution_change_score po pn tn m max num pct wn
                          = (Ok v, wn')
                       /\ results !! n = Some v)).
Proof.
  intros model od nd max num pct alpha fdr. split.
  - intros flags n w Hf. unfold score_node, bind. now rewrite Hf.
  - intros w nodes results w' Hnodes Hnd H.
    unfold estimate_distribution_change_scores in H.
    inv_bind H as u w0 Hval.
    destruct (graph_reader_run _ _ _ _ (graph_reader_validate_causal_dag model) Hval)
      as [-> _].
    inv_bind H as flags w1 Hscreen. exists flags, w1. split; [exact Hscreen|].
    pose proof (preserves_check_significant_mechanism_change same_store
                  model od nd alpha fdr w) as [Hg1 _].
    rewrite Hscreen in Hg1. simpl in Hg1.
    inv_bind H as nodes' w2 Hnodes'.
    destruct (graph_reader_run _ _ _ _ (graph_reader_graph_nodes model) Hnodes')
      as [-> Hn'].
    rewrite (graph_reader_at _ w w1 (graph_reader_graph_nodes model) Hg1), Hnodes
      in Hn'.
    simpl in Hn'. inversion Hn'; subst nodes'; clear Hn'.
    intros n Hn.
    destruct (scores_loop model od nd max num pct flags w nodes _ _ _ _
                Hnd Hg1 H n Hn) as (v & wn & wn' & Hgn & Hscore & Hres).
    destruct (score_node_cases _ _ _ _ _ _ _ _ _ _ _ Hscore)
      as (changed & Ef & Hcase).
    split; [now exists changed|].
    split; [|split].
    + intros Ef'. rewrite Ef in Ef'. inversion Ef'; subst changed.
      destruct Hcase as [-> _]. exact Hres.
    + intros Ef' Hroot. rewrite Ef in Ef'. inversion Ef'; subst changed.
      destruct Hcase as (root & Hr & Hcase).
      rewrite (graph_reader_at _ w wn (graph_reader_is_root_node model n) Hgn),
        Hroot in Hr.
      inversion Hr; subst root. destruct Hcase as (a & b & Ha & Hb & ->).
      exists a, b.
      rewrite (graph_reader_at _ w wn (graph_reader_df_column od n) Hgn) in Ha.
      rewrite (graph_reader_at _ w wn (graph_reader_df_column nd n) Hgn) in Hb.
      now repeat split.
    + intros Ef' Hroot. rewrite Ef in Ef'. inversion Ef'; subst changed.
      destruct Hcase as (root & Hr & Hcase).
      rewrite (graph_reader_at _ w wn (graph_reader_is_root_node model n) Hgn),
        Hroot in Hr.
      inversion Hr; subst root.
      destruct Hcase as (parents & po & pn & tn & m & Hp & Hpo & Hpn & Htn & Hm & Hs).
      exists parents, po, pn, tn, m, wn, v, wn'.
      rewrite (graph_reader_at _ w wn
                 (graph_reader_get_ordered_predecessors model n) Hgn) in Hp.
      rewrite (graph_reader_at _ w wn
                 (graph_reader_df_columns_matrix od parents) Hgn) in Hpo.
      rewrite (graph_reader_at _ w wn
                 (graph_reader_df_columns_matrix nd parents) Hgn) in Hpn.
      rewrite (graph_reader_at _ w wn (graph_reader_df_column nd n) Hgn) in Htn.
      rewrite (graph_reader_at _ w wn (graph_reader_causal_mechanism model n) Hgn)
        in Hm.
      now repeat split.
Qed.

(** *** Further properties of the local scorer *)

#[local] Instance keeps_objects_stable : Stable keeps_objects.
Proof.
  split; [split; [split|]|].
  - intros w. now split.
  - intros w1 w2 w3 (G1 & M1) (G2 & M2). split.
    + intros r g Hr. apply G2, G1, Hr.
    + intros m mech Hm. apply M2, M1, Hm.
  - intros w x. now split.
  - intros w e. now split.
Qed.

#[local] Instance outside_mechanism_stable r : Stable (outside_mechanism r).
Proof.
  split; [split; [split|]|].
  - intros w. now split.
  - intros w1 w2 w3 (G1 & M1) (G2 & M2). split; [congruence|].
    intros m Hm. rewrite M2, M1 by assumption. reflexivity.
  - intros w x. now split.
  - intros w e. now split.
Qed.

Lemma mechanism_clone_run m (w : World) mech :
  w_mechs w !! m = Some mech ->
  mechanism_clone m w
  = (Ok (fresh (dom (w_mechs w))),
     mkWorld (w_rng w) (w_graphs w)
       (<[fresh (dom (w_mechs w)) := mech]> (w_mechs w))
       (w_log w ++ [EvClone m (fresh (dom (w_mechs w)))])).
Proof.
  intros H. unfold mechanism_clone, bind, read_mechanism. now rewrite H.
Qed.

Lemma mechanism_clone_raise m (w : World) e w' :
  mechanism_clone m w = (Raise e, w') -> w' = w.
Proof.
  unfold mechanism_clone, bind, read_mechanism.
  destruct (w_mechs w !! m); [discriminate|]. now intros [= _ <-].
Qed.

Lemma mechanism_fit_run m training (w : World) mech :
  w_mechs w !! m = Some mech ->
  mechanism_fit m training w
  = (Ok tt,
     mkWorld (w_rng w) (w_graphs w)
       (<[m := mkMechanism (mech_family mech) (Some training)]> (w_mechs w))
       (w_log w ++ [EvFit m training])).
Proof.
  intros H. unfold mechanism_fit, bind, read_mechanism, log_event. now rewrite H.
Qed.

Lemma mechanism_fit_outside m training :
  preserves (outside_mechanism m) (mechanism_fit m training).
Proof.
  intros w. unfold mechanism_fit, bind, read_mechanism, log_event.
  destruct (w_mechs w !! m); simpl; [|reflexivity].
  split; [reflexivity|]. intros m' Hm'. simpl. now apply lookup_insert_ne.
Qed.

(** The local scorer changes no object that exists: what it refits is the
    clone it has just made. *)
Lemma estimate_distribution_change_score_keeps po pn tn m max num pct :
  preserves keeps_objects
    (_estimate_distribution_change_score po pn tn m max num pct).
Proof.
  intros w. unfold _estimate_distribution_change_score. unfold bind at 1.
  destruct (mechanism_clone m w) as [[r|e] w1] eqn:E.
  2:{ apply mechanism_clone_raise in E. subst. reflexivity. }
  assert (Hr : r = fresh (dom (w_mechs w))
               /\ w_graphs w1 = w_graphs w
               /\ forall m', m' <> r -> w_mechs w1 !! m' = w_mechs w !! m').
  { unfold mechanism_clone, bind, read_mechanism in E.
    destruct (w_mechs w !! m); [|discriminate].
    inversion E; subst; clear E. simpl.
    split; [reflexivity|]. split; [reflexivity|].
    intros m' Hm'. now apply lookup_insert_ne. }
  destruct Hr as (Hr & Hg1 & Hm1).
  match goal with
  | |- keeps_objects w (?c w1).2 =>
      assert (Hc : preserves (outside_mechanism r) c)
  end.
  { unfold divide_by_runs.
    repeat lazymatch goal with
      | |- preserves _ (bind _ _) =>
          refine (preserves_bind (outside_mechanism r) _ _ _ _);
          [|intros ?; cbv beta]
      | |- preserves _ (mechanism_fit _ _) => apply mechanism_fit_outside
      | |- preserves _ (score_loop _ _ _ _ _ _ _) =>
          apply preserves_score_loop; exact _
      | |- preserves _ _ => solve [preserves_tac]
      end. }
  destruct (Hc w1) as (Hg2 & Hm2).
  assert (Hfresh : w_mechs w !! r = None).
  { rewrite Hr. apply not_elem_of_dom, is_fresh. }
  split.
  - intros r' g Hg. rewrite Hg2, Hg1. exact Hg.
  - intros m' mech Hm'. rewrite Hm2, Hm1; [exact Hm'| |]; intros ->; congruence.
Qed.

Lemma score_node_keeps model od nd max num pct flags n :
  preserves keeps_objects (score_node model od nd max num pct flags n).
Proof.
  unfold score_node.
  repeat lazymatch goal with
    | |- preserves _ (bind _ _) =>
        refine (preserves_bind keeps_objects _ _ _ _); [|intros ?; cbv beta]
    | |- preserves _ (_estimate_distribution_change_score _ _ _ _ _ _ _) =>
        apply estimate_distribution_change_score_keeps
    | |- preserves _ (if ?b then _ else _) => destruct b
    | |- preserves _ _ => solve [preserves_tac]
    end.
Qed.

(** X1.  [estimate_distribution_change_scores] leaves the causal model it is given
    as it was.  Whatever the call returns or raises, every graph object and
    every mechanism object that existed before the call is unchanged after
    it: the mechanism that the scorer of a node refits on the new data is a
    clone made for that purpose. *)
Theorem estimate_distribution_change_scores_keeps_model :
  forall model od nd max num pct alpha fdr (w : World),
    let w' :=
      (estimate_distribution_change_scores model od nd max num pct alpha fdr w).2 in
    (forall r g, w_graphs w !! r = Some g -> w_graphs w' !! r = Some g)
    /\ (forall m mech, w_mechs w !! m = Some mech -> w_mechs w' !! m = Some mech)
    /\ (forall n m mech,
          (causal_mechanism model n w).1 = Ok m ->
          w_mechs w !! m = Some mech ->
          (causal_mechanism model n w').1 = Ok m
          /\ w_mechs w' !! m = Some mech).
Proof.
  intros model od nd max num pct alpha fdr w w'.
  assert (H : preserves keeps_objects
                (estimate_distribution_change_scores model od nd max num pct
                   alpha fdr)).
  { unfold estimate_distribution_change_scores.
    repeat lazymatch goal with
      | |- preserves _ (bind _ _) =>
          refine (preserves_bind keeps_objects _ _ _ _); [|intros ?; cbv beta]
      | |- preserves _ (for_fold _ _ _) =>
          refine (preserves_for_fold keeps_objects _ _ _ _); intros ? ?; cbv beta
      | |- preserves _ (score_node _ _ _ _ _ _ _ _) => apply score_node_keeps
      | |- preserves _ _ => solve [preserves_tac]
      end. }
  destruct (H w) as [Hg Hm]. fold w' in Hg, Hm.
  split; [exact Hg|]. split; [exact Hm|].
  intros n m mech Hn Hmech. split; [|exact (Hm _ _ Hmech)].
  revert Hn. unfold causal_mechanism, node_attrs, read_graph, bind.
  destruct (w_graphs w !! h_ref model) as [g|] eqn:E; [|discriminate].
  rewrite (Hg _ _ E).
  destruct (bool_decide _); simpl; [|discriminate].
  unfold of_option. now destruct (attr_causal_mechanism _).
Qed.

(** *** The evaluation pool of the local scorer *)

Lemma rows_of_shape_into_2d a : length (rows_of (shape_into_2d a)) = shape0 a.
Proof. destruct a; simpl; [apply length_fmap | reflexivity]. Qed.

Lemma np_vstack_2d_run a b (w : World) :
  ncols_2d a = ncols_2d b ->
  np_vstack (shape_into_2d a) (shape_into_2d b) w
  = (Ok (Arr2 (ncols_2d a)
           (rows_of (shape_into_2d a) ++ rows_of (shape_into_2d b))), w).
Proof.
  intros H. unfold np_vstack.
  destruct a, b; simpl in *; subst; now rewrite ?Nat.eqb_refl.
Qed.

Lemma np_vstack_2d a b (w : World) joint w' :
  np_vstack (shape_into_2d a) (shape_into_2d b) w = (Ok joint, w') ->
  w' = w
  /\ exists rows,
       joint = Arr2 (ncols_2d a) rows /\ length rows = shape0 a + shape0 b.
Proof.
  intros H.
  assert (Hc : ncols_2d a = ncols_2d b).
  { unfold np_vstack in H.
    destruct a, b; cbn -[Nat.eqb] in H |- *;
      lazymatch type of H with
      | context [Nat.eqb ?x ?y] =>
          destruct (Nat.eqb_spec x y); [assumption | discriminate]
      end. }
  rewrite (np_vstack_2d_run _ _ _ Hc) in H. inversion H; subst.
  split; [reflexivity|]. eexists. split; [reflexivity|].
  now rewrite length_app, !rows_of_shape_into_2d.
Qed.

Lemma take_rows_arr2 c rows idx (w : World) sel w' :
  take_rows (Arr2 c rows) idx w = (Ok sel, w') ->
  w' = w /\ exists rows', sel = Arr2 c rows' /\ length rows' = length idx.
Proof.
  unfold take_rows.
  destruct (mapM (fun i => rows !! i) idx) as [rows'|] eqn:E; simpl;
    [|discriminate].
  intros [= <- <-]. split; [reflexivity|]. exists rows'.
  split; [reflexivity|]. symmetry. now apply length_mapM in E.
Qed.

Lemma take_rows_arr2_run c rows idx (w : World) :
  Forall (fun i => i < length rows) idx ->
  exists rows',
    take_rows (Arr2 c rows) idx w = (Ok (Arr2 c rows'), w)
    /\ length rows' = length idx.
Proof.
  intros H.
  assert (Hs : is_Some (mapM (fun i => rows !! i) idx)).
  { apply mapM_is_Some. eapply Forall_impl; [exact H|].
    intros i Hi. now apply lookup_lt_is_Some. }
  destruct Hs as [rows' E]. exists rows'. unfold take_rows. rewrite E.
  split; [reflexivity|]. symmetry. now apply length_mapM in E.
Qed.

(** The local scorer up to its loop: the clone is made and fitted on the
    new data, the parent rows are pooled and the indices are drawn. *)
Lemma local_scorer_run po pn tn m max num pct (w : World) mech :
  w_mechs w !! m = Some mech ->
  ncols_2d po = ncols_2d pn ->
  let clone := fresh (dom (w_mechs w)) in
  let training := mkTrainingSet (shape_into_2d pn) (Some (shape_into_2d tn)) in
  let rows := rows_of (shape_into_2d po) ++ rows_of (shape_into_2d pn) in
  let size := Nat.min (length rows) max in
  let drawn := np_random_choice (length rows) size (w_rng w) in
  _estimate_distribution_change_score po pn tn m max num pct w
  = (let* pool := take_rows (Arr2 (ncols_2d po) rows) drawn.1 in
     let* state := score_loop m clone num pct (rows_of pool) 0%Q 0 in
     divide_by_runs state.1 state.2)
      (mkWorld drawn.2 (w_graphs w)
         (<[clone := mkMechanism (mech_family mech) (Some training)]>
            (<[clone := mech]> (w_mechs w)))
         (w_log w
          ++ [EvClone m clone; EvFit clone training;
              EvChoice (length rows) size])).
Proof.
  intros Hm Hc clone training rows size drawn.
  unfold _estimate_distribution_change_score.
  rewrite (bind_ok _ _ _ _ _ (mechanism_clone_run _ _ _ Hm)).
  fold clone.
  erewrite bind_ok by (apply mechanism_fit_run; simpl; apply lookup_insert_eq).
  erewrite bind_ok by (apply np_vstack_2d_run; exact Hc).
  erewrite bind_ok by apply random_choice_run.
  simpl. rewrite <- !app_assoc. reflexivity.
Qed.

Lemma mechanism_draw_samples_run m parents (w : World) mech :
  w_mechs w !! m = Some mech ->
  mechanism_draw_samples m parents w
  = (Ok (mechanism_sampler mech parents (w_rng w)).1,
     mkWorld (mechanism_sampler mech parents (w_rng w)).2 (w_graphs w)
       (w_mechs w) (w_log w ++ [EvMechanismDraw m parents])).
Proof.
  intros H. unfold mechanism_draw_samples, bind, read_mechanism, log_event,
    with_rng. rewrite H. simpl. now destruct (mechanism_sampler _ _ _).
Qed.

Lemma row_difference_run orig new num row (w : World) mo mn :
  w_mechs w !! orig = Some mo -> w_mechs w !! new = Some mn ->
  exists a b w1,
    row_difference orig new num row w
    = (Ok (difference_estimation_func a b), w1)
    /\ w_mechs w1 = w_mechs w
    /\ exists later,
         w_log w1 = w_log w ++ later
         /\ differences later = [difference_estimation_func a b].
Proof.
  intros Ho Hn. unfold row_difference.
  rewrite (bind_ok _ _ _ _ _ (mechanism_draw_samples_run _ _ _ _ Ho)).
  erewrite bind_ok by (apply mechanism_draw_samples_run; exact Hn).
  unfold call_difference, bind, log_event, ret. simpl.
  eexists _, _, _. split; [reflexivity|]. split; [reflexivity|].
  eexists. rewrite <- !app_assoc. split; [reflexivity|]. reflexivity.
Qed.

(** While the running sum is zero the loop cannot stop early: with an
    estimator that sees no difference every row is processed. *)
Lemma score_loop_zero orig new num pct mo mn :
  (forall a b, (difference_estimation_func a b == 0)%Q) ->
  forall rows result run (w : World),
    (result == 0)%Q ->
    w_mechs w !! orig = Some mo -> w_mechs w !! new = Some mn ->
    exists result' w' later,
      score_loop orig new num pct rows result run w
      = (Ok (result', run + length rows), w')
      /\ (result' == 0)%Q
      /\ w_log w' = w_log w ++ later
      /\ length (differences later) = length rows.
Proof.
  intros Hzero rows. induction rows as [|row rest IH]; intros result run w Hr Ho Hn.
  - exists result, w, []. simpl. rewrite Nat.add_0_r, app_nil_r. auto.
  - destruct (row_difference_run orig new num row w mo mn Ho Hn)
      as (a & b & w1 & Hd & Hm & l1 & Hl1 & Hd1).
    rewrite (score_loop_step _ _ _ pct _ rest result run _ _ _ Hd).
    assert (Hb : early_stop_b pct result
                   (result + difference_estimation_func a b) = false).
    { unfold early_stop_b. apply Qeq_bool_iff in Hr. now rewrite Hr. }
    rewrite Hb.
    destruct (IH (result + difference_estimation_func a b)%Q (run + 1) w1)
      as (result' & w' & l2 & Hrun & Hres & Hl2 & Hd2).
    + rewrite Hr, Hzero. reflexivity.
    + now rewrite Hm.
    + now rewrite Hm.
    + exists result', w', (l1 ++ l2). rewrite Hrun. simpl.
      replace (run + 1 + length rest) with (run + S (length rest)) by lia.
      split; [reflexivity|]. split; [exact Hres|].
      rewrite Hl2, Hl1, <- app_assoc. split; [reflexivity|].
      rewrite differences_app, length_app, Hd1, Hd2. reflexivity.
Qed.

(** X2.  With [max_num_evaluation_samples = 0] the local scorer clones the
    mechanism, fits the clone, asks for zero indices, and then fails on the
    final division: it raises [ZeroDivisionError] and the difference
    estimator is never called. *)
Theorem local_scorer_no_evaluation_samples :
  choice_contract np_random_choice ->
  forall po pn tn m num pct (w : World) mech,
    w_mechs w !! m = Some mech ->
    ncols_2d po = ncols_2d pn ->
    let run := _estimate_distribution_change_score po pn tn m 0 num pct w in
    let clone := fresh (dom (w_mechs w)) in
    run.1 = Raise ZeroDivisionError
    /\ log_since w run.2
       = [EvClone m clone;
          EvFit clone (mkTrainingSet (shape_into_2d pn) (Some (shape_into_2d tn)));
          EvChoice (shape0 po + shape0 pn) 0].
Proof.
  intros Hchoice po pn tn m num pct w mech Hm Hc run clone. subst run.
  rewrite (local_scorer_run _ _ _ _ _ _ _ _ _ Hm Hc).
  rewrite Nat.min_0_r.
  set (rows := rows_of (shape_into_2d po) ++ rows_of (shape_into_2d pn)).
  destruct (Hchoice (length rows) 0 (w_rng w)) as (Hlen & _ & _); [lia|].
  apply nil_length_inv in Hlen. rewrite Hlen.
  unfold take_rows, bind. simpl.
  split; [reflexivity|].
  unfold log_since. simpl. rewrite drop_app_length.
  subst rows. now rewrite length_app, !rows_of_shape_into_2d.
Qed.

(** X3.  The local scorer evaluates at most [max_num_evaluation_samples] rows,
    and at most as many as the old and the new parent data have together:
    on a run that returns, the difference estimator has been called at most
    [min (rows of both parent arrays) max_num_evaluation_samples] times. *)
Theorem local_scorer_pool_bound :
  choice_contract np_random_choice ->
  forall po pn tn m max num pct (w : World) v w',
    _estimate_distribution_change_score po pn tn m max num pct w = (Ok v, w') ->
    length (differences (log_since w w'))
    <= Nat.min (shape0 po + shape0 pn) max.
Proof.
  intros Hchoice po pn tn m max num pct w v w' H.
  unfold _estimate_distribution_change_score in H.
  inv_bind H as new w1 Hclone. apply mechanism_clone_log in Hclone.
  inv_bind H as u w2 Hfit. apply mechanism_fit_log in Hfit.
  inv_bind H as joint w3 Hstack.
  apply np_vstack_2d in Hstack as (-> & rows & -> & Hrows).
  inv_bind H as idx w4 Hidx. rewrite random_choice_run in Hidx.
  inversion Hidx; subst idx w4; clear Hidx.
  inv_bind H as pool w5 Htake.
  apply take_rows_arr2 in Htake as (-> & rows' & -> & Hlen).
  inv_bind H as state w6 Hloop. destruct state as [result run].
  destruct (score_loop_spec _ _ _ _ _ _ _ _ _ _ _ Hloop)
    as (ds & later & Hlog & Hds & _ & _ & Hle & _).
  simpl in Hlog, Hle, Hlen. unfold divide_by_runs in H. simpl in H.
  destruct (Nat.eqb run 0); [discriminate|].
  inversion H; subst v w6; clear H.
  rewrite Hfit, Hclone, <- !app_assoc in Hlog.
  rewrite (log_since_app _ _ _ Hlog). simpl.
  change (omap _ later) with (differences later).
  rewrite Hds. simpl in Hlen.
  destruct (Hchoice (length rows) (Nat.min (length rows) max) (w_rng w2))
    as (Hsize & _ & _); [lia|].
  rewrite Hsize, Hrows in Hlen. change (length ds <= length rows') in Hle. lia.
Qed.

(** X4.  When the difference estimator sees no difference, the local scorer
    never stops early: it returns the score zero after calling the estimator
    on every row of its evaluation pool, that is
    [min (rows of both parent arrays) max_num_evaluation_samples] times. *)
Theorem local_scorer_zero_differences :
  choice_contract np_random_choice ->
  (forall a b, (difference_estimation_func a b == 0)%Q) ->
  forall po pn tn m max num pct (w : World) mech,
    w_mechs w !! m = Some mech ->
    ncols_2d po = ncols_2d pn ->
    0 < Nat.min (shape0 po + shape0 pn) max ->
    exists v w',
      _estimate_distribution_change_score po pn tn m max num pct w = (Ok v, w')
      /\ (v == 0)%Q
      /\ length (differences (log_since w w'))
         = Nat.min (shape0 po + shape0 pn) max.
Proof.
  intros Hchoice Hzero po pn tn m max num pct w mech Hm Hc Hpos.
  rewrite (local_scorer_run _ _ _ _ _ _ _ _ _ Hm Hc).
  set (rows := rows_of (shape_into_2d po) ++ rows_of (shape_into_2d pn)) in *.
  assert (Hrows : length rows = shape0 po + shape0 pn).
  { subst rows. now rewrite length_app, !rows_of_shape_into_2d. }
  set (clone := fresh (dom (w_mechs w))).
  set (training := mkTrainingSet _ _).
  destruct (Hchoice (length rows) (Nat.min (length rows) max) (w_rng w))
    as (Hsize & _ & Hlt); [lia|].
  set (drawn := np_random_choice _ _ _) in *.
  set (w3 := mkWorld _ _ _ _).
  destruct (take_rows_arr2_run (ncols_2d po) rows drawn.1 w3 Hlt)
    as (rows' & Htake & Hlen).
  rewrite (bind_ok _ _ _ _ _ Htake). simpl rows_of.
  assert (Hclone_fresh : w_mechs w !! clone = None).
  { apply not_elem_of_dom, is_fresh. }
  destruct (score_loop_zero m clone num pct mech
              (mkMechanism (mech_family mech) (Some training)) Hzero
              rows' 0%Q 0 w3) as (result & w' & later & Hloop & Hres & Hlog & Hn).
  - reflexivity.
  - subst w3. simpl. rewrite !lookup_insert_ne; [exact Hm| |]; intros <-; congruence.
  - subst w3. simpl. apply lookup_insert_eq.
  - rewrite (bind_ok _ _ _ _ _ Hloop). simpl.
    unfold divide_by_runs.
    destruct (Nat.eqb (length rows') 0) eqn:E.
    { apply Nat.eqb_eq in E. lia. }
    eexists _, _. split; [reflexivity|]. split.
    + rewrite Hres. reflexivity.
    + subst w3. simpl in Hlog. rewrite <- app_assoc in Hlog.
      rewrite (log_since_app _ _ _ Hlog). simpl.
      change (omap _ later) with (differences later). lia.
Qed.

(** *** Requests for random indices *)

Local Abbreviation within_population :=
  (logs_only choice_within_population).

Hint Extern 1 (preserves (logs_only choice_within_population) (log_event _)) =>
  apply preserves_log_only; simpl; first [exact I | lia] : preserves.

Lemma mechanism_clone_logs_only P m :
  (forall r, P (EvClone m r)) -> preserves (logs_only P) (mechanism_clone m).
Proof.
  intros HP w. unfold mechanism_clone, bind, read_mechanism.
  destruct (w_mechs w !! m); simpl; [|reflexivity].
  eexists [_]. split; [reflexivity|]. constructor; [apply HP | constructor].
Qed.

Lemma mechanism_fit_logs_only P m training :
  P (EvFit m training) -> preserves (logs_only P) (mechanism_fit m training).
Proof.
  intros HP w. unfold mechanism_fit, bind, read_mechanism, log_event.
  destruct (w_mechs w !! m); simpl; [|reflexivity].
  eexists [_]. split; [reflexivity|]. constructor; [apply HP | constructor].
Qed.

Lemma screener_within_population graph old_data new_data alpha fdr :
  preserves within_population
    (_check_significant_mechanism_change graph old_data new_data alpha fdr).
Proof.
  unfold _check_significant_mechanism_change, call_multipletests, node_p_value,
    mechanism_change_test, random_choice, call_independence_test,
    call_conditional_independence_test.
  preserves_tac.
Qed.

Lemma fit_within_population model n data :
  preserves within_population (fit_causal_model_of_target model n data).
Proof.
  unfold fit_causal_model_of_target, training_set.
  repeat lazymatch goal with
    | |- preserves _ (bind _ _) =>
        refine (preserves_bind within_population _ _ _ _); [|intros ?; cbv beta]
    | |- preserves _ (mechanism_fit _ _) =>
        apply mechanism_fit_logs_only; exact I
    | |- preserves _ _ => solve [preserves_tac]
    end.
Qed.

Lemma score_loop_within_population orig new num pct rows result run :
  preserves within_population (score_loop orig new num pct rows result run).
Proof.
  revert result run. induction rows as [|row rest IH]; intros result run; simpl.
  - apply preserves_ret. exact _.
  - refine (preserves_bind within_population _ _ _ _).
    + unfold row_difference, mechanism_draw_samples, call_difference.
      preserves_tac.
    + intros d. cbv beta.
      destruct (negb (Qeq_bool result 0) && _);
        [apply preserves_ret; exact _ | apply IH].
Qed.

Lemma local_scorer_within_population po pn tn m max num pct :
  preserves within_population
    (_estimate_distribution_change_score po pn tn m max num pct).
Proof.
  unfold _estimate_distribution_change_score, divide_by_runs, random_choice.
  repeat lazymatch goal with
    | |- preserves _ (bind _ _) =>
        refine (preserves_bind within_population _ _ _ _); [|intros ?; cbv beta]
    | |- preserves _ (mechanism_clone _) =>
        apply mechanism_clone_logs_only; intros ?; exact I
    | |- preserves _ (mechanism_fit _ _) =>
        apply mechanism_fit_logs_only; exact I
    | |- preserves _ (score_loop _ _ _ _ _ _ _) =>
        apply score_loop_within_population
    | |- preserves _ _ => solve [preserves_tac]
    end.
Qed.

(** X5.  Every request for random indices asks for no more indices than the
    population has, so that sampling without replacement is always
    possible.  This holds for each call of [np.random.choice] made in a run
    of [estimate_distribution_change_scores] or of
    [_fit_accounting_for_mechanism_change], whether the run returns or
    raises: the tester draws [min(n_old, n_new)] indices out of [n_old] and
    out of [n_new], the local scorer [min(pool, max)] out of [pool]. *)
Theorem choice_requests_within_population :
  forall (w : World),
    (forall model od nd max num pct alpha fdr,
        exists later,
          w_log (estimate_distribution_change_scores model od nd max num pct
                   alpha fdr w).2 = w_log w ++ later
          /\ forall population size,
               EvChoice population size ∈ later -> size <= population)
    /\ (forall old new od nd alpha fdr,
          exists later,
            w_log (_fit_accounting_for_mechanism_change old new od nd alpha fdr
                     w).2 = w_log w ++ later
            /\ forall population size,
                 EvChoice population size ∈ later -> size <= population).
Proof.
  assert (H1 : forall model od nd max num pct alpha fdr,
             preserves within_population
               (estimate_distribution_change_scores model od nd max num pct
                  alpha fdr)).
  { intros model od nd max num pct alpha fdr.
    unfold estimate_distribution_change_scores, score_node, call_difference.
    repeat lazymatch goal with
      | |- preserves _ (bind _ _) =>
          refine (preserves_bind within_population _ _ _ _); [|intros ?; cbv beta]
      | |- preserves _ (for_fold _ _ _) =>
          refine (preserves_for_fold within_population _ _ _ _);
          intros ? ?; cbv beta
      | |- preserves _ (_check_significant_mechanism_change _ _ _ _ _) =>
          apply screener_within_population
      | |- preserves _ (_estimate_distribution_change_score _ _ _ _ _ _ _) =>
          apply local_scorer_within_population
      | |- preserves _ (if ?b then _ else _) => destruct b
      | |- preserves _ _ => solve [preserves_tac]
      end. }
  assert (H2 : forall old new od nd alpha fdr,
             preserves within_population
               (_fit_accounting_for_mechanism_change old new od nd alpha fdr)).
  { intros old new od nd alpha fdr.
    unfold _fit_accounting_for_mechanism_change, refit_node.
    repeat lazymatch goal with
      | |- preserves _ (bind _ _) =>
          refine (preserves_bind within_population _ _ _ _); [|intros ?; cbv beta]
      | |- preserves _ (for_each _ _) =>
          refine (preserves_for_each within_population _ _ _); intros ?; cbv beta
      | |- preserves _ (_check_significant_mechanism_change _ _ _ _ _) =>
          apply screener_within_population
      | |- preserves _ (fit_causal_model_of_target _ _ _) =>
          apply fit_within_population
      | |- preserves _ (if ?b then _ else _) => destruct b
      | |- preserves _ _ => solve [preserves_tac]
      end. }
  intros w. split.
  - intros model od nd max num pct alpha fdr.
    destruct (H1 model od nd max num pct alpha fdr w) as (later & Hlog & Hall).
    exists later. split; [exact Hlog|]. intros population size Hin.
    rewrite Forall_forall in Hall. exact (Hall _ Hin).
  - intros old new od nd alpha fdr.
    destruct (H2 old new od nd alpha fdr w) as (later & Hlog & Hall).
    exists later. split; [exact Hlog|]. intros population size Hin.
    rewrite Forall_forall in Hall. exact (Hall _ Hin).
Qed.

(** *** The tester on the columns of a node *)

(** The tester up to the stacking of the target rows. *)
Lemma tester_prefix t_old t_new (w : World) :
  choice_contract np_random_choice ->
  ncols_2d t_old = ncols_2d t_new ->
  let n := Nat.min (shape0 t_old) (shape0 t_new) in
  let oi := np_random_choice (shape0 t_old) n (w_rng w) in
  let ni := np_random_choice (shape0 t_new) n oi.2 in
  let drawn :=
    mkWorld ni.2 (w_graphs w) (w_mechs w)
      (w_log w ++ [EvChoice (shape0 t_old) n; EvChoice (shape0 t_new) n]) in
  exists rows,
    length rows = 2 * n
    /\ forall (k : list nat -> list nat -> ndarray -> M Q),
         (let* original_indices := random_choice (shape0 t_old) n in
          let* new_indices := random_choice (shape0 t_new) n in
          let* selected_original := take_rows t_old original_indices in
          let* selected_new := take_rows t_new new_indices in
          let* joint := np_vstack (shape_into_2d selected_original)
                          (shape_into_2d selected_new) in
          k original_indices new_indices joint) w
         = k oi.1 ni.1 (Arr2 (ncols_2d t_old) rows) drawn.
Proof.
  intros Hchoice Hcols n oi ni w2.
  destruct (Hchoice (shape0 t_old) n (w_rng w)) as (Hlo & Hno & Hbo); [lia|].
  destruct (Hchoice (shape0 t_new) n oi.2) as (Hln & Hnn & Hbn); [lia|].
  fold oi in Hlo, Hno, Hbo. fold ni in Hln, Hnn, Hbn.
  destruct (take_rows_2d t_old oi.1 w2 Hbo) as (so & ro & Eo & So & Fo).
  destruct (take_rows_2d t_new ni.1 w2 Hbn) as (sn & rn & En & Sn & Fn).
  exists (ro ++ rn). split.
  { rewrite length_app, <- (Forall2_length _ _ _ Fo), <- (Forall2_length _ _ _ Fn).
    lia. }
  intros k.
  rewrite (bind_ok _ _ _ _ _ (random_choice_run _ _ _)). fold oi.
  rewrite (bind_ok _ _ _ _ _ (random_choice_run _ _ _)). simpl. fold ni.
  rewrite <- app_assoc. simpl. fold w2.
  rewrite (bind_ok _ _ _ _ _ Eo), (bind_ok _ _ _ _ _ En).
  rewrite So, Sn.
  unfold np_vstack at 1. simpl. rewrite Hcols, Nat.eqb_refl.
  reflexivity.
Qed.

Lemma take_rows_out_of_range a idx (w : World) i :
  i ∈ idx -> shape0 a <= i -> take_rows a idx w = (Raise IndexError, w).
Proof.
  intros Hin Hle. unfold take_rows.
  destruct a as [xs|c rows]; simpl in Hle.
  - assert (E : mapM (fun i => xs !! i) idx = None).
    { apply mapM_None_2, Exists_exists. exists i. split; [exact Hin|].
      now apply lookup_ge_None_2. }
    now rewrite E.
  - assert (E : mapM (fun i => rows !! i) idx = None).
    { apply mapM_None_2, Exists_exists. exists i. split; [exact Hin|].
      now apply lookup_ge_None_2. }
    now rewrite E.
Qed.

(** Distinct indices below [n], [n] of them, are all the indices below
    [n]. *)
Lemma all_indices_drawn (l : list nat) n :
  NoDup l -> length l = n -> Forall (fun i => i < n) l ->
  forall j, j < n -> j ∈ l.
Proof.
  intros Hnd Hlen Hlt j Hj.
  assert (Hsub : l ⊆+ seq 0 n).
  { apply NoDup_submseteq; [exact Hnd|]. intros i Hi.
    rewrite Forall_forall in Hlt. apply elem_of_seq. specialize (Hlt i Hi). lia. }
  assert (Hperm : l ≡ₚ seq 0 n).
  { apply submseteq_length_Permutation; [exact Hsub|].
    rewrite length_seq. lia. }
  rewrite Hperm. apply elem_of_seq. lia.
Qed.


(** *** The test of one node *)

Lemma graph_reader_same {A} (c : M A) (w : World) :
  graph_reader c -> c w = ((c w).1, w).
Proof. intros Hc. now apply Hc. Qed.

Lemma df_column_run df c (w : World) :
  c ∈ df_columns df ->
  df_column df c w
  = (Ok (Arr1 ((fun row => (row : gmap node Q) !! c) <$> df_rows df)), w).
Proof.
  intros H. unfold df_column. now rewrite (bool_decide_eq_true_2 _ H).
Qed.

Lemma df_columns_matrix_run df cs (w : World) :
  (forall c, c ∈ cs -> c ∈ df_columns df) ->
  df_columns_matrix df cs w
  = (Ok (Arr2 (length cs)
           ((fun row => (fun c => (row : gmap node Q) !! c) <$> cs)
              <$> df_rows df)), w).
Proof.
  intros H. unfold df_columns_matrix.
  assert (E : filter (fun c => c ∉ df_columns df) cs = []).
  { destruct (filter (fun c => c ∉ df_columns df) cs) as [|c l] eqn:E;
      [reflexivity|].
    assert (Hc : c ∈ filter (fun c => c ∉ df_columns df) cs)
      by (rewrite E; left).
    apply list_elem_of_filter in Hc as [Hn Hc]. now destruct Hn; apply H. }
  now rewrite E.
Qed.

(** X7.  In the screener, a root node is tested with the unconditional test and
    any other node with the conditional test, on [2 k] sampled rows where
    [k] is the smaller of the two row counts: the test sees the node's
    column as a one-column matrix and, for a node with parents, a matrix
    with one column per parent and as many rows.  When the node's column
    and the columns of its parents are in both tables, sampling and
    stacking cannot fail, so that the outcome of the node is the outcome of
    its test. *)
Theorem node_p_value_calls_test :
  choice_contract np_random_choice ->
  forall graph od nd n parents (w : World),
    (get_ordered_predecessors graph n w).1 = Ok parents ->
    n ∈ df_columns od -> n ∈ df_columns nd ->
    (forall p, p ∈ parents -> p ∈ df_columns od /\ p ∈ df_columns nd) ->
    let k := Nat.min (length (df_rows od)) (length (df_rows nd)) in
    exists X Z labels (drawn : World),
      shape0 X = 2 * k /\ ncols_2d X = 1
      /\ shape0 Z = 2 * k /\ ncols_2d Z = length parents
      /\ labels = replicate k "1.0" ++ replicate k "-1.0"
      /\ w_log drawn
         = w_log w ++ [EvChoice (length (df_rows od)) k;
                       EvChoice (length (df_rows nd)) k]
      /\ node_p_value graph od nd n w
         = if bool_decide (parents = [])
           then call_independence_test X labels drawn
           else call_conditional_independence_test X labels Z drawn.
Proof.
  intros Hchoice graph od nd n parents w Hparents Hno Hnn Hcols k.
  assert (Hpred : get_ordered_predecessors graph n w = (Ok parents, w)).
  { rewrite (graph_reader_same _ w (graph_reader_get_ordered_predecessors _ _)).
    now rewrite Hparents. }
  set (t_old := Arr1 ((fun row => (row : gmap node Q) !! n) <$> df_rows od)).
  set (t_new := Arr1 ((fun row => (row : gmap node Q) !! n) <$> df_rows nd)).
  assert (Hso : shape0 t_old = length (df_rows od)) by apply length_fmap.
  assert (Hsn : shape0 t_new = length (df_rows nd)) by apply length_fmap.
  destruct (tester_prefix t_old t_new w Hchoice eq_refl) as (rows & Hrows & Hprefix).
  rewrite Hso, Hsn in Hrows, Hprefix. fold k in Hrows, Hprefix.
  set (oi := np_random_choice (length (df_rows od)) k (w_rng w)) in *.
  set (ni := np_random_choice (length (df_rows nd)) k oi.2) in *.
  set (drawn := mkWorld _ _ _ _) in Hprefix.
  destruct (Hchoice (length (df_rows od)) k (w_rng w)) as (Hlo & _ & Hbo);
    [lia|].
  destruct (Hchoice (length (df_rows nd)) k oi.2) as (Hln & _ & Hbn); [lia|].
  fold oi in Hlo, Hbo. fold ni in Hln, Hbn.
  set (p_old := Arr2 (length parents)
                  ((fun row => (fun c => (row : gmap node Q) !! c) <$> parents)
                     <$> df_rows od)).
  set (p_new := Arr2 (length parents)
                  ((fun row => (fun c => (row : gmap node Q) !! c) <$> parents)
                     <$> df_rows nd)).
  assert (Hbo' : Forall (fun i => i < shape0 p_old) oi.1).
  { simpl. now rewrite length_fmap. }
  assert (Hbn' : Forall (fun i => i < shape0 p_new) ni.1).
  { simpl. now rewrite length_fmap. }
  destruct (take_rows_2d p_old oi.1 drawn Hbo') as (spo & rpo & Epo & Spo & Fpo).
  destruct (take_rows_2d p_new ni.1 drawn Hbn') as (spn & rpn & Epn & Spn & Fpn).
  exists (Arr2 1 rows), (Arr2 (length parents) (rpo ++ rpn)),
    (replicate k "1.0" ++ replicate k "-1.0"), drawn.
  split; [exact Hrows|]. split; [reflexivity|]. split.
  { simpl. rewrite length_app, <- (Forall2_length _ _ _ Fpo),
      <- (Forall2_length _ _ _ Fpn). lia. }
  split; [reflexivity|]. split; [reflexivity|]. split; [reflexivity|].
  unfold node_p_value, is_root_node.
  rewrite (bind_ok _ _ _ _ _ (bind_ok _ _ _ _ _ Hpred)).
  destruct (bool_decide (parents = [])) eqn:Eroot.
  - erewrite bind_ok by reflexivity.
    rewrite (bind_ok _ _ _ _ _ (df_column_run _ _ _ Hno)).
    rewrite (bind_ok _ _ _ _ _ (df_column_run _ _ _ Hnn)).
    fold t_old t_new. simpl fst. simpl snd.
    unfold mechanism_change_test. cbn [is_Some_b negb andb]. cbv zeta.
    rewrite Hso, Hsn. fold k. rewrite tester_labels.
    exact (Hprefix (fun _ _ X =>
             call_independence_test X
               (replicate k "1.0" ++ replicate k "-1.0"))).
  - assert (Hod : forall c, c ∈ parents -> c ∈ df_columns od)
      by (intros c Hc; apply Hcols, Hc).
    assert (Hnd : forall c, c ∈ parents -> c ∈ df_columns nd)
      by (intros c Hc; apply Hcols, Hc).
    erewrite bind_ok.
    2:{ rewrite (bind_ok _ _ _ _ _ Hpred).
        rewrite (bind_ok _ _ _ _ _ (df_columns_matrix_run _ _ _ Hod)).
        rewrite (bind_ok _ _ _ _ _ Hpred).
        rewrite (bind_ok _ _ _ _ _ (df_columns_matrix_run _ _ _ Hnd)).
        reflexivity. }
    rewrite (bind_ok _ _ _ _ _ (df_column_run _ _ _ Hno)).
    rewrite (bind_ok _ _ _ _ _ (df_column_run _ _ _ Hnn)).
    fold t_old t_new p_old p_new. simpl fst. simpl snd.
    unfold mechanism_change_test. cbn [is_Some_b negb andb]. cbv zeta.
    rewrite Hso, Hsn. fold k. rewrite tester_labels.
    etransitivity; [exact (Hprefix (fun original_indices new_indices X =>
      let* parents_new_data := of_option (Some p_new) TypeError in
      let* selected_original_parents := take_rows p_old original_indices in
      let* selected_new_parents := take_rows parents_new_data new_indices in
      let* joint_parent_data :=
        np_vstack (shape_into_2d selected_original_parents)
                  (shape_into_2d selected_new_parents) in
      call_conditional_independence_test X
        (replicate k "1.0" ++ replicate k "-1.0") joint_parent_data))|].
    cbv beta. unfold of_option. unfold bind at 1. unfold ret at 1.
    rewrite (bind_ok _ _ _ _ _ Epo), (bind_ok _ _ _ _ _ Epn).
    rewrite Spo, Spn. unfold np_vstack at 1. simpl. rewrite Nat.eqb_refl.
    reflexivity.
Qed.

(** *** The keys of the flags *)

Lemma dict_zip_fold_is_Some {V} (ks : list node) (vs : list V) (d : gmap node V) k :
  is_Some (foldl (fun d kv => <[kv.1 := kv.2]> d) d (zip ks vs) !! k)
  <-> is_Some (d !! k) \/ k ∈ take (length vs) ks.
Proof.
  revert vs d. induction ks as [|k0 ks IH]; intros vs d.
  - simpl. rewrite take_nil. rewrite elem_of_nil.
    split; [now left | intros [H|[]]; exact H].
  - destruct vs as [|v0 vs]; simpl.
    + rewrite elem_of_nil. split; [now left | intros [H|[]]; exact H].
    + rewrite IH, lookup_insert_is_Some', elem_of_cons. simpl.
      split; [intros [[->|H]|H] | intros [H|[->|H]]]; auto.
Qed.

Lemma dict_zip_is_Some {V} (ks : list node) (vs : list V) k :
  is_Some (dict_zip ks vs !! k) <-> k ∈ take (length vs) ks.
Proof.
  unfold dict_zip. rewrite dict_zip_fold_is_Some, lookup_empty.
  split; [intros [[? H]|H]; [discriminate | exact H] | now right].
Qed.

(** What a run of the screener that returns has computed. *)
Lemma screener_run graph old_data new_data alpha fdr (w : World) nodes flags w' :
  graph_nodes graph w = (Ok nodes, w) ->
  _check_significant_mechanism_change graph old_data new_data alpha fdr w
  = (Ok flags, w') ->
  exists ps w1,
    for_each (node_p_value graph old_data new_data) nodes w = (Ok ps, w1)
    /\ length ps = length nodes
    /\ match fdr with
       | None => flags = dict_zip nodes ((fun p => Qle_bool p alpha) <$> ps)
       | Some method =>
           exists rejects,
             multipletests ps alpha method = inr rejects
             /\ flags = dict_zip nodes rejects
       end.
Proof.
  intros Hn H. pose proof H as H0.
  unfold _check_significant_mechanism_change in H0.
  inv_bind H0 as nodes' w0 Hn'. rewrite Hn in Hn'.
  inversion Hn'; subst nodes' w0; clear Hn'.
  inv_bind H0 as ps w1 Hp. clear H0.
  exists ps, w1. split; [exact Hp|].
  split; [exact (for_each_length _ _ _ _ _ Hp)|].
  rewrite (screener_after_p_values _ _ _ alpha fdr _ _ _ _ Hn Hp) in H.
  destruct fdr as [method|].
  - destruct (multipletests ps alpha method) as [e|rejects]; [discriminate|].
    exists rejects. split; [reflexivity|]. now inversion H.
  - now inversion H.
Qed.

(** X8.  The flags that the screener returns have no key but nodes of the
    graph.  Without FDR control every node has a flag.  With an FDR-control
    method the nodes that have a flag are those for which the correction has
    returned a decision: the first nodes, as many as there are decisions. *)
Theorem screener_flags_keys :
  forall graph old_data new_data alpha fdr (w : World) nodes flags w',
    graph_nodes graph w = (Ok nodes, w) ->
    _check_significant_mechanism_change graph old_data new_data alpha fdr w
    = (Ok flags, w') ->
    (forall n, is_Some (flags !! n) -> n ∈ nodes)
    /\ match fdr with
       | None => forall n, n ∈ nodes -> is_Some (flags !! n)
       | Some method =>
           exists ps rejects,
             length ps = length nodes
             /\ multipletests ps alpha method = inr rejects
             /\ forall n,
                  is_Some (flags !! n) <-> n ∈ take (length rejects) nodes
       end.
Proof.
  intros graph od nd alpha fdr w nodes flags w' Hn H.
  destruct (screener_run _ _ _ _ _ _ _ _ _ Hn H) as (ps & w1 & _ & Hlen & Hflags).
  destruct fdr as [method|].
  - destruct Hflags as (rejects & Hm & ->). split.
    + intros n Hs. apply dict_zip_is_Some in Hs.
      exact (subseteq_take _ _ _ Hs).
    + exists ps, rejects. split; [exact Hlen|]. split; [exact Hm|].
      intros n. apply dict_zip_is_Some.
  - subst flags. split.
    + intros n Hs. apply dict_zip_is_Some in Hs.
      exact (subseteq_take _ _ _ Hs).
    + intros n Hin. apply dict_zip_is_Some.
      rewrite take_ge by (rewrite length_fmap; lia). exact Hin.
Qed.

(** *** What the refit changes *)

#[local] Instance refits_only_stable : Stable refits_only.
Proof.
  split; [split; [split|]|].
  - intros w. now split.
  - intros w1 w2 w3 (G1 & M1) (G2 & M2). split; [congruence|].
    intros m. now rewrite M2, M1.
  - intros w x. now split.
  - intros w e. now split.
Qed.

Lemma mechanism_fit_refits_only m training :
  preserves refits_only (mechanism_fit m training).
Proof.
  intros w. unfold mechanism_fit, bind, read_mechanism, log_event.
  destruct (w_mechs w !! m) as [mech|] eqn:E; simpl; [|reflexivity].
  split; [reflexivity|]. intros m'. simpl.
  destruct (decide (m' = m)) as [->|Hne].
  - now rewrite lookup_insert_eq, E.
  - now rewrite lookup_insert_ne by congruence.
Qed.

Lemma fit_accounting_refits_only old new old_data new_data alpha fdr :
  preserves refits_only
    (_fit_accounting_for_mechanism_change old new old_data new_data alpha fdr).
Proof.
  unfold _fit_accounting_for_mechanism_change, refit_node,
    fit_causal_model_of_target, training_set.
  repeat lazymatch goal with
    | |- preserves _ (bind _ _) =>
        refine (preserves_bind refits_only _ _ _ _); [|intros ?; cbv beta]
    | |- preserves _ (for_each _ _) =>
        refine (preserves_for_each refits_only _ _ _); intros ?; cbv beta
    | |- preserves _ (mechanism_fit _ _) => apply mechanism_fit_refits_only
    | |- preserves _ (if ?b then _ else _) => destruct b
    | |- preserves _ _ => solve [preserves_tac]
    end.
Qed.


Lemma training_set_same_parents a b n data (w : World) :
  (get_ordered_predecessors a n w).1 = (get_ordered_predecessors b n w).1 ->
  (training_set a n data w).1 = (training_set b n data w).1.
Proof.
  intros H. unfold training_set.
  pose proof (graph_reader_same _ w (graph_reader_get_ordered_predecessors a n))
    as Ha.
  pose proof (graph_reader_same _ w (graph_reader_get_ordered_predecessors b n))
    as Hb.
  rewrite H in Ha.
  destruct ((get_ordered_predecessors b n w).1) as [parents|e].
  - now rewrite (bind_ok _ _ _ _ _ Ha), (bind_ok _ _ _ _ _ Hb).
  - now rewrite (bind_raise _ _ _ _ _ Ha), (bind_raise _ _ _ _ _ Hb).
Qed.

(** X10.  After the refit, a node that is not flagged as changed has the same
    mechanism in both models, when it had the same model family and has the
    same parents in both: the two mechanism objects are distinct, and both
    are in the state that the fit on the node's columns of the pooled data
    leaves.  The graphs have the same distinct nodes and share no mechanism
    object. *)
Theorem refit_unchanged_node_same_mechanism :
  forall old new old_data new_data alpha fdr (w : World)
         nodes mechs_old mechs_new flags w',
    graph_nodes old w = (Ok nodes, w) ->
    graph_nodes new w = (Ok nodes, w) ->
    NoDup nodes ->
    for_each (causal_mechanism old) nodes w = (Ok mechs_old, w) ->
    for_each (causal_mechanism new) nodes w = (Ok mechs_new, w) ->
    NoDup (mechs_old ++ mechs_new) ->
    _fit_accounting_for_mechanism_change old new old_data new_data alpha fdr w
    = (Ok flags, w') ->
    forall n mo mn mecho mechn,
      n ∈ nodes -> flags !! n = Some false ->
      (get_ordered_predecessors old n w).1 = (get_ordered_predecessors new n w).1 ->
      (causal_mechanism old n w).1 = Ok mo ->
      (causal_mechanism new n w).1 = Ok mn ->
      w_mechs w !! mo = Some mecho -> w_mechs w !! mn = Some mechn ->
      mech_family mecho = mech_family mechn ->
      mo <> mn
      /\ w_mechs w' !! mo = w_mechs w' !! mn
      /\ exists training,
           (training_set old n (pd_concat old_data new_data) w).1 = Ok training
           /\ w_mechs w' !! mo
              = Some (mkMechanism (mech_family mecho) (Some training)).
Proof.
  intros old new old_data new_data alpha fdr w nodes mechs_old mechs_new flags w'
    Hno Hnn Hnd Hmo Hmn Hms H n mo mn mecho mechn Hn Hflag Hparents
    Eo En Emo Emn Hfam.
  destruct (fit_accounting_refits_only old new old_data new_data alpha fdr w)
    as [Hgraphs Hfamily].
  rewrite H in Hgraphs, Hfamily. simpl in Hgraphs, Hfamily.
  unfold _fit_accounting_for_mechanism_change in H.
  inv_bind H as flags0 w1 Hscreen. cbv zeta in H.
  inv_bind H as nodes' w2 Hnodes. inv_bind H as us w3 Hloop.
  inversion H; subst flags0 w3; clear H.
  pose proof (preserves_check_significant_mechanism_change same_store
                old old_data new_data alpha fdr w) as [Hg1 _].
  rewrite Hscreen in Hg1. simpl in Hg1.
  destruct (graph_reader_run _ _ _ _ (graph_reader_graph_nodes new) Hnodes)
    as [-> Hnodes'].
  rewrite (graph_reader_at _ w w1 (graph_reader_graph_nodes new) Hg1), Hnn
    in Hnodes'.
  simpl in Hnodes'. inversion Hnodes'; subst nodes'; clear Hnodes'.
  pose proof (unshared_of_lists old new nodes w _ _ Hnd Hmo Hmn Hms) as Hun.
  destruct (refit_loop old new old_data new_data flags w nodes Hun nodes
              w1 w' us (fun n Hn => Hn) Hnd Hg1 Hloop)
    as (Gb & _ & _ & Hpost).
  destruct (Hpost n Hn) as (changed & Ef & Fo & Fn).
  rewrite Hflag in Ef. inversion Ef; subst changed; clear Ef.
  simpl in Fo, Fn.
  destruct Fo as (mo' & tso & mecho' & Eo' & Etso & Hmo' & Hfo).
  destruct Fn as (mn' & tsn & mechn' & En' & Etsn & Hmn' & Hfn).
  rewrite (graph_reader_at _ w w' (graph_reader_causal_mechanism old n) Gb), Eo
    in Eo'.
  rewrite (graph_reader_at _ w w' (graph_reader_causal_mechanism new n) Gb), En
    in En'.
  inversion Eo'; subst mo'; clear Eo'. inversion En'; subst mn'; clear En'.
  rewrite (graph_reader_at _ w w' (graph_reader_training_set old n _) Gb) in Etso.
  rewrite (graph_reader_at _ w w' (graph_reader_training_set new n _) Gb) in Etsn.
  rewrite <- (training_set_same_parents old new n _ w Hparents), Etso in Etsn.
  inversion Etsn; subst tsn; clear Etsn.
  assert (Ho : mecho' = mkMechanism (mech_family mecho) (Some tso)).
  { pose proof (Hfamily mo) as Hf. rewrite Hmo', Emo in Hf. simpl in Hf.
    destruct mecho' as [fam fitted]. simpl in *. congruence. }
  assert (Hn' : mechn' = mkMechanism (mech_family mecho) (Some tso)).
  { pose proof (Hfamily mn) as Hf. rewrite Hmn', Emn in Hf. simpl in Hf.
    destruct mechn' as [fam fitted]. simpl in *. congruence. }
  destruct Hun as (_ & _ & Hon).
  split; [intros ->; exact (Hon n n mn Hn Hn Eo En)|].
  split; [rewrite Hmo', Hmn'; congruence|].
  exists tso. split; [exact Etso|]. now rewrite Hmo', Ho.
Qed.

(** X11.  A node of the new graph that the old graph does not have fails the
    refit.  The flags come from the nodes of the old graph, the loop goes
    over the nodes of the new graph: at the first node [n] without a flag
    the lookup raises [KeyError n], and the nodes before it have already
    been refitted. *)
Theorem refit_node_missing_from_old_graph :
  forall old new old_data new_data alpha fdr (w : World)
         nodes_old before n after flags w1 us w2,
    graph_nodes old w = (Ok nodes_old, w) ->
    graph_nodes new w = (Ok (before ++ n :: after), w) ->
    n ∉ nodes_old ->
    _check_significant_mechanism_change old old_data new_data alpha fdr w
    = (Ok flags, w1) ->
    for_each (refit_node old new old_data new_data (pd_concat old_data new_data)
                flags) before w1 = (Ok us, w2) ->
    _fit_accounting_for_mechanism_change old new old_data new_data alpha fdr w
    = (Raise (KeyError n), w2).
Proof.
  intros old new od nd alpha fdr w nodes_old before n after flags w1 us w2
    Hno Hnn Hnot Hscreen Hbefore.
  assert (Hflag : flags !! n = None).
  { destruct (flags !! n) as [b|] eqn:E; [|reflexivity].
    exfalso. apply Hnot.
    destruct (screener_run _ _ _ _ _ _ _ _ _ Hno Hscreen)
      as (ps & w0 & _ & _ & Hflags).
    assert (Hs : is_Some (flags !! n)) by (now exists b).
    destruct fdr as [method|].
    - destruct Hflags as (rejects & _ & ->).
      apply dict_zip_is_Some in Hs. exact (subseteq_take _ _ _ Hs).
    - subst flags. apply dict_zip_is_Some in Hs. exact (subseteq_take _ _ _ Hs). }
  pose proof (preserves_check_significant_mechanism_change same_store
                old od nd alpha fdr w) as [Hg1 _].
  rewrite Hscreen in Hg1. simpl in Hg1.
  unfold _fit_accounting_for_mechanism_change.
  rewrite (bind_ok _ _ _ _ _ Hscreen). cbv zeta.
  rewrite (bind_ok _ _ _ _ _
             (eq_trans (graph_nodes_store new w w1 Hg1)
                (f_equal (fun r => (r.1, w1)) Hnn))).
  apply bind_raise.
  eapply for_each_raises; [exact Hbefore|].
  unfold refit_node. rewrite Hflag. reflexivity.
Qed.

(** *** The attributions of [distribution_change_of_graphs] *)

Lemma attributions_fold_keys (attributions : list Q) nodes :
  forall k (d : gmap node Q) (w : World) d' w',
    for_fold
      (fun d ix =>
         let* a := of_option (attributions !! ix.1) IndexError in
         (ret (<[ix.2 := a]> (d : gmap node Q)) : M (gmap node Q)))
      d (imap (fun i n => (k + i, n)) nodes) w = (Ok d', w') ->
    forall n, is_Some (d' !! n) <-> is_Some (d !! n) \/ n ∈ nodes.
Proof.
  induction nodes as [|n0 rest IH]; intros k d w d' w' H n.
  - inversion H; subst d' w'. rewrite elem_of_nil.
    split; [now left | intros [Hs|[]]; exact Hs].
  - rewrite imap_cons in H. simpl in H.
    inv_bind H as d1 w1 Hstep. inv_bind Hstep as a w2 Ha.
    inversion Hstep; subst d1 w1; clear Hstep.
    rewrite (imap_ext _ (fun i n => (S k + i, n))) in H
      by (intros i x _; simpl; f_equal; lia).
    rewrite (IH _ _ _ _ _ H n), lookup_insert_is_Some', elem_of_cons.
    split; [intros [[->|Hs]|Hr] | intros [Hs|[->|Hr]]]; auto.
Qed.

Lemma attributions_dict_keys nodes attributions (w : World) d w' :
  attributions_dict nodes attributions w = (Ok d, w') ->
  forall n, is_Some (d !! n) <-> n ∈ nodes.
Proof.
  intros H n. unfold attributions_dict in H.
  change (imap pair nodes) with (imap (fun i n => (0 + i, n)) nodes) in H.
  rewrite (attributions_fold_keys _ _ _ _ _ _ _ H n), lookup_empty.
  split; [intros [[? Hs]|Hin]; [discriminate | exact Hin] | now right].
Qed.

Lemma read_graph_run h (w : World) g :
  (read_graph h w).1 = Ok g -> read_graph h w = (Ok g, w).
Proof.
  intros H. rewrite (graph_reader_same _ w (graph_reader_read_graph h)).
  now rewrite H.
Qed.

(** X12.  [distribution_change_of_graphs] returns an attribution for the target
    node and for each of its ancestors in the old graph, and for nothing
    else: the keys of the result are the nodes of the old graph that are the
    target or one of its ancestors. *)
Theorem distribution_change_of_graphs_keys :
  forall r new target num_samples shapley_config (w : World) g result w',
    w_graphs w !! r = Some g ->
    distribution_change_of_graphs (mkHandle r None) new target num_samples
      shapley_config w = (Ok result, w') ->
    forall n,
      is_Some (result !! n)
      <-> n ∈ g_nodes g /\ (n = target \/ n ∈ ancestors g target).
Proof.
  intros r new target num config w g result w' Hg H n.
  unfold distribution_change_of_graphs in H.
  inv_bind H as u1 w1 Hv1.
  destruct (graph_reader_run _ _ _ _ (graph_reader_validate_causal_dag _) Hv1)
    as [-> _].
  inv_bind H as u2 w2 Hv2.
  destruct (graph_reader_run _ _ _ _ (graph_reader_validate_causal_dag _) Hv2)
    as [-> _].
  inv_bind H as view_old w3 Hview.
  assert (Hold : view_old = mkHandle r (Some (target :: ancestors g target))
                 /\ w3 = w).
  { unfold node_connected_subgraph_view, bind, read_graph in Hview.
    simpl in Hview. rewrite Hg in Hview. simpl in Hview.
    destruct (bool_decide (target ∈ g_nodes g)); [|discriminate].
    now inversion Hview. }
  destruct Hold as [-> ->].
  inv_bind H as view_new w4 Hview_new.
  apply same_world in Hview_new;
    [subst w4 | apply preserves_node_connected_subgraph_view; exact _].
  set (view := mkHandle r (Some (target :: ancestors g target))) in *.
  assert (Hread : forall w0 : World,
             w_graphs w0 !! r = Some g ->
             graph_nodes view w0
             = (Ok (filter (fun n => n ∈ target :: ancestors g target)
                      (g_nodes g)), w0)).
  { intros w0 Hg0. unfold graph_nodes, bind, read_graph. simpl.
    now rewrite Hg0. }
  unfold _estimate_marginal_distribution_change in H.
  inv_bind H as nodes_old w5 Hn1. rewrite (Hread w Hg) in Hn1.
  inversion Hn1; subst nodes_old w5; clear Hn1.
  inv_bind H as olds w6 Holds.
  destruct (for_each_reader _ _ _ _ _ (graph_reader_causal_mechanism view) Holds)
    as [-> _].
  inv_bind H as nodes_new w7 Hn2.
  apply same_world in Hn2; [subst w7 | apply preserves_graph_nodes; exact _].
  inv_bind H as news w8 Hnews.
  destruct (for_each_reader _ _ _ _ _ (graph_reader_causal_mechanism view_new)
              Hnews) as [-> _].
  inv_bind H as samples w9 Hdraw.
  pose proof (preserves_draw_samples extends view num w) as E1.
  rewrite Hdraw in E1. simpl in E1.
  inv_bind H as t_old w10 Hcol.
  pose proof (df_column_world samples target w9) as Hw. rewrite Hcol in Hw.
  simpl in Hw. subst w10.
  inv_bind H as attributions w11 Hshapley.
  match type of Hshapley with
  | estimate_shapley_values ?f ?k ?c _ = _ =>
      pose proof (preserves_estimate_shapley_values extends f k c
                    (fun subset => preserves_attribution_set_function _ _ _ _ _ _ _)
                    w9) as E2
  end.
  rewrite Hshapley in E2. simpl in E2.
  assert (Hg11 : w_graphs w11 !! r = Some g).
  { destruct E1 as [_ G1], E2 as [_ G2]. apply G2, G1, Hg. }
  inv_bind H as nodes w12 Hn3. rewrite (Hread w11 Hg11) in Hn3.
  inversion Hn3; subst nodes w12; clear Hn3.
  rewrite (attributions_dict_keys _ _ _ _ _ H n).
  unfold sorted. rewrite merge_sort_Permutation, list_elem_of_filter, elem_of_cons.
  split; intros [H1 H2]; split; assumption.
Qed.

(** *** Invalid input *)

(** X13.  The entry points validate before they do anything else.  When
    the validation of a graph fails, [distribution_change_of_graphs] (old
    graph first, then new graph) and [estimate_distribution_change_scores]
    raise the error of the validation and nothing has happened: no sample is
    drawn, no test is run, nothing is logged. *)
Theorem invalid_input_fails_first :
  forall old new target num_samples shapley_config (w : World) g_old g_new,
    (read_graph old w).1 = Ok g_old ->
    (read_graph new w).1 = Ok g_new ->
    let run :=
      distribution_change_of_graphs old new target num_samples shapley_config w in
    (forall e, validate_dag g_old = Some e -> run = (Raise (ExtError e), w))
    /\ (validate_dag g_old = None ->
        forall e, validate_dag g_new = Some e -> run = (Raise (ExtError e), w))
    /\ (forall od nd max num pct alpha fdr e,
          validate_dag g_old = Some e ->
          estimate_distribution_change_scores old od nd max num pct alpha fdr w
          = (Raise (ExtError e), w)).
Proof.
  intros old new target num config w g_old g_new Ho Hn run. subst run.
  apply read_graph_run in Ho. apply read_graph_run in Hn.
  assert (Vo_bad : forall e, validate_dag g_old = Some e ->
            validate_causal_dag old w = (Raise (ExtError e), w)).
  { intros e He. unfold validate_causal_dag.
    rewrite (bind_ok _ _ _ _ _ Ho), He. reflexivity. }
  assert (Vo_ok : validate_dag g_old = None ->
            validate_causal_dag old w = (Ok tt, w)).
  { intros He. unfold validate_causal_dag.
    rewrite (bind_ok _ _ _ _ _ Ho), He. reflexivity. }
  assert (Vn_bad : forall e, validate_dag g_new = Some e ->
            validate_causal_dag new w = (Raise (ExtError e), w)).
  { intros e He. unfold validate_causal_dag.
    rewrite (bind_ok _ _ _ _ _ Hn), He. reflexivity. }
  unfold distribution_change_of_graphs, estimate_distribution_change_scores.
  split; [|split].
  - intros e He. now rewrite (bind_raise _ _ _ _ _ (Vo_bad e He)).
  - intros Hv e He.
    rewrite (bind_ok _ _ _ _ _ (Vo_ok Hv)).
    now rewrite (bind_raise _ _ _ _ _ (Vn_bad e He)).
  - intros od nd max n pct alpha fdr e He.
    now rewrite (bind_raise _ _ _ _ _ (Vo_bad e He)).
Qed.

(** *** The hybrid model of a coalition *)

Lemma update_node_attrs_run r n f (w : World) u w' :
  update_node_attrs (mkHandle r None) n f w = (Ok u, w') ->
  exists g,
    w_graphs w !! r = Some g /\ n ∈ g_nodes g
    /\ w' = mkWorld (w_rng w)
              (<[r := mkGraph (g_nodes g) (g_edges g)
                        (<[n := f (attrs_of g n)]> (g_attrs g))]> (w_graphs w))
              (w_mechs w) (w_log w).
Proof.
  unfold update_node_attrs, node_attrs, bind, read_graph. simpl.
  destruct (w_graphs w !! r) as [g|] eqn:E; simpl; [|discriminate].
  destruct (bool_decide (n ∈ g_nodes g)) eqn:Ein; simpl; [|discriminate].
  apply bool_decide_eq_true in Ein.
  rewrite E. intros [= <- <-]. exists g.
  split; [reflexivity|]. split; [exact Ein | reflexivity].
Qed.

Lemma assign_mechanism_run r nodes olds news subset i (w : World) u w' :
  assign_mechanism (mkHandle r None) nodes olds news subset i w = (Ok u, w') ->
  exists n m g,
    nodes !! i = Some n /\ hybrid_mechanism olds news subset i = Some m
    /\ w_graphs w !! r = Some g /\ n ∈ g_nodes g
    /\ w' = mkWorld (w_rng w)
              (<[r := mkGraph (g_nodes g) (g_edges g)
                        (<[n := mkNodeAttrs (Some m)
                                  (attr_parents_during_fit (attrs_of g n))]>
                           (g_attrs g))]> (w_graphs w))
              (w_mechs w) (w_log w).
Proof.
  intros H. unfold assign_mechanism in H. unfold hybrid_mechanism.
  inv_bind H as bit w1 Hbit.
  destruct (subset !! i) as [bit'|]; [|discriminate].
  inversion Hbit; subst bit' w1; clear Hbit.
  inv_bind H as n w2 Hn.
  destruct (nodes !! i) as [n'|]; [|discriminate].
  inversion Hn; subst n' w2; clear Hn.
  destruct (Z.eqb bit 1).
  - inv_bind H as m w3 Hm.
    destruct (news !! i) as [m'|]; [|discriminate].
    inversion Hm; subst m' w3; clear Hm.
    apply update_node_attrs_run in H as (g & Hg & Hin & ->).
    exists n, m, g. auto.
  - inv_bind H as m w3 Hm.
    destruct (olds !! i) as [m'|]; [|discriminate].
    inversion Hm; subst m' w3; clear Hm.
    apply update_node_attrs_run in H as (g & Hg & Hin & ->).
    exists n, m, g. auto.
Qed.

(** The first loop of the set function: the nodes at the indices get their
    hybrid mechanism, nothing else changes in the copy. *)
Lemma assign_loop r nodes olds news subset :
  NoDup nodes ->
  forall indices (w w' : World) us g,
    NoDup indices ->
    for_each (assign_mechanism (mkHandle r None) nodes olds news subset)
      indices w = (Ok us, w') ->
    w_graphs w !! r = Some g ->
    exists g',
      w_graphs w' !! r = Some g'
      /\ g_nodes g' = g_nodes g /\ g_edges g' = g_edges g
      /\ (forall n, (forall i, i ∈ indices -> nodes !! i <> Some n) ->
            g_attrs g' !! n = g_attrs g !! n)
      /\ (forall i, i ∈ indices ->
            exists n m,
              nodes !! i = Some n
              /\ hybrid_mechanism olds news subset i = Some m
              /\ attr_causal_mechanism (attrs_of g' n) = Some m).
Proof.
  intros Hnodes indices.
  induction indices as [|i rest IH]; intros w w' us g Hnd H Hg; simpl in H.
  - inversion H; subst. exists g. repeat split; try assumption.
    intros i Hi. now apply elem_of_nil in Hi.
  - inv_bind H as u w1 Hi. inv_bind H as us' w2 Hrest.
    inversion H; subst us w2; clear H.
    apply NoDup_cons in Hnd as [Hi_rest Hnd].
    destruct (assign_mechanism_run _ _ _ _ _ _ _ _ _ Hi)
      as (n & m & g0 & En & Em & Hg0 & Hin & ->).
    rewrite Hg in Hg0. inversion Hg0; subst g0; clear Hg0.
    set (g1 := mkGraph (g_nodes g) (g_edges g)
                 (<[n := mkNodeAttrs (Some m)
                           (attr_parents_during_fit (attrs_of g n))]>
                    (g_attrs g))) in *.
    destruct (IH _ _ _ g1 Hnd Hrest) as (g' & Hg' & Hn' & He' & Hkeep & Hset).
    { simpl. apply lookup_insert_eq. }
    exists g'. split; [exact Hg'|]. split; [exact Hn'|]. split; [exact He'|].
    split.
    + intros n' Hn''. rewrite Hkeep.
      * simpl. apply lookup_insert_ne. intros <-.
        apply (Hn'' i); [left | exact En].
      * intros j Hj. apply Hn''. now right.
    + intros j Hj. apply elem_of_cons in Hj as [-> | Hj]; [|now apply Hset].
      exists n, m. split; [exact En|]. split; [exact Em|].
      unfold attrs_of. rewrite Hkeep.
      * simpl. now rewrite lookup_insert_eq.
      * intros j Hj Ej. apply Hi_rest.
        now rewrite (NoDup_lookup _ _ _ _ Hnodes En Ej).
Qed.

Lemma predecessors_edges g g' n :
  g_edges g' = g_edges g -> predecessors g' n = predecessors g n.
Proof. intros H. unfold predecessors. now rewrite H. Qed.

(** The second loop of the set function: every node visited gets its
    predecessors as parents of the fit, and keeps its mechanism. *)
Lemma record_loop r :
  forall ns (w w' : World) us g,
    for_each (record_parents (mkHandle r None)) ns w = (Ok us, w') ->
    w_graphs w !! r = Some g ->
    exists g',
      w_graphs w' !! r = Some g'
      /\ g_nodes g' = g_nodes g /\ g_edges g' = g_edges g
      /\ (forall n,
            attr_causal_mechanism (attrs_of g' n)
            = attr_causal_mechanism (attrs_of g n))
      /\ (forall n, n ∉ ns -> g_attrs g' !! n = g_attrs g !! n)
      /\ (forall n, n ∈ ns ->
            attr_parents_during_fit (attrs_of g' n) = Some (predecessors g n)).
Proof.
  induction ns as [|n0 rest IH]; intros w w' us g H Hg; simpl in H.
  - inversion H; subst. exists g. repeat split; try assumption.
    intros n Hn. now apply elem_of_nil in Hn.
  - inv_bind H as u w1 Hn0. inv_bind H as us' w2 Hrest.
    inversion H; subst us w2; clear H.
    unfold record_parents in Hn0. inv_bind Hn0 as parents w0 Hp.
    assert (Hparents : parents = predecessors g n0 /\ w0 = w).
    { unfold get_ordered_predecessors, bind, read_graph in Hp. simpl in Hp.
      rewrite Hg in Hp. simpl in Hp.
      destruct (bool_decide (n0 ∈ g_nodes g)); [|discriminate].
      now inversion Hp. }
    destruct Hparents as [-> ->].
    unfold set_parents_during_fit in Hn0.
    apply update_node_attrs_run in Hn0 as (g0 & Hg0 & Hin & ->).
    rewrite Hg in Hg0. inversion Hg0; subst g0; clear Hg0.
    set (g1 := mkGraph (g_nodes g) (g_edges g)
                 (<[n0 := mkNodeAttrs (attr_causal_mechanism (attrs_of g n0))
                            (Some (predecessors g n0))]> (g_attrs g))) in *.
    destruct (IH _ _ _ g1 Hrest) as (g' & Hg' & Hn' & He' & Hmech & Hkeep & Hset).
    { simpl. apply lookup_insert_eq. }
    assert (Hg1 : forall n,
              attr_causal_mechanism (attrs_of g1 n)
              = attr_causal_mechanism (attrs_of g n)).
    { intros n. unfold attrs_of. simpl.
      destruct (decide (n = n0)) as [->|Hne].
      - now rewrite lookup_insert_eq.
      - now rewrite lookup_insert_ne by congruence. }
    exists g'. split; [exact Hg'|]. split; [exact Hn'|]. split; [exact He'|].
    split; [|split].
    + intros n. now rewrite Hmech, Hg1.
    + intros n Hn. apply not_elem_of_cons in Hn as [Hne Hn].
      rewrite (Hkeep n Hn). simpl. now apply lookup_insert_ne.
    + intros n Hn.
      destruct (decide (n ∈ rest)) as [Hr|Hr].
      * rewrite (Hset n Hr). reflexivity.
      * apply elem_of_cons in Hn as [-> | Hn]; [|contradiction].
        unfold attrs_of. rewrite (Hkeep n0 Hr). simpl.
        now rewrite lookup_insert_eq.
Qed.

(** X14.  The model that the set function samples from for a coalition that
    is not all zero is the hybrid one.  The forward sampler is called, with
    the mechanisms and the random state of the start, on the graph [hybrid]
    that the copy of the old graph has become: it has the nodes and edges
    that the factory gave the copy; node [i] of its sorted nodes has the new
    mechanism [i] when bit [i] of the coalition is 1 and the old mechanism
    [i] otherwise, for every [i] below the number of old mechanisms (the
    nodes being distinct); and every node has its list of predecessors as
    [PARENTS_DURING_FIT].  The value returned is the difference between the
    baseline and the target column of these samples. *)
Theorem attribution_set_function_hybrid :
  forall causal_model_old target_node num_samples old_causal_models
         new_causal_models target_samples_old subset (w : World) v w',
    all_zero subset = false ->
    attribution_set_function causal_model_old target_node num_samples
      old_causal_models new_causal_models target_samples_old subset w
    = (Ok v, w') ->
    let copy := fresh (dom (w_graphs w)) in
    exists source hybrid samples rng' target_samples_new,
      (read_graph causal_model_old w).1 = Ok source
      /\ g_nodes hybrid = g_nodes (graph_factory source)
      /\ g_edges hybrid = g_edges (graph_factory source)
      /\ length old_causal_models <= length (g_nodes hybrid)
      /\ (NoDup (g_nodes hybrid) ->
          forall i n,
            i < length old_causal_models ->
            sorted (g_nodes hybrid) !! i = Some n ->
            exists m,
              hybrid_mechanism old_causal_models new_causal_models subset i
              = Some m
              /\ attr_causal_mechanism (attrs_of hybrid n) = Some m)
      /\ (forall n, n ∈ g_nodes hybrid ->
            attr_parents_during_fit (attrs_of hybrid n)
            = Some (predecessors hybrid n))
      /\ forward_sampler hybrid (w_mechs w) num_samples (w_rng w)
         = (inr samples, rng')
      /\ (df_column samples target_node w').1 = Ok target_samples_new
      /\ v = difference_estimation_func target_samples_old target_samples_new
      /\ w_graphs w' !! copy = Some hybrid.
Proof.
  intros model target num olds news t_old subset w v w' Hz H r.
  unfold attribution_set_function in H. rewrite Hz in H.
  inv_bind H as c w0 Hfac.
  unfold call_graph_factory in Hfac. inv_bind Hfac as source ws Hsource.
  pose proof Hsource as Hws.
  apply same_world in Hws; [subst ws | apply preserves_read_graph; exact _].
  inversion Hfac; subst c w0; clear Hfac. fold r in H.
  set (gc := graph_factory source) in *.
  set (w0 := mkWorld (w_rng w) (<[r := gc]> (w_graphs w)) (w_mechs w)
               (w_log w ++ [EvGraphFactory (h_ref model) r])) in *.
  assert (Hg0 : w_graphs w0 !! r = Some gc) by apply lookup_insert_eq.
  assert (Hread : forall (wx : World) gx,
             w_graphs wx !! r = Some gx ->
             graph_nodes (mkHandle r None) wx = (Ok (g_nodes gx), wx)).
  { intros wx gx Hx. unfold graph_nodes, bind, read_graph. simpl.
    now rewrite Hx. }
  inv_bind H as nodes w1 Hnodes. rewrite (Hread _ _ Hg0) in Hnodes.
  inversion Hnodes; subst nodes w1; clear Hnodes.
  inv_bind H as u1 w2 Hassign.
  pose proof (preserves_for_each (touches_graph r) _ (seq 0 (length olds))
                (assign_mechanism_touches (mkHandle r None) (sorted (g_nodes gc))
                   olds news subset) w0) as T2.
  rewrite Hassign in T2. destruct T2 as (R2 & M2 & _ & _). simpl in R2, M2.
  assert (Hgraphs : exists g2,
             w_graphs w2 !! r = Some g2 /\ g_nodes g2 = g_nodes gc
             /\ g_edges g2 = g_edges gc).
  { remember (sorted (g_nodes gc)) as ns eqn:Ens.
    clear -Hassign Hg0. clearbody w0. clearbody gc.
    revert w0 w2 u1 gc Hassign Hg0.
    generalize (seq 0 (length olds)) as indices.
    induction indices as [|i rest IH]; intros w0 w2 u1 gc H Hg0; simpl in H.
    - inversion H; subst. now exists gc.
    - inv_bind H as u wa Hi. inv_bind H as us wb Hrest.
      inversion H; subst u1 wb; clear H.
      destruct (assign_mechanism_run _ _ _ _ _ _ _ _ _ Hi)
        as (n & m & g & _ & _ & Hg & _ & ->).
      rewrite Hg0 in Hg. inversion Hg; subst g; clear Hg.
      destruct (IH _ _ _ _ Hrest (lookup_insert_eq _ _ _))
        as (g2 & Hg2 & Hn2 & He2).
      exists g2. auto. }
  destruct Hgraphs as (g2 & Hg2 & Hn2 & He2).
  inv_bind H as all_nodes w3 Hall. rewrite (Hread _ _ Hg2) in Hall.
  inversion Hall; subst all_nodes w3; clear Hall.
  inv_bind H as u2 w4 Hrecord.
  pose proof (preserves_for_each (touches_graph r) _ (g_nodes g2)
                (record_parents_touches (mkHandle r None)) w2) as T4.
  rewrite Hrecord in T4. destruct T4 as (R4 & M4 & _ & _). simpl in R4, M4.
  destruct (record_loop r _ _ _ _ g2 Hrecord Hg2)
    as (g4 & Hg4 & Hn4 & He4 & Hmech4 & _ & Hset4).
  inv_bind H as samples w5 Hdraw.
  assert (Hsampler : exists rng',
             forward_sampler g4 (w_mechs w) num (w_rng w) = (inr samples, rng')
             /\ w_graphs w5 = w_graphs w4).
  { unfold draw_samples, bind, read_graph in Hdraw. simpl in Hdraw.
    rewrite Hg4 in Hdraw. simpl in Hdraw.
    unfold of_collaborator, with_rng_result in Hdraw. simpl in Hdraw.
    rewrite M4, M2, R4, R2 in Hdraw.
    destruct (forward_sampler g4 (w_mechs w) num (w_rng w)) as [[e|s] rng'];
      [discriminate|].
    inversion Hdraw; subst. now exists rng'. }
  destruct Hsampler as (rng' & Hsampler & G5).
  inv_bind H as t_new w6 Hcol.
  pose proof (df_column_world samples target w5) as Hw. rewrite Hcol in Hw.
  simpl in Hw. subst w6.
  assert (Hend : v = difference_estimation_func t_old t_new
                 /\ w_graphs w' = w_graphs w5)
    by (unfold call_difference, bind, log_event, ret in H; now inversion H).
  destruct Hend as [Hv G6]. clear H.
  assert (Hlen : length olds <= length (g_nodes gc)).
  { destruct (decide (length olds = 0)) as [E|E]; [lia|].
    assert (Hi : length olds - 1 ∈ seq 0 (length olds))
      by (apply elem_of_seq; lia).
    apply list_elem_of_lookup in Hi as (j & Hj).
    assert (Hsome : is_Some (sorted (g_nodes gc) !! (length olds - 1))).
    { clear -Hassign Hj. clearbody w0.
      revert w0 w2 u1 j Hassign Hj.
      generalize (seq 0 (length olds)) as indices.
      induction indices as [|i rest IH]; intros w0 w2 u1 j H Hj;
        [discriminate|].
      simpl in H. inv_bind H as u wa Hi. inv_bind H as us wb Hrest.
      destruct j as [|j]; simpl in Hj.
      - inversion Hj; subst i.
        destruct (assign_mechanism_run _ _ _ _ _ _ _ _ _ Hi)
          as (n & _ & _ & En & _). now exists n.
      - exact (IH _ _ _ _ Hrest Hj). }
    apply lookup_lt_is_Some in Hsome.
    unfold sorted in Hsome. rewrite merge_sort_Permutation in Hsome. lia. }
  assert (Hnodes4 : g_nodes g4 = g_nodes gc) by congruence.
  assert (Hedges4 : g_edges g4 = g_edges gc) by congruence.
  exists source, g4, samples, rng', t_new.
  split; [now rewrite Hsource|]. split; [exact Hnodes4|].
  split; [exact Hedges4|]. split; [now rewrite Hnodes4|].
  split; [|split; [|split; [|split; [|split]]]].
  - rewrite Hnodes4. intros Hnd i n Hi En.
    assert (Hsorted : NoDup (sorted (g_nodes gc))).
    { unfold sorted. now rewrite merge_sort_Permutation. }
    destruct (assign_loop r _ olds news subset Hsorted _ _ _ _ gc
                (NoDup_seq 0 (length olds)) Hassign Hg0)
      as (g2' & Hg2' & _ & _ & _ & Hset2).
    rewrite Hg2 in Hg2'. inversion Hg2'; subst g2'; clear Hg2'.
    destruct (Hset2 i) as (n' & m & En' & Em & Hm); [apply elem_of_seq; lia|].
    rewrite En in En'. inversion En'; subst n'; clear En'.
    exists m. split; [exact Em|]. now rewrite Hmech4.
  - intros n Hin. rewrite Hset4 by (rewrite <- Hn4; exact Hin).
    f_equal. symmetry. now apply predecessors_edges.
  - exact Hsampler.
  - clear -Hcol. unfold df_column in *.
    destruct (bool_decide (target ∈ df_columns samples)); [|discriminate].
    now inversion Hcol.
  - exact Hv.
  - now rewrite G6, G5.
Qed.

(** *** The keys of the scores *)

Lemma scores_fold_keys model od nd max num pct flags ns :
  forall (results0 : gmap node Q) (wa : World) results wb,
    for_fold
      (fun results n =>
         let* score := score_node model od nd max num pct flags n in
         ret (<[n := score]> (results : gmap node Q)))
      results0 ns wa = (Ok results, wb) ->
    forall n, is_Some (results !! n) <-> is_Some (results0 !! n) \/ n ∈ ns.
Proof.
  induction ns as [|n0 rest IH]; intros results0 wa results wb H n.
  - inversion H; subst results wb. rewrite elem_of_nil.
    split; [now left | intros [Hs|[]]; exact Hs].
  - simpl in H. inv_bind H as results1 w1 Hbody.
    inv_bind Hbody as v0 w1' Hscore.
    inversion Hbody; subst results1 w1'; clear Hbody.
    rewrite (IH _ _ _ _ H n), lookup_insert_is_Some', elem_of_cons.
    split; [intros [[->|Hs]|Hr] | intros [Hs|[->|Hr]]]; auto.
Qed.

(** X15.  [estimate_distribution_change_scores] returns a score for every node of
    the graph and for nothing else. *)
Theorem scores_keys :
  forall model od nd max num pct alpha fdr (w : World) nodes results w',
    graph_nodes model w = (Ok nodes, w) ->
    estimate_distribution_change_scores model od nd max num pct alpha fdr w
    = (Ok results, w') ->
    forall n, is_Some (results !! n) <-> n ∈ nodes.
Proof.
  intros model od nd max num pct alpha fdr w nodes results w' Hnodes H n.
  unfold estimate_distribution_change_scores in H.
  inv_bind H as u w0 Hvalid.
  destruct (graph_reader_run _ _ _ _ (graph_reader_validate_causal_dag model)
              Hvalid) as [-> _].
  inv_bind H as flags w1 Hscreen.
  pose proof (preserves_check_significant_mechanism_change same_store
                model od nd alpha fdr w) as [Hg1 _].
  rewrite Hscreen in Hg1. simpl in Hg1.
  inv_bind H as nodes' w2 Hnodes'.
  rewrite (graph_nodes_store model w w1 Hg1), Hnodes in Hnodes'.
  inversion Hnodes'; subst nodes' w2; clear Hnodes'.
  rewrite (scores_fold_keys _ _ _ _ _ _ _ _ _ _ _ _ H n), lookup_empty.
  split; [intros [[? Hs]|Hin]; [discriminate | exact Hin] | now right].
Qed.

(** *** The baseline of the attribution *)

Lemma log_event_against baseline num e :
  against_baseline baseline num e ->
  preserves (logs_only (against_baseline baseline num)) (log_event e).
Proof. apply preserves_log_only. Qed.

Lemma touches_logs_only P r (w w' : World) :
  touches_graph r w w' -> logs_only P w w'.
Proof.
  intros (_ & _ & Hl & _). exists []. rewrite app_nil_r.
  split; [exact Hl | constructor].
Qed.

Lemma call_graph_factory_logs_only P source :
  (forall r, P (EvGraphFactory (h_ref source) r)) ->
  preserves (logs_only P) (call_graph_factory source).
Proof.
  intros HP w.
  destruct (call_graph_factory source w) as [[copy|e] w0] eqn:E; simpl.
  - destruct (call_graph_factory_run _ _ _ _ E) as (_ & _ & _ & _ & Hl & _).
    eexists [_]. split; [exact Hl|]. constructor; [apply HP | constructor].
  - apply call_graph_factory_raise in E. subst. reflexivity.
Qed.

Lemma draw_samples_logs_only P model n :
  P (EvDrawSamples model n) -> preserves (logs_only P) (draw_samples model n).
Proof.
  intros HP w. unfold draw_samples, bind, read_graph.
  destruct (w_graphs w !! h_ref model); simpl; [|reflexivity].
  unfold of_collaborator, with_rng_result. simpl.
  destruct (forward_sampler _ _ _ _) as [[e|a] r']; simpl;
    (eexists [_]; split; [reflexivity|]; constructor; [exact HP | constructor]).
Qed.

Lemma attribution_set_function_against model target num olds news baseline subset :
  preserves (logs_only (against_baseline baseline num))
    (attribution_set_function model target num olds news baseline subset).
Proof.
  unfold attribution_set_function, call_difference.
  destruct (all_zero subset); [apply preserves_ret; exact _|].
  repeat lazymatch goal with
    | |- preserves _ (bind _ _) =>
        refine (preserves_bind (logs_only (against_baseline baseline num))
                  _ _ _ _); [|intros ?; cbv beta]
    | |- preserves _ (call_graph_factory _) =>
        apply call_graph_factory_logs_only; intros ?; exact I
    | |- preserves _ (for_each (assign_mechanism ?c _ _ _ _) _) =>
        refine (preserves_for_each (logs_only (against_baseline baseline num))
                  _ _ _); intros ?;
        eapply preserves_weaken; [apply (touches_logs_only _ (h_ref c))|];
        apply assign_mechanism_touches
    | |- preserves _ (for_each (record_parents ?c) _) =>
        refine (preserves_for_each (logs_only (against_baseline baseline num))
                  _ _ _); intros ?;
        eapply preserves_weaken; [apply (touches_logs_only _ (h_ref c))|];
        apply record_parents_touches
    | |- preserves _ (draw_samples _ _) =>
        apply draw_samples_logs_only; reflexivity
    | |- preserves _ (log_event _) =>
        apply log_event_against; reflexivity
    | |- preserves _ _ => solve [preserves_tac]
    end.
Qed.

Lemma run_shapley_logs_only P plan (set_function : list Z -> M Q) :
  (forall subset, preserves (logs_only P) (set_function subset)) ->
  preserves (logs_only P) (run_shapley plan set_function).
Proof.
  intros Hf. induction plan as [a|e|subset continue IH|advance continue IH];
    simpl.
  - apply preserves_ret. exact _.
  - apply preserves_raise. exact _.
  - apply preserves_bind; [exact _ | apply Hf | intros v; apply IH].
  - intros w. etransitivity; [apply (rng_stable w (advance (w_rng w)))|].
    apply (IH (w_rng w)).
Qed.

(** X16.  [_estimate_marginal_distribution_change] compares every coalition
    with one and the same baseline.  On a run that returns, the first thing
    that happens is the draw of [num_samples] samples from the old model;
    the baseline is the target column of the table that this draw returns.
    Then the Shapley estimator is called with as many players as the old
    model has nodes, and from there on every call of the difference
    estimator has this baseline as its first argument, and every draw of
    samples asks for [num_samples] samples. *)
Theorem marginal_change_single_baseline :
  forall old new target num_samples shapley_config (w : World) result w',
    _estimate_marginal_distribution_change old new target num_samples
      shapley_config w = (Ok result, w') ->
    exists nodes samples baseline (drawn : World) later,
      (graph_nodes old w).1 = Ok nodes
      /\ draw_samples old num_samples w = (Ok samples, drawn)
      /\ df_column samples target drawn = (Ok baseline, drawn)
      /\ log_since w drawn = [EvDrawSamples old num_samples]
      /\ log_since w w'
         = EvDrawSamples old num_samples :: EvShapley (length nodes) :: later
      /\ (forall a b, EvDifference a b ∈ later -> a = baseline)
      /\ (forall model n, EvDrawSamples model n ∈ later -> n = num_samples).
Proof.
  intros old new target num config w result w' H.
  unfold _estimate_marginal_distribution_change in H.
  inv_bind H as nodes w1 Hn1.
  destruct (graph_reader_run _ _ _ _ (graph_reader_graph_nodes old) Hn1)
    as [-> Hnodes].
  inv_bind H as olds w2 Holds.
  pose proof (for_each_length _ _ _ _ _ Holds) as Hlen.
  destruct (for_each_reader _ _ _ _ _ (graph_reader_causal_mechanism old) Holds)
    as [-> _].
  inv_bind H as nodes_new w3 Hn2.
  apply same_world in Hn2; [subst w3 | apply preserves_graph_nodes; exact _].
  inv_bind H as news w4 Hnews.
  destruct (for_each_reader _ _ _ _ _ (graph_reader_causal_mechanism new) Hnews)
    as [-> _].
  inv_bind H as samples w5 Hdraw.
  pose proof (draw_samples_log _ _ _ _ _ Hdraw) as Hl5.
  inv_bind H as baseline w6 Hcol.
  pose proof (df_column_world samples target w5) as Hw. rewrite Hcol in Hw.
  simpl in Hw. subst w6.
  inv_bind H as attributions w7 Hshapley.
  unfold estimate_shapley_values in Hshapley.
  inv_bind Hshapley as u w8 Hev.
  inversion Hev; subst u w8; clear Hev.
  match type of Hshapley with
  | run_shapley ?plan ?f ?w0 = _ =>
      pose proof (run_shapley_logs_only (against_baseline baseline num) plan f
                    (fun subset =>
                       attribution_set_function_against _ _ _ _ _ _ subset) w0)
        as (later & Hl7 & Hall)
  end.
  rewrite Hshapley in Hl7. simpl in Hl7.
  inv_bind H as nodes' w9 Hn3.
  apply same_world in Hn3; [subst w9 | apply preserves_graph_nodes; exact _].
  pose proof (preserves_attributions_dict eq (sorted nodes') attributions w7)
    as Hd.
  rewrite H in Hd. simpl in Hd. subst w'.
  exists nodes, samples, baseline, w5, later.
  split; [exact Hnodes|]. split; [exact Hdraw|]. split; [exact Hcol|].
  split; [now apply log_since_app|].
  split.
  { apply log_since_app. rewrite Hl7, Hl5, <- !app_assoc. simpl.
    rewrite Hlen. unfold sorted. now rewrite merge_sort_Permutation. }
  rewrite Forall_forall in Hall. split.
  - intros a b Hin. exact (Hall _ Hin).
  - intros model n Hin. exact (Hall _ Hin).
Qed.
End Properties.

(** ** The loop of the local scorer on floats *)

Section FloatLoop.
Context {Rng Family ExtExn : Type}.
Local Abbreviation World := (World Rng Family).
Variable round : Q -> xfloat.
Variable mechanism_sampler : Mechanism Family -> ndarray -> Rng -> ndarray * Rng.
Variable difference_estimation_func : ndarray -> ndarray -> xfloat.
Local Abbreviation add := (IEEE.add round).
Local Abbreviation early_stop := (IEEE.early_stop round).
Local Abbreviation row_difference :=
  (@IEEE.row_difference Rng Family ExtExn mechanism_sampler
     difference_estimation_func).
Local Abbreviation score_loop :=
  (@IEEE.score_loop Rng Family ExtExn round mechanism_sampler
     difference_estimation_func).

Lemma float_loop_step orig new num pct row rest result run (w : World) d w1 :
  row_difference orig new num row w = (Ok d, w1) ->
  score_loop orig new num pct (row :: rest) result run w
  = if early_stop pct result (add result d)
    then (Ok (add result d, run + 1), w1)
    else score_loop orig new num pct rest (add result d) (run + 1) w1.
Proof.
  intros H. simpl. rewrite (bind_ok _ _ _ _ _ H).
  now destruct (IEEE.early_stop round pct result (IEEE.add round result d)).
Qed.

Lemma float_early_stop_first_row pct result :
  early_stop pct (Finite 0) result = false.
Proof. reflexivity. Qed.

(** The first sum [0 + d] of a float [d] is [d]. *)
Lemma float_first_sum q :
  float_value round q ->
  exists o, add (Finite 0) (Finite q) = Finite o /\ (o == q)%Q.
Proof.
  intros [Hlow Hup]. simpl.
  specialize (Hlow (0 + q)%Q ltac:(lra)). specialize (Hup (0 + q)%Q ltac:(lra)).
  destruct (round (0 + q)) as [o| | |]; try contradiction.
  exists o. split; [reflexivity | lra].
Qed.

Lemma float_early_stop_second_row pct q1 d2 :
  float_value round 0 -> float_value round 1 ->
  nonnegative_float round pct ->
  (0 <= q1)%Q -> ~ (q1 == 0)%Q -> float_value round q1 ->
  nonnegative_float round d2 ->
  early_stop pct (add (Finite 0) (Finite q1))
    (add (add (Finite 0) (Finite q1)) d2) = true.
Proof.
  intros [_ Hup0] [Hlow1 _] Hpct Hq1 Hne Hf1 Hd2.
  destruct (float_first_sum q1 Hf1) as (o & -> & Ho).
  assert (Hpos : (0 < o)%Q) by lra.
  unfold IEEE.early_stop.
  assert (Hne0 : IEEE.ne0 (Finite o) = true).
  { simpl. destruct (Qeq_bool o 0) eqn:E; [|reflexivity].
    apply Qeq_bool_iff in E. lra. }
  rewrite Hne0.
  change (IEEE.le
            (IEEE.sub round (Finite 1)
               (IEEE.div round (add (Finite o) d2) (Finite o))) pct = true).
  assert (Hquot : match IEEE.div round (add (Finite o) d2) (Finite o) with
                  | Finite t => (1 <= t)%Q
                  | PInf => True
                  | _ => False
                  end).
  { destruct d2 as [q2| | |]; simpl in Hd2; try contradiction.
    - destruct Hd2 as [Hq2 _]. destruct Hf1 as [Hlow _].
      specialize (Hlow (o + q2)%Q ltac:(lra)). simpl.
      destruct (round (o + q2)) as [r| | |]; try contradiction.
      + simpl. destruct (Qeq_bool o 0) eqn:E.
        { apply Qeq_bool_iff in E. lra. }
        specialize (Hlow1 (r / o)%Q).
        assert (Hle : (1 <= r / o)%Q).
        { apply Qle_shift_div_l; [exact Hpos | lra]. }
        specialize (Hlow1 Hle).
        destruct (round (r / o)); try contradiction; exact Hlow1.
      + simpl. destruct (Qle_bool 0 o) eqn:E; [exact I|].
        assert (Hle : Qle_bool 0 o = true) by (apply Qle_bool_iff; lra).
        congruence.
    - simpl. destruct (Qle_bool 0 o) eqn:E; [exact I|].
      assert (Hle : Qle_bool 0 o = true) by (apply Qle_bool_iff; lra).
      congruence. }
  generalize dependent (IEEE.div round (add (Finite o) d2) (Finite o)).
  intros [t| | |] Hquot; try contradiction.
  - simpl. specialize (Hup0 (1 - t)%Q ltac:(lra)).
    destruct (round (1 - t)) as [s| | |]; try contradiction.
    + destruct pct as [p| | |]; simpl in Hpct; try contradiction.
      * simpl. apply Qle_bool_iff. destruct Hpct as [Hp _]. lra.
      * reflexivity.
    + destruct pct as [p| | |]; simpl in Hpct; try contradiction; reflexivity.
  - destruct pct as [p| | |]; simpl in Hpct; try contradiction; reflexivity.
Qed.

(** Whatever its outcome, a row calls the difference estimator at most
    once. *)
Lemma float_row_difference_log_any orig new num row (w : World) :
  exists later,
    w_log (row_difference orig new num row w).2 = w_log w ++ later
    /\ length (difference_calls later) <= 1.
Proof.
  unfold IEEE.row_difference, mechanism_draw_samples, IEEE.call_difference,
    bind, read_mechanism, log_event, with_rng, ret. simpl.
  destruct (w_mechs w !! orig) as [mo|]; simpl.
  2:{ exists []. rewrite app_nil_r. split; [reflexivity | simpl; lia]. }
  destruct (mechanism_sampler mo _ (w_rng w)) as [a r1]; simpl.
  destruct (w_mechs w !! new) as [mn|]; simpl.
  2:{ eexists. split; [reflexivity|]. simpl. lia. }
  destruct (mechanism_sampler mn _ r1) as [b r2]; simpl.
  eexists. rewrite <- !app_assoc. split; [reflexivity|]. simpl. lia.
Qed.

Lemma float_row_difference_value orig new num row (w : World) d w1 :
  row_difference orig new num row w = (Ok d, w1) ->
  exists a b, d = difference_estimation_func a b.
Proof.
  unfold IEEE.row_difference. intros H.
  apply bind_inv_ok in H as (a & wx & _ & H).
  apply bind_inv_ok in H as (b & wy & _ & H).
  unfold IEEE.call_difference, bind, log_event, ret in H. inversion H.
  now exists a, b.
Qed.

Lemma difference_calls_app l1 l2 :
  difference_calls (l1 ++ l2) = difference_calls l1 ++ difference_calls l2.
Proof. apply omap_app. Qed.

(** C10.  Let the difference estimator return floats that are not negative
    (finite and at least zero, or [+inf]), let the early-stop percentage be
    a float that is not negative, and let the first row of an evaluation
    pool of at least two rows contribute a finite difference that is not
    zero.  Then the early-stopping condition does not hold after the first
    row and holds right after the second one: whatever the outcome of the
    loop, the difference estimator is called at most twice, and a loop that
    returns has processed exactly two rows.  The rounding is any one that
    does not cross 0, 1 and the values of the estimator. *)
Theorem float_loop_stops_after_second_row :
  float_value round 0 -> float_value round 1 ->
  (forall a b, nonnegative_float round (difference_estimation_func a b)) ->
  forall orig new num_joint_samples pct row1 row2 rest (w : World),
    nonnegative_float round pct ->
    (forall d w1,
        row_difference orig new num_joint_samples row1 w = (Ok d, w1) ->
        exists q, d = Finite q /\ ~ (q == 0)%Q) ->
    let run_loop :=
      score_loop orig new num_joint_samples pct (row1 :: row2 :: rest)
        (Finite 0) 0 w in
    length (difference_calls (log_since w run_loop.2)) <= 2
    /\ forall result run,
         run_loop.1 = Ok (result, run) ->
         run = 2
         /\ exists d1 d2 w1,
             row_difference orig new num_joint_samples row1 w = (Ok d1, w1)
             /\ row_difference orig new num_joint_samples row2 w1
                = (Ok d2, run_loop.2)
             /\ result = add (add (Finite 0) d1) d2
             /\ early_stop pct (Finite 0) (add (Finite 0) d1) = false
             /\ early_stop pct (add (Finite 0) d1) result = true.
Proof.
  intros H0 H1 Hnonneg orig new num pct row1 row2 rest w Hpct Hfirst run_loop.
  subst run_loop.
  destruct (float_row_difference_log_any orig new num row1 w)
    as (l1 & Hl1 & Hn1).
  destruct (row_difference orig new num row1 w) as [[d1|e] w1] eqn:E1.
  2:{ simpl. rewrite (bind_raise _ _ _ _ _ E1). simpl in *.
      rewrite (log_since_app _ _ _ Hl1). split; [lia | discriminate]. }
  rewrite (float_loop_step _ _ _ pct _ (row2 :: rest) (Finite 0) 0 _ _ _ E1).
  rewrite float_early_stop_first_row. simpl in Hl1.
  destruct (float_row_difference_log_any orig new num row2 w1)
    as (l2 & Hl2 & Hn2).
  destruct (row_difference orig new num row2 w1) as [[d2|e] w2] eqn:E2.
  2:{ simpl. rewrite (bind_raise _ _ _ _ _ E2). simpl in *.
      rewrite Hl1, <- app_assoc in Hl2.
      rewrite (log_since_app _ _ _ Hl2), difference_calls_app, length_app.
      split; [lia | discriminate]. }
  rewrite (float_loop_step _ _ _ pct _ rest _ (0 + 1) _ _ _ E2).
  destruct (Hfirst _ _ eq_refl) as (q1 & -> & Hne).
  assert (Hd1 : nonnegative_float round (Finite q1)).
  { destruct (float_row_difference_value _ _ _ _ _ _ _ E1) as (a & b & ->).
    apply Hnonneg. }
  destruct Hd1 as [Hq1 Hf1].
  assert (Hd2 : nonnegative_float round d2).
  { destruct (float_row_difference_value _ _ _ _ _ _ _ E2) as (a & b & ->).
    apply Hnonneg. }
  assert (Hstop : early_stop pct (add (Finite 0) (Finite q1))
                    (add (add (Finite 0) (Finite q1)) d2) = true)
    by (apply float_early_stop_second_row; assumption).
  rewrite Hstop. simpl in Hl2 |- *. rewrite Hl1, <- app_assoc in Hl2.
  rewrite (log_since_app _ _ _ Hl2), difference_calls_app, length_app.
  split; [lia|]. intros result run [= <- <-]. split; [reflexivity|].
  eexists _, _, w1. split; [reflexivity|]. split; [exact E2|].
  split; [reflexivity|]. split; [reflexivity | exact Hstop].
Qed.
End FloatLoop.

(** ** The properties on the concrete collaborators *)

Lemma demo_choice_contract : choice_contract Demo.choice.
Proof.
  intros population size r Hle. unfold Demo.choice. simpl.
  split; [now rewrite length_rev, length_seq|]. split.
  - apply NoDup_ListNoDup, List.NoDup_rev, NoDup_ListNoDup, NoDup_seq.
  - apply Forall_rev, Forall_forall. intros i Hi.
    apply elem_of_seq in Hi. lia.
Qed.

Lemma mechanism_change_test_parents_validation_witness :
  Demo.tester Demo.target_old Demo.target_new (Some Demo.parents_old) None Demo.world
  = (Raise (ValueError original_parents_without_new), Demo.world)
  /\ Demo.tester Demo.target_old Demo.target_new None (Some Demo.parents_new) Demo.world
     = (Raise (ValueError new_parents_without_original), Demo.world)
  /\ match (Demo.tester Demo.target_old Demo.target_new
              (Some Demo.parents_old) (Some Demo.parents_new) Demo.world).1 with
     | Ok _ => True
     | Raise e => ~ parents_validation_error e
     end.
Proof.
  destruct (mechanism_change_test_parents_validation Demo.choice Demo.indep
              Demo.cond_indep Demo.target_old Demo.target_new Demo.world)
    as (H1 & H2 & H3).
  split; [apply H1|]. split; [apply H2|].
  apply (H3 (Some Demo.parents_old) (Some Demo.parents_new) eq_refl).
Defined.

Lemma mechanism_change_test_labels_counterexample :
  let run := Demo.tester Demo.target_old Demo.target_new None None Demo.world in
  w_log run.2
  = [EvChoice 3 2; EvChoice 2 2;
     EvIndependenceTest
       (Arr2 1 [[Some 3%Q]; [Some 2%Q]; [Some 7%Q]; [Some 5%Q]])
       ["1.0"; "1.0"; "-1.0"; "-1.0"]]
  /\ ~ (exists X, EvIndependenceTest X ["1"; "1"; "-1"; "-1"] ∈ w_log run.2).
Proof.
  split; [reflexivity|].
  intros (X & H). vm_compute in H.
  repeat (apply elem_of_cons in H as [H|H]; [discriminate H|]).
  now apply elem_of_nil in H.
Qed.

Lemma mechanism_change_test_balanced_sample_witness :
  choice_contract Demo.choice
  /\ ncols_2d Demo.target_old = ncols_2d Demo.target_new
  /\ exists rows labels,
       labels = ["1.0"; "1.0"; "-1.0"; "-1.0"]
       /\ stacked 2 Demo.target_old Demo.target_new [2; 1] [1; 0] rows
       /\ Demo.tester Demo.target_old Demo.target_new None None Demo.world
          = call_independence_test Demo.indep (Arr2 1 rows) labels
              (mkWorld 2 ∅ ∅ [EvChoice 3 2; EvChoice 2 2]).
Proof.
  split; [exact demo_choice_contract|]. split; [reflexivity|].
  destruct (mechanism_change_test_balanced_sample Demo.choice Demo.indep
              Demo.cond_indep demo_choice_contract Demo.target_old
              Demo.target_new Demo.world eq_refl)
    as (rows & labels & Hl & _ & _ & _ & _ & _ & Hs & Hrun & _).
  exists rows, labels. split; [exact Hl|]. split; [exact Hs | exact Hrun].
Defined.

Lemma screener_decisions_witness :
  let w1 := (for_each (Demo.p_value Demo.model_old Demo.old_data Demo.new_data)
               ["X"; "Y"] Demo.models).2 in
  NoDup ["X"; "Y"]
  /\ exists flags,
       Demo.screener Demo.model_old Demo.old_data Demo.new_data (5 # 100)%Q None
         Demo.models = (Ok flags, w1)
       /\ flags !! "X" = Some true /\ flags !! "Y" = Some false.
Proof.
  intros w1.
  assert (Hnd : NoDup ["X"; "Y"]) by compute_done.
  assert (Hnodes : Demo.nodes_of Demo.model_old Demo.models
                   = (Ok ["X"; "Y"], Demo.models)) by (vm_compute; reflexivity).
  assert (Hps : for_each (Demo.p_value Demo.model_old Demo.old_data Demo.new_data)
                  ["X"; "Y"] Demo.models
                = (Ok [(1 # 100)%Q; (1 # 2)%Q], w1)) by (vm_compute; reflexivity).
  split; [exact Hnd|].
  destruct (screener_decisions Demo.choice Demo.indep Demo.cond_indep
              Demo.multipletests Demo.model_old Demo.old_data Demo.new_data
              (5 # 100)%Q Demo.models ["X"; "Y"] [(1 # 100)%Q; (1 # 2)%Q] w1
              Hnodes Hnd Hps) as [(flags & Hrun & Hflags) _].
  exists flags. split; [exact Hrun|]. split.
  - destruct (Hflags 0 "X" eq_refl) as (p & Hp & Hf & _).
    inversion Hp; subst p. exact Hf.
  - destruct (Hflags 1 "Y" eq_refl) as (p & Hp & Hf & _).
    inversion Hp; subst p. exact Hf.
Defined.

Lemma screener_empty_graph_and_errors_witness :
  Demo.nodes_of Demo.model_old Demo.no_nodes = (Ok [], Demo.no_nodes)
  /\ Demo.screener Demo.model_old Demo.old_data Demo.new_data (5 # 100)%Q None
       Demo.no_nodes = (Ok ∅, Demo.no_nodes)
  /\ (exists w',
        Demo.screener Demo.model_old Demo.old_data Demo.new_data (5 # 100)%Q
          (Some "fdr_bh") Demo.no_nodes = (Ok ∅, w'))
  /\ exists w',
       Demo.failing_screener Demo.model_old Demo.old_data Demo.new_data (5 # 100)%Q
         (Some "fdr_bh") Demo.one_node
       = (Raise (ExtError "singular kernel matrix"), w').
Proof.
  assert (Hnodes0 : Demo.nodes_of Demo.model_old Demo.no_nodes
                    = (Ok [], Demo.no_nodes)) by (vm_compute; reflexivity).
  split; [exact Hnodes0|].
  destruct (screener_empty_graph_and_errors Demo.choice Demo.indep
              Demo.cond_indep Demo.multipletests Demo.model_old Demo.old_data
              Demo.new_data (5 # 100)%Q Demo.no_nodes) as (H & _).
  destruct (H Hnodes0) as [Hnone Hfdr].
  split; [exact Hnone|]. split.
  - eexists. exact (Hfdr "fdr_bh").
  - destruct (screener_empty_graph_and_errors Demo.choice Demo.failing_indep
                Demo.cond_indep Demo.multipletests Demo.model_old Demo.old_data
                Demo.new_data (5 # 100)%Q Demo.one_node) as (_ & H1 & _).
    assert (Hnodes : Demo.nodes_of Demo.model_old Demo.one_node
                     = (Ok ["X"], Demo.one_node)) by (vm_compute; reflexivity).
    assert (Hraise :
      Demo.failing_p_value Demo.model_old Demo.old_data Demo.new_data "X"
        Demo.one_node
      = (Raise (ExtError "singular kernel matrix"),
         (Demo.failing_p_value Demo.model_old Demo.old_data Demo.new_data "X"
            Demo.one_node).2)) by (vm_compute; reflexivity).
    eexists.
    exact (H1 (Some "fdr_bh") ["X"] [] "X" [] [] Demo.one_node _ _
             Hnodes eq_refl eq_refl Hraise).
Defined.

Lemma screener_empty_graph_counterexample :
  let run :=
    Demo.strict_screener Demo.model_old Demo.old_data Demo.new_data (5 # 100)%Q
      (Some "fdr_bh") Demo.no_nodes in
  Demo.nodes_of Demo.model_old Demo.no_nodes = (Ok [], Demo.no_nodes)
  /\ run.1 = Raise (ExtError "float division by zero")
  /\ w_log run.2 = [EvMultipletests [] (5 # 100)%Q "fdr_bh"]
  /\ ~ (exists w', run = (Ok ∅, w')).
Proof.
  intros run.
  assert (Hrun : run.1 = Raise (ExtError "float division by zero"))
    by (vm_compute; reflexivity).
  split; [vm_compute; reflexivity|]. split; [exact Hrun|].
  split; [vm_compute; reflexivity|].
  intros (w' & H). rewrite H in Hrun. discriminate Hrun.
Qed.

Lemma attribution_set_function_all_zero_witness :
  let run :=
    Demo.set_function Demo.model_old "Y" 3 [0; 1] [2; 3] Demo.target_old
      [0; 1]%Z Demo.models in
  all_zero [0; 0]%Z = true
  /\ Demo.set_function Demo.model_old "Y" 3 [0; 1] [2; 3] Demo.target_old
       [0; 0]%Z Demo.models = (Ok 0%Q, Demo.models)
  /\ all_zero [0; 1]%Z = false
  /\ run.1 = Ok 1%Q
  /\ exists target_samples_new,
       w_log run.2
       = w_log Demo.models
         ++ [EvGraphFactory 0 2; EvDrawSamples (mkHandle 2 None) 3;
             EvDifference Demo.target_old target_samples_new].
Proof.
  intros run.
  destruct (attribution_set_function_all_zero Demo.graph_factory
              Demo.forward_sampler Demo.difference Demo.model_old "Y" 3 [0; 1]
              [2; 3] Demo.target_old [0; 0]%Z Demo.models) as [H0 _].
  destruct (attribution_set_function_all_zero Demo.graph_factory
              Demo.forward_sampler Demo.difference Demo.model_old "Y" 3 [0; 1]
              [2; 3] Demo.target_old [0; 1]%Z Demo.models) as [_ H1].
  assert (Hrun : run = (Ok 1%Q, run.2)) by (vm_compute; reflexivity).
  split; [reflexivity|]. split; [exact (H0 eq_refl)|]. split; [reflexivity|].
  split; [now rewrite Hrun|].
  destruct (H1 eq_refl 1%Q run.2 Hrun)
    as (samples & t_new & w1 & w2 & _ & _ & _ & _ & Hlog).
  exists t_new.
  replace (fresh (dom (w_graphs Demo.models))) with 2 in Hlog
    by (vm_compute; reflexivity).
  exact Hlog.
Defined.

Lemma refit_accounts_for_mechanism_change_witness :
  let run :=
    Demo.refit Demo.model_old Demo.model_new Demo.old_data Demo.new_data
      (5 # 100)%Q (Some "fdr_bh") Demo.models in
  let joint_data := pd_concat Demo.old_data Demo.new_data in
  NoDup ["X"; "Y"] /\ NoDup ([0; 1] ++ [2; 3])
  /\ run.1 = Ok (<["Y" := false]> (<["X" := true]> ∅))
  /\ Demo.fitted Demo.model_old "X" Demo.old_data run.2
  /\ Demo.fitted Demo.model_new "X" Demo.new_data run.2
  /\ Demo.fitted Demo.model_old "Y" joint_data run.2
  /\ Demo.fitted Demo.model_new "Y" joint_data run.2.
Proof.
  intros run joint_data.
  assert (Hnd : NoDup ["X"; "Y"]) by compute_done.
  assert (Hms : NoDup ([0; 1] ++ [2; 3])) by compute_done.
  assert (Hrun : run = (Ok (<["Y" := false]> (<["X" := true]> ∅)), run.2))
    by (vm_compute; reflexivity).
  assert (Hno : Demo.nodes_of Demo.model_old Demo.models
                = (Ok ["X"; "Y"], Demo.models)) by (vm_compute; reflexivity).
  assert (Hnn : Demo.nodes_of Demo.model_new Demo.models
                = (Ok ["X"; "Y"], Demo.models)) by (vm_compute; reflexivity).
  assert (Hmo : for_each (Demo.mechanism_of Demo.model_old) ["X"; "Y"] Demo.models
                = (Ok [0; 1], Demo.models)) by (vm_compute; reflexivity).
  assert (Hmn : for_each (Demo.mechanism_of Demo.model_new) ["X"; "Y"] Demo.models
                = (Ok [2; 3], Demo.models)) by (vm_compute; reflexivity).
  assert (HfX : (<["Y" := false]> (<["X" := true]> ∅) : gmap node bool) !! "X"
                = Some true) by (vm_compute; reflexivity).
  assert (HfY : (<["Y" := false]> (<["X" := true]> ∅) : gmap node bool) !! "Y"
                = Some false) by (vm_compute; reflexivity).
  assert (HX : "X" ∈ ["X"; "Y"]) by compute_done.
  assert (HY : "Y" ∈ ["X"; "Y"]) by compute_done.
  destruct (refit_accounts_for_mechanism_change Demo.choice Demo.indep
              Demo.cond_indep Demo.multipletests Demo.model_old Demo.model_new
              Demo.old_data Demo.new_data (5 # 100)%Q (Some "fdr_bh") Demo.models
              ["X"; "Y"] [0; 1] [2; 3] _ run.2
              Hno Hnn Hnd Hmo Hmn Hms Hrun) as [_ H].
  split; [exact Hnd|]. split; [exact Hms|].
  split; [now rewrite Hrun|].
  destruct (H "X" HX) as (_ & H1 & _). destruct (H "Y" HY) as (_ & _ & H2).
  destruct (H1 HfX) as (F1 & F2 & _). destruct (H2 HfY) as (F3 & F4 & _).
  split; [exact F1|]. split; [exact F2|]. split; [exact F3 | exact F4].
Defined.




Lemma scores_by_change_flag_witness :
  let run :=
    Demo.scores Demo.model_old Demo.old_data Demo.new_data 10 4 (1 # 100)%Q
      (5 # 100)%Q (Some "fdr_bh") Demo.models in
  NoDup ["X"; "Y"]
  /\ run.1 = Ok (<["Y" := 0%Q]> (<["X" := 1%Q]> ∅))
  /\ exists flags w1,
       Demo.screener Demo.model_old Demo.old_data Demo.new_data (5 # 100)%Q
         (Some "fdr_bh") Demo.models = (Ok flags, w1)
       /\ (flags !! "Y" = Some false ->
           (<["Y" := 0%Q]> (<["X" := 1%Q]> ∅) : gmap node Q) !! "Y" = Some 0%Q).
Proof.
  intros run.
  assert (Hnd : NoDup ["X"; "Y"]) by compute_done.
  assert (Hrun : run = (Ok (<["Y" := 0%Q]> (<["X" := 1%Q]> ∅)), run.2))
    by (vm_compute; reflexivity).
  assert (Hnodes : Demo.nodes_of Demo.model_old Demo.models
                   = (Ok ["X"; "Y"], Demo.models)) by (vm_compute; reflexivity).
  assert (HY : "Y" ∈ ["X"; "Y"]) by compute_done.
  destruct (scores_by_change_flag Demo.choice Demo.indep Demo.cond_indep
              Demo.validate_dag Demo.mechanism_sampler Demo.multipletests
              Demo.difference Demo.model_old Demo.old_data Demo.new_data 10 4
              (1 # 100)%Q (5 # 100)%Q (Some "fdr_bh")) as [_ H].
  destruct (H Demo.models ["X"; "Y"] _ run.2 Hnodes Hnd Hrun)
    as (flags & w1 & Hscreen & Hscores).
  split; [exact Hnd|]. split; [now rewrite Hrun|].
  exists flags, w1. split; [exact Hscreen|].
  destruct (Hscores "Y" HY) as (_ & H0 & _). exact H0.
Defined.

Lemma distribution_change_of_graphs_frame_witness :
  let run := Demo.attribute Demo.model_old Demo.model_new "Y" 3 None Demo.models in
  run.1 = Ok (<["Y" := (1 / 2)%Q]> (<["X" := (1 / 2)%Q]> ∅))
  /\ w_graphs run.2 !! 0 = Some Demo.graph_old
  /\ w_graphs run.2 !! 1 = Some Demo.graph_new
  /\ w_mechs run.2 = w_mechs Demo.models.
Proof.
  intros run.
  destruct (distribution_change_of_graphs_frame Demo.validate_dag
              Demo.graph_factory Demo.forward_sampler Demo.difference
              Demo.shapley_estimator Demo.model_old Demo.model_new "Y" 3 None
              Demo.models) as (Hm & Hg & _).
  assert (H0 : w_graphs Demo.models !! 0 = Some Demo.graph_old)
    by (vm_compute; reflexivity).
  assert (H1 : w_graphs Demo.models !! 1 = Some Demo.graph_new)
    by (vm_compute; reflexivity).
  split; [vm_compute; reflexivity|].
  split; [exact (Hg 0 _ H0)|]. split; [exact (Hg 1 _ H1) | exact Hm].
Defined.

Lemma local_scorer_no_evaluation_samples_witness :
  let run :=
    Demo.local_score Demo.parents_old Demo.parents_new Demo.target_new 1 0 4
      (1 # 100)%Q Demo.models in
  choice_contract Demo.choice
  /\ w_mechs Demo.models !! 1 = Some Demo.unfitted
  /\ ncols_2d Demo.parents_old = ncols_2d Demo.parents_new
  /\ run.1 = Raise ZeroDivisionError.
Proof.
  intros run.
  assert (Hm : w_mechs Demo.models !! 1 = Some Demo.unfitted)
    by (vm_compute; reflexivity).
  assert (Hc : ncols_2d Demo.parents_old = ncols_2d Demo.parents_new)
    by reflexivity.
  destruct (local_scorer_no_evaluation_samples (ExtExn:=string) Demo.choice
              Demo.mechanism_sampler Demo.difference demo_choice_contract
              Demo.parents_old Demo.parents_new Demo.target_new 1 4 (1 # 100)%Q
              Demo.models Demo.unfitted Hm Hc) as [H _].
  split; [exact demo_choice_contract|]. split; [exact Hm|].
  split; [exact Hc | exact H].
Defined.

Lemma local_scorer_pool_bound_witness :
  let run :=
    Demo.local_score Demo.parents_old Demo.parents_new Demo.target_new 1 10 4
      (1 # 100)%Q Demo.models in
  choice_contract Demo.choice
  /\ run.1 = Ok ((0 + 1 + 1) / inject_Z 2)%Q
  /\ length (differences Demo.difference (log_since Demo.models run.2))
     <= Nat.min (3 + 2) 10.
Proof.
  intros run.
  assert (Hrun : run = (Ok ((0 + 1 + 1) / inject_Z 2)%Q, run.2))
    by (vm_compute; reflexivity).
  split; [exact demo_choice_contract|]. split; [now rewrite Hrun|].
  exact (local_scorer_pool_bound (ExtExn:=string) Demo.choice
           Demo.mechanism_sampler Demo.difference demo_choice_contract
           Demo.parents_old Demo.parents_new Demo.target_new 1 10 4 (1 # 100)%Q
           Demo.models _ _ Hrun).
Defined.

Lemma local_scorer_zero_differences_witness :
  choice_contract Demo.choice
  /\ (forall a b, (Demo.no_difference a b == 0)%Q)
  /\ 0 < Nat.min (3 + 2) 10
  /\ exists v w',
       Demo.unchanged_score Demo.parents_old Demo.parents_new Demo.target_new
         1 10 4 (1 # 100)%Q Demo.models = (Ok v, w')
       /\ (v == 0)%Q
       /\ length (differences Demo.no_difference (log_since Demo.models w')) = 5.
Proof.
  assert (Hzero : forall a b, (Demo.no_difference a b == 0)%Q)
    by (intros a b; reflexivity).
  assert (Hm : w_mechs Demo.models !! 1 = Some Demo.unfitted)
    by (vm_compute; reflexivity).
  assert (Hc : ncols_2d Demo.parents_old = ncols_2d Demo.parents_new)
    by reflexivity.
  assert (Hpos : 0 < Nat.min (3 + 2) 10) by (simpl; lia).
  split; [exact demo_choice_contract|]. split; [exact Hzero|].
  split; [exact Hpos|].
  exact (local_scorer_zero_differences (ExtExn:=string) Demo.choice
           Demo.mechanism_sampler Demo.no_difference demo_choice_contract Hzero
           Demo.parents_old Demo.parents_new Demo.target_new 1 10 4 (1 # 100)%Q
           Demo.models Demo.unfitted Hm Hc Hpos).
Defined.


Lemma node_p_value_calls_test_witness :
  choice_contract Demo.choice
  /\ (Demo.predecessors_of Demo.model_old "Y" Demo.models).1 = Ok ["X"]
  /\ exists X Z labels drawn,
       shape0 X = 4 /\ shape0 Z = 4 /\ ncols_2d Z = 1
       /\ labels = ["1.0"; "1.0"; "-1.0"; "-1.0"]
       /\ Demo.p_value Demo.model_old Demo.old_data Demo.new_data "Y" Demo.models
          = call_conditional_independence_test Demo.cond_indep X labels Z drawn.
Proof.
  assert (Hp : (Demo.predecessors_of Demo.model_old "Y" Demo.models).1
               = Ok ["X"]) by (vm_compute; reflexivity).
  assert (Ho : "Y" ∈ df_columns Demo.old_data) by compute_done.
  assert (Hn : "Y" ∈ df_columns Demo.new_data) by compute_done.
  assert (Hcols : forall p, p ∈ ["X"] ->
            p ∈ df_columns Demo.old_data /\ p ∈ df_columns Demo.new_data).
  { intros p Hin. apply list_elem_of_singleton in Hin. subst p.
    split; compute_done. }
  destruct (node_p_value_calls_test Demo.choice Demo.indep Demo.cond_indep
              demo_choice_contract Demo.model_old Demo.old_data Demo.new_data
              "Y" ["X"] Demo.models Hp Ho Hn Hcols)
    as (X & Z & labels & drawn & HX & _ & HZ & HcZ & Hl & _ & Hrun).
  split; [exact demo_choice_contract|]. split; [exact Hp|].
  exists X, Z, labels, drawn.
  split; [exact HX|]. split; [exact HZ|]. split; [exact HcZ|].
  split; [exact Hl | exact Hrun].
Defined.

Lemma screener_flags_keys_witness :
  let run :=
    Demo.screener Demo.model_old Demo.old_data Demo.new_data (5 # 100)%Q None
      Demo.models in
  run.1 = Ok (<["Y" := false]> (<["X" := true]> ∅))
  /\ forall n,
       is_Some ((<["Y" := false]> (<["X" := true]> ∅) : gmap node bool) !! n) <->
       n ∈ ["X"; "Y"].
Proof.
  intros run.
  assert (Hrun : run = (Ok (<["Y" := false]> (<["X" := true]> ∅)), run.2))
    by (vm_compute; reflexivity).
  assert (Hnodes : Demo.nodes_of Demo.model_old Demo.models
                   = (Ok ["X"; "Y"], Demo.models)) by (vm_compute; reflexivity).
  destruct (screener_flags_keys Demo.choice Demo.indep Demo.cond_indep
              Demo.multipletests Demo.model_old Demo.old_data Demo.new_data
              (5 # 100)%Q None Demo.models ["X"; "Y"] _ run.2 Hnodes Hrun)
    as [Hsub Hall].
  split; [now rewrite Hrun|]. intros n. split; [apply Hsub | apply Hall].
Defined.

Lemma refit_unchanged_node_same_mechanism_witness :
  let run :=
    Demo.refit Demo.model_old Demo.model_new Demo.old_data Demo.new_data
      (5 # 100)%Q (Some "fdr_bh") Demo.models in
  NoDup ["X"; "Y"] /\ NoDup ([0; 1] ++ [2; 3])
  /\ run.1 = Ok (<["Y" := false]> (<["X" := true]> ∅))
  /\ w_mechs run.2 !! 1 = w_mechs run.2 !! 3.
Proof.
  intros run.
  assert (Hnd : NoDup ["X"; "Y"]) by compute_done.
  assert (Hms : NoDup ([0; 1] ++ [2; 3])) by compute_done.
  assert (Hrun : run = (Ok (<["Y" := false]> (<["X" := true]> ∅)), run.2))
    by (vm_compute; reflexivity).
  assert (Hno : Demo.nodes_of Demo.model_old Demo.models
                = (Ok ["X"; "Y"], Demo.models)) by (vm_compute; reflexivity).
  assert (Hnn : Demo.nodes_of Demo.model_new Demo.models
                = (Ok ["X"; "Y"], Demo.models)) by (vm_compute; reflexivity).
  assert (Hmo : for_each (Demo.mechanism_of Demo.model_old) ["X"; "Y"] Demo.models
                = (Ok [0; 1], Demo.models)) by (vm_compute; reflexivity).
  assert (Hmn : for_each (Demo.mechanism_of Demo.model_new) ["X"; "Y"] Demo.models
                = (Ok [2; 3], Demo.models)) by (vm_compute; reflexivity).
  assert (HfY : (<["Y" := false]> (<["X" := true]> ∅) : gmap node bool) !! "Y"
                = Some false) by (vm_compute; reflexivity).
  assert (HY : "Y" ∈ ["X"; "Y"]) by compute_done.
  assert (Hp : (Demo.predecessors_of Demo.model_old "Y" Demo.models).1
               = (Demo.predecessors_of Demo.model_new "Y" Demo.models).1)
    by (vm_compute; reflexivity).
  assert (Eo : (Demo.mechanism_of Demo.model_old "Y" Demo.models).1 = Ok 1)
    by (vm_compute; reflexivity).
  assert (En : (Demo.mechanism_of Demo.model_new "Y" Demo.models).1 = Ok 3)
    by (vm_compute; reflexivity).
  assert (Emo : w_mechs Demo.models !! 1 = Some Demo.unfitted)
    by (vm_compute; reflexivity).
  assert (Emn : w_mechs Demo.models !! 3 = Some Demo.unfitted)
    by (vm_compute; reflexivity).
  destruct (refit_unchanged_node_same_mechanism Demo.choice Demo.indep
              Demo.cond_indep Demo.multipletests Demo.model_old Demo.model_new
              Demo.old_data Demo.new_data (5 # 100)%Q (Some "fdr_bh") Demo.models
              ["X"; "Y"] [0; 1] [2; 3] _ run.2
              Hno Hnn Hnd Hmo Hmn Hms Hrun "Y" 1 3 Demo.unfitted Demo.unfitted
              HY HfY Hp Eo En Emo Emn eq_refl) as (_ & H & _).
  split; [exact Hnd|]. split; [exact Hms|].
  split; [now rewrite Hrun | exact H].
Defined.

Lemma refit_node_missing_from_old_graph_witness :
  ("Z" ∉ ["X"; "Y"])
  /\ Demo.nodes_of Demo.model_new Demo.models_extra
     = (Ok (["X"] ++ "Z" :: ["Y"]), Demo.models_extra)
  /\ (Demo.refit Demo.model_old Demo.model_new Demo.old_data Demo.new_data
        (5 # 100)%Q None Demo.models_extra).1 = Raise (KeyError "Z").
Proof.
  set (screened := Demo.screener Demo.model_old Demo.old_data Demo.new_data
                     (5 # 100)%Q None Demo.models_extra).
  set (flags := (<["Y" := false]> (<["X" := true]> ∅) : gmap node bool)).
  set (before := for_each
                   (Demo.refit_one Demo.model_old Demo.model_new Demo.old_data
                      Demo.new_data (pd_concat Demo.old_data Demo.new_data) flags)
                   ["X"] screened.2).
  assert (Hnot : "Z" ∉ ["X"; "Y"]) by compute_done.
  assert (Hno : Demo.nodes_of Demo.model_old Demo.models_extra
                = (Ok ["X"; "Y"], Demo.models_extra)) by (vm_compute; reflexivity).
  assert (Hnn : Demo.nodes_of Demo.model_new Demo.models_extra
                = (Ok (["X"] ++ "Z" :: ["Y"]), Demo.models_extra))
    by (vm_compute; reflexivity).
  assert (Hscreen : screened = (Ok flags, screened.2)) by (vm_compute; reflexivity).
  assert (Hbefore : before = (Ok [tt], before.2)) by (vm_compute; reflexivity).
  split; [exact Hnot|]. split; [exact Hnn|].
  exact (f_equal fst
           (refit_node_missing_from_old_graph Demo.choice Demo.indep
              Demo.cond_indep Demo.multipletests Demo.model_old Demo.model_new
              Demo.old_data Demo.new_data (5 # 100)%Q None Demo.models_extra
              ["X"; "Y"] ["X"] "Z" ["Y"] flags screened.2 [tt] before.2
              Hno Hnn Hnot Hscreen Hbefore)).
Defined.

Lemma distribution_change_of_graphs_keys_witness :
  let run := Demo.attribute Demo.model_old Demo.model_new "Y" 3 None Demo.models in
  w_graphs Demo.models !! 0 = Some Demo.graph_old
  /\ run.1 = Ok (<["Y" := (1 / 2)%Q]> (<["X" := (1 / 2)%Q]> ∅))
  /\ forall n,
       is_Some ((<["Y" := (1 / 2)%Q]> (<["X" := (1 / 2)%Q]> ∅) : gmap node Q) !! n)
       <-> n ∈ g_nodes Demo.graph_old
           /\ (n = "Y" \/ n ∈ ancestors Demo.graph_old "Y").
Proof.
  intros run.
  assert (H0 : w_graphs Demo.models !! 0 = Some Demo.graph_old)
    by (vm_compute; reflexivity).
  assert (Hrun : run = (Ok (<["Y" := (1 / 2)%Q]> (<["X" := (1 / 2)%Q]> ∅)), run.2))
    by (vm_compute; reflexivity).
  split; [exact H0|]. split; [now rewrite Hrun|].
  exact (distribution_change_of_graphs_keys Demo.validate_dag
           Demo.graph_factory Demo.forward_sampler Demo.difference
           Demo.shapley_estimator 0 Demo.model_new "Y" 3 None Demo.models
           Demo.graph_old _ run.2 H0 Hrun).
Defined.

Lemma invalid_input_fails_first_witness :
  (Demo.graph_of Demo.model_old Demo.looped).1 = Ok Demo.graph_loop
  /\ Demo.acyclic_validate_dag Demo.graph_loop = Some "the graph has a cycle"
  /\ Demo.strict_attribute Demo.model_old Demo.model_old "X" 3 None Demo.looped
     = (Raise (ExtError "the graph has a cycle"), Demo.looped).
Proof.
  assert (Ho : (Demo.graph_of Demo.model_old Demo.looped).1 = Ok Demo.graph_loop)
    by (vm_compute; reflexivity).
  assert (Hv : Demo.acyclic_validate_dag Demo.graph_loop
               = Some "the graph has a cycle") by reflexivity.
  destruct (invalid_input_fails_first Demo.choice Demo.indep Demo.cond_indep
              Demo.acyclic_validate_dag Demo.graph_factory
              Demo.mechanism_sampler Demo.forward_sampler Demo.multipletests
              Demo.difference Demo.shapley_estimator Demo.model_old
              Demo.model_old "X" 3 None Demo.looped Demo.graph_loop
              Demo.graph_loop Ho Ho) as (H & _).
  split; [exact Ho|]. split; [exact Hv|]. exact (H _ Hv).
Defined.

Lemma attribution_set_function_hybrid_witness :
  let run :=
    Demo.set_function Demo.model_old "Y" 3 [0; 1] [2; 3] Demo.target_old
      [0; 1]%Z Demo.models in
  all_zero [0; 1]%Z = false
  /\ run.1 = Ok 1%Q
  /\ exists hybrid samples rng',
       attr_causal_mechanism (attrs_of hybrid "X") = Some 0
       /\ attr_causal_mechanism (attrs_of hybrid "Y") = Some 3
       /\ Demo.forward_sampler hybrid (w_mechs Demo.models) 3 0
          = (inr samples, rng')
       /\ w_graphs run.2 !! 2 = Some hybrid.
Proof.
  intros run.
  assert (Hz : all_zero [0; 1]%Z = false) by reflexivity.
  assert (Hrun : run = (Ok 1%Q, run.2)) by (vm_compute; reflexivity).
  destruct (attribution_set_function_hybrid Demo.graph_factory
              Demo.forward_sampler Demo.difference Demo.model_old "Y" 3
              [0; 1] [2; 3] Demo.target_old [0; 1]%Z Demo.models _ _ Hz Hrun)
    as (source & hybrid & samples & rng' & t_new
        & Hsource & Hnodes & _ & _ & Hmech & _ & Hsampler & _ & _ & Hend).
  assert (Hs : (Demo.graph_of Demo.model_old Demo.models).1 = Ok Demo.graph_old)
    by (vm_compute; reflexivity).
  unfold Demo.graph_of in Hs. rewrite Hs in Hsource.
  inversion Hsource; subst source; clear Hsource.
  change (g_nodes hybrid = ["X"; "Y"]) in Hnodes.
  rewrite Hnodes in Hmech.
  assert (Hnd : NoDup ["X"; "Y"]) by compute_done.
  assert (H0 : 0 < length [0; 1]) by (simpl; lia).
  assert (H1 : 1 < length [0; 1]) by (simpl; lia).
  assert (Hs0 : sorted ["X"; "Y"] !! 0 = Some "X") by (vm_compute; reflexivity).
  assert (Hs1 : sorted ["X"; "Y"] !! 1 = Some "Y") by (vm_compute; reflexivity).
  destruct (Hmech Hnd 0 "X" H0 Hs0) as (m0 & Hm0 & Hc0).
  destruct (Hmech Hnd 1 "Y" H1 Hs1) as (m1 & Hm1 & Hc1).
  inversion Hm0; subst m0. inversion Hm1; subst m1.
  replace (fresh (dom (w_graphs Demo.models))) with 2 in Hend
    by (vm_compute; reflexivity).
  split; [exact Hz|]. split; [now rewrite Hrun|].
  exists hybrid, samples, rng'.
  split; [exact Hc0|]. split; [exact Hc1|]. split; [exact Hsampler | exact Hend].
Defined.

Lemma scores_keys_witness :
  let run :=
    Demo.scores Demo.model_old Demo.old_data Demo.new_data 10 4 (1 # 100)%Q
      (5 # 100)%Q (Some "fdr_bh") Demo.models in
  run.1 = Ok (<["Y" := 0%Q]> (<["X" := 1%Q]> ∅))
  /\ forall n,
       is_Some ((<["Y" := 0%Q]> (<["X" := 1%Q]> ∅) : gmap node Q) !! n)
       <-> n ∈ ["X"; "Y"].
Proof.
  intros run.
  assert (Hrun : run = (Ok (<["Y" := 0%Q]> (<["X" := 1%Q]> ∅)), run.2))
    by (vm_compute; reflexivity).
  assert (Hnodes : Demo.nodes_of Demo.model_old Demo.models
                   = (Ok ["X"; "Y"], Demo.models)) by (vm_compute; reflexivity).
  split; [now rewrite Hrun|].
  exact (scores_keys Demo.choice Demo.indep Demo.cond_indep Demo.validate_dag
           Demo.mechanism_sampler Demo.multipletests Demo.difference
           Demo.model_old Demo.old_data Demo.new_data 10 4 (1 # 100)%Q
           (5 # 100)%Q (Some "fdr_bh") Demo.models ["X"; "Y"] _ run.2
           Hnodes Hrun).
Defined.

Lemma marginal_change_single_baseline_witness :
  let run := Demo.marginal Demo.model_old Demo.model_new "Y" 3 None Demo.models in
  run.1 = Ok (<["Y" := (1 / 2)%Q]> (<["X" := (1 / 2)%Q]> ∅))
  /\ exists nodes samples baseline drawn later,
       (Demo.nodes_of Demo.model_old Demo.models).1 = Ok nodes
       /\ Demo.sample Demo.model_old 3 Demo.models = (Ok samples, drawn)
       /\ df_column (ExtExn:=string) samples "Y" drawn = (Ok baseline, drawn)
       /\ log_since Demo.models run.2
          = EvDrawSamples Demo.model_old 3 :: EvShapley (length nodes) :: later
       /\ forall a b, EvDifference a b ∈ later -> a = baseline.
Proof.
  intros run.
  assert (Hrun : run = (Ok (<["Y" := (1 / 2)%Q]> (<["X" := (1 / 2)%Q]> ∅)), run.2))
    by (vm_compute; reflexivity).
  destruct (marginal_change_single_baseline Demo.graph_factory
              Demo.forward_sampler Demo.difference Demo.shapley_estimator
              Demo.model_old Demo.model_new "Y" 3 None Demo.models _ run.2 Hrun)
    as (nodes & samples & baseline & drawn & later
        & Hn & Hdraw & Hcol & _ & Hlog & Hdiff & _).
  split; [now rewrite Hrun|].
  exists nodes, samples, baseline, drawn, later.
  split; [exact Hn|]. split; [exact Hdraw|]. split; [exact Hcol|].
  split; [exact Hlog | exact Hdiff].
Defined.

Lemma demo_exact_float_value q : float_value Demo.exact q.
Proof. split; intros x Hx; exact Hx. Qed.

Lemma float_loop_stops_after_second_row_witness :
  let rows := [[Some 1%Q]; [Some 2%Q]; [Some 3%Q]; [Some 4%Q]] in
  let run :=
    Demo.float_loop 0 1 4 (Finite (1 # 100)) rows (Finite 0) 0 Demo.models in
  nonnegative_float Demo.exact (Finite (1 # 100))
  /\ (Demo.float_contribution 0 1 4 [Some 1%Q] Demo.models).1 = Ok (Finite 1)
  /\ run.1 = Ok (Finite (0 + 1 + 1), 2)
  /\ length (difference_calls (log_since Demo.models run.2)) <= 2.
Proof.
  intros rows run.
  assert (Hpct : nonnegative_float Demo.exact (Finite (1 # 100))).
  { split; [discriminate | apply demo_exact_float_value]. }
  assert (Hnonneg : forall a b,
            nonnegative_float Demo.exact (Demo.float_difference a b)).
  { intros a b. split; [discriminate | apply demo_exact_float_value]. }
  assert (E1 : (Demo.float_contribution 0 1 4 [Some 1%Q] Demo.models).1
               = Ok (Finite 1)) by (vm_compute; reflexivity).
  assert (Hfirst : forall d w1,
            Demo.float_contribution 0 1 4 [Some 1%Q] Demo.models = (Ok d, w1) ->
            exists q, d = Finite q /\ ~ (q == 0)%Q).
  { intros d w1 H. rewrite H in E1. simpl in E1. injection E1 as ->.
    exists 1%Q. split; [reflexivity | discriminate]. }
  assert (Erun : run.1 = Ok (Finite (0 + 1 + 1), 2))
    by (vm_compute; reflexivity).
  destruct (float_loop_stops_after_second_row (ExtExn:=string) Demo.exact
              Demo.mechanism_sampler Demo.float_difference
              (demo_exact_float_value 0) (demo_exact_float_value 1) Hnonneg
              0 1 4 (Finite (1 # 100)) [Some 1%Q] [Some 2%Q]
              [[Some 3%Q]; [Some 4%Q]] Demo.models Hpct Hfirst)
    as (Hcalls & Hreturns).
  destruct (Hreturns _ _ Erun) as (_ & _).
  split; [exact Hpct|]. split; [exact E1|]. split; [exact Erun | exact Hcalls].
Defined.

(** An estimator whose first answer is [+inf] and whose other answers are
    1: no value is negative and the first row contributes a nonzero amount,
    yet [inf / inf] is NaN and no comparison with NaN holds, so that the
    loop never stops early and processes the six rows of the pool. *)
Lemma float_loop_infinite_first_row_counterexample :
  let rows :=
    [[Some 1%Q]; [Some 2%Q]; [Some 3%Q]; [Some 4%Q]; [Some 5%Q]; [Some 6%Q]] in
  let pct := Finite (1 # 100) in
  let first := Demo.overflowing_contribution 0 1 4 [Some 1%Q] Demo.models in
  let second := Demo.overflowing_contribution 0 1 4 [Some 2%Q] first.2 in
  let run := Demo.overflowing_loop 0 1 4 pct rows (Finite 0) 0 Demo.models in
  (forall a b,
      match Demo.overflowing_difference a b with
      | Finite q => (0 <= q)%Q
      | PInf => True
      | _ => False
      end)
  /\ first.1 = Ok PInf
  /\ second.1 = Ok (Finite 1)
  /\ IEEE.ne0 PInf = true
  /\ IEEE.early_stop Demo.exact pct
       (IEEE.add Demo.exact (Finite 0) PInf)
       (IEEE.add Demo.exact (IEEE.add Demo.exact (Finite 0) PInf) (Finite 1))
     = false
  /\ run.1 = Ok (PInf, 6)
  /\ length (difference_calls (log_since Demo.models run.2)) = 6
  /\ ~ length (difference_calls (log_since Demo.models run.2)) <= 2.
Proof.
  intros rows pct first second run.
  split.
  { clear. intros a b. unfold Demo.overflowing_difference.
    destruct a as [[|[x|] xs]|c r]; try discriminate.
    destruct (Qeq_bool x 0); [exact I | discriminate]. }
  assert (Hcalls : length (difference_calls (log_since Demo.models run.2)) = 6)
    by (vm_compute; reflexivity).
  split; [vm_compute; reflexivity|]. split; [vm_compute; reflexivity|].
  split; [reflexivity|]. split; [reflexivity|].
  split; [vm_compute; reflexivity|]. split; [exact Hcalls|].
  intros Hle. rewrite Hcalls in Hle. clear - Hle. lia.
Qed.
